(** * Employee onboarding server: progress engine and step loader

    A shallow embedding of the TypeScript sources

    - [src/utils/employee-identifier.ts]  (class [EmployeeIdentifier]),
    - [src/utils/config-parser.ts]        (class [ConfigParser], the
      Markdown-preferring version),
    - [src/index.ts]                      (the tool handlers),

    together with the properties of the step-progression state machine and
    of the step-content loader that the specification states about them.

    Conventions of the embedding.

    - A JavaScript string is a [string]; the character tests and the case
      mappings are the ASCII ones (the step documents, file names and e-mail
      addresses the code handles are ASCII; on other characters [\s],
      [toLowerCase] and [toUpperCase] know more cases than the model).
    - A step id is an integer [Z] (JavaScript numbers are exact on the
      integers the code meets); an absent optional argument is [None].
    - An instant ([new Date()], [Date.now()]) is its number of milliseconds
      since the epoch, a [Z]; [toISOString] is injective on instants, so a
      stored time stamp is kept as the instant itself.  One handler call
      reads the clock once.
    - A JavaScript object used as a dictionary is a [gmap]; a property whose
      value is [undefined] is an absent key (the code reads properties only
      by name, and [JSON.stringify] drops such properties).
    - The data directory is a [gmap] from file name to the profile the file
      holds: a flat directory whose file names are compared character by
      character (a case-sensitive file system), whose files are the ones
      [saveEmployeeProfile] wrote, and which can be read and written
      (e-mail addresses hold no path separator).  The derived file
      [progress-index.json], rebuilt after every save and read back by no
      code path, is left out; what is written into it is the result of
      [updateProgressIndex].
    - An answer of a handler is kept as the data its text is made of; the
      rendering of a step ([formatStepForAI]) is not modelled. *)

From Stdlib Require Import ZArith String Ascii List Bool Lia.
From Stdlib Require Import Sorting.Sorted Sorting.Permutation.
From Stdlib Require DecimalString.
From stdpp Require Import base option list gmap strings fin_maps.

Open Scope string_scope.
Open Scope Z_scope.
Open Scope list_scope.

#[local] Set Warnings "-clear-no-such-hyp,-register-all".

(* ===================================================================== *)
(** * JavaScript strings *)
(* ===================================================================== *)

Module Js.

Definition isUpper (c : ascii) : bool :=
  let n := nat_of_ascii c in Nat.leb 65 n && Nat.leb n 90.

Definition isLower (c : ascii) : bool :=
  let n := nat_of_ascii c in Nat.leb 97 n && Nat.leb n 122.

(** [\d] *)
Definition isDigit (c : ascii) : bool :=
  let n := nat_of_ascii c in Nat.leb 48 n && Nat.leb n 57.

(** [\s]: tab, line feed, vertical tab, form feed, carriage return, space *)
Definition isSpace (c : ascii) : bool :=
  let n := nat_of_ascii c in (Nat.leb 9 n && Nat.leb n 13) || Nat.eqb n 32.

(** [.] without the [s] flag: anything but a line terminator *)
Definition isDot (c : ascii) : bool :=
  let n := nat_of_ascii c in negb (Nat.eqb n 10 || Nat.eqb n 13).

Definition lowerChar (c : ascii) : ascii :=
  if isUpper c then ascii_of_nat (nat_of_ascii c + 32) else c.

Definition upperChar (c : ascii) : ascii :=
  if isLower c then ascii_of_nat (nat_of_ascii c - 32) else c.

Fixpoint mapChars (f : ascii -> ascii) (s : string) : string :=
  match s with
  | EmptyString => EmptyString
  | String c s' => String (f c) (mapChars f s')
  end.

Definition toLowerCase : string -> string := mapChars lowerChar.
Definition toUpperCase : string -> string := mapChars upperChar.

(** [s.startsWith(p)] *)
Fixpoint startsWith (p s : string) : bool :=
  match p, s with
  | EmptyString, _ => true
  | String a p', String b s' => Ascii.eqb a b && startsWith p' s'
  | String _ _, EmptyString => false
  end.

(** [s.slice(n)] for [0 <= n] *)
Fixpoint drop (n : nat) (s : string) : string :=
  match n, s with
  | O, _ => s
  | S n', String _ s' => drop n' s'
  | S _, EmptyString => EmptyString
  end.

(** [s.slice(0, n)] *)
Fixpoint take (n : nat) (s : string) : string :=
  match n, s with
  | S n', String c s' => String c (take n' s')
  | _, _ => EmptyString
  end.

(** [s.includes(p)] *)
Fixpoint includes (p s : string) : bool :=
  startsWith p s ||
  match s with
  | EmptyString => false
  | String _ s' => includes p s'
  end.

(** [s.endsWith(p)] *)
Definition endsWith (p s : string) : bool :=
  String.eqb (drop (String.length s - String.length p) s) p
  && Nat.leb (String.length p) (String.length s).

(** [s.split(sep)] for a one-character separator: the pieces between the
    separators, empty pieces included, at least one piece. *)
Fixpoint split (sep : ascii) (s : string) : list string :=
  match s with
  | EmptyString => [EmptyString]
  | String c s' =>
      if Ascii.eqb c sep then EmptyString :: split sep s'
      else match split sep s' with
           | piece :: rest => String c piece :: rest
           | [] => [String c EmptyString]
           end
  end.

(** [pieces.join(sep)] *)
Fixpoint join (sep : string) (pieces : list string) : string :=
  match pieces with
  | [] => EmptyString
  | [p] => p
  | p :: rest => p +:+ sep +:+ join sep rest
  end.

(** [s.charAt(0)] *)
Definition charAt0 (s : string) : string := take 1 s.

(** [s.replace(p, '')] with a string pattern: the first occurrence goes. *)
Fixpoint removeFirst (p s : string) : string :=
  if startsWith p s then drop (String.length p) s
  else match s with
       | EmptyString => EmptyString
       | String c s' => String c (removeFirst p s')
       end.

(** [parseInt(d)] on a string of decimal digits *)
Definition parseInt (d : string) : Z :=
  fold_left (fun acc c => 10 * acc + (Z.of_nat (nat_of_ascii c) - 48))
            (list_ascii_of_string d) 0.

(** [`${n}`] for an integer *)
Definition ofInt (n : Z) : string :=
  DecimalString.NilZero.string_of_int (Z.to_int n).

(** Every character of [s] is in the class [c]. *)
Fixpoint allChars (c : ascii -> bool) (s : string) : bool :=
  match s with
  | EmptyString => true
  | String a s' => c a && allChars c s'
  end.

(** JavaScript truthiness of an optional string: [undefined] and the
    empty string are falsy. *)
Definition truthy (o : option string) : option string :=
  match o with
  | Some EmptyString => None
  | _ => o
  end.

End Js.

(* ===================================================================== *)
(** * The regular expressions of the sources *)
(* ===================================================================== *)

(** A backtracking matcher for the fragment the sources use: literals,
    one-character classes with the quantifiers [*], [+] (greedy) and [+?]
    (lazy), alternation, sequencing and capturing groups.  The matcher is
    written in continuation-passing style: the continuation is the rest of
    the pattern, and a [None] from it makes the quantifier try its next
    length, which is the order in which the JavaScript engine backtracks. *)

Module Regex.

Inductive regex : Type :=
| Lit (s : string)
| Chr (c : ascii -> bool)
| Star (c : ascii -> bool)
| Plus (c : ascii -> bool)
| PlusLazy (c : ascii -> bool)
| Cat (r1 r2 : regex)
| Alt (r1 r2 : regex)
| Group (r : regex).

Definition captures := list string.
Definition cont := string -> captures -> option captures.

(** [c*], longest first *)
Fixpoint greedy (c : ascii -> bool) (s : string) (caps : captures) (k : cont)
  : option captures :=
  match s with
  | String a s' =>
      if c a then
        match greedy c s' caps k with
        | Some r => Some r
        | None => k s caps
        end
      else k s caps
  | EmptyString => k s caps
  end.

(** [c*?], shortest first *)
Fixpoint lazy (c : ascii -> bool) (s : string) (caps : captures) (k : cont)
  : option captures :=
  match k s caps with
  | Some r => Some r
  | None =>
      match s with
      | String a s' => if c a then lazy c s' caps k else None
      | EmptyString => None
      end
  end.

Fixpoint run (r : regex) (s : string) (caps : captures) (k : cont)
  : option captures :=
  match r with
  | Lit p =>
      if Js.startsWith p s then k (Js.drop (String.length p) s) caps else None
  | Chr c =>
      match s with
      | String a s' => if c a then k s' caps else None
      | EmptyString => None
      end
  | Star c => greedy c s caps k
  | Plus c =>
      match s with
      | String a s' => if c a then greedy c s' caps k else None
      | EmptyString => None
      end
  | PlusLazy c =>
      match s with
      | String a s' => if c a then lazy c s' caps k else None
      | EmptyString => None
      end
  | Cat r1 r2 => run r1 s caps (fun s' caps' => run r2 s' caps' k)
  | Alt r1 r2 =>
      match run r1 s caps k with
      | Some res => Some res
      | None => run r2 s caps k
      end
  | Group r1 =>
      run r1 s caps
          (fun s' caps' =>
             k s' (caps' ++ [Js.take (String.length s - String.length s') s]))
  end.

(** The continuations that end a match: anywhere, or at the end of the
    input only. *)
Definition accept : cont := fun _ caps => Some caps.

Definition acceptAtEnd : cont :=
  fun s caps =>
    match s with
    | EmptyString => Some caps
    | String _ _ => None
    end.

(** [s.match(r)] without the [g] flag: the captures of the leftmost match *)
Fixpoint exec (r : regex) (s : string) : option captures :=
  match run r s [] accept with
  | Some caps => Some caps
  | None =>
      match s with
      | EmptyString => None
      | String _ s' => exec r s'
      end
  end.

(** [/^r$/.test(s)]: the pattern has to consume the whole input *)
Definition testWhole (r : regex) (s : string) : bool :=
  match run r s [] acceptAtEnd with
  | Some _ => true
  | None => false
  end.

Fixpoint seq (rs : list regex) : regex :=
  match rs with
  | [] => Lit EmptyString
  | [r] => r
  | r :: rs' => Cat r (seq rs')
  end.

(** What the patterns mean: [Matches r s caps] says that [r] matches the
    whole of [s] and that its groups captured [caps], in the order in which
    the groups close. *)
Inductive Matches : regex -> string -> captures -> Prop :=
| MLit p : Matches (Lit p) p []
| MChr c a : c a = true -> Matches (Chr c) (String a EmptyString) []
| MStar c s : Js.allChars c s = true -> Matches (Star c) s []
| MPlus c a s :
    c a = true -> Js.allChars c s = true -> Matches (Plus c) (String a s) []
| MPlusLazy c a s :
    c a = true -> Js.allChars c s = true -> Matches (PlusLazy c) (String a s) []
| MCat r1 r2 s1 s2 c1 c2 :
    Matches r1 s1 c1 -> Matches r2 s2 c2 ->
    Matches (Cat r1 r2) (s1 +:+ s2) (c1 ++ c2)
| MAltL r1 r2 s c : Matches r1 s c -> Matches (Alt r1 r2) s c
| MAltR r1 r2 s c : Matches r2 s c -> Matches (Alt r1 r2) s c
| MGroup r s c : Matches r s c -> Matches (Group r) s (c ++ [s]).

End Regex.


(* ===================================================================== *)
(** * Employee profiles ([employee-identifier.ts]) *)
(* ===================================================================== *)

(** The values kept in a step's free-form record. *)
Inductive value : Type :=
| VString (s : string)
| VNumber (n : Z)
| VBool (b : bool)
| VDate (t : Z)
| VObject (fields : list (string * value)).

Record Metadata : Type := mkMetadata {
  createdAt : Z;
  lastUpdated : Z;
  version : string
}.

Record EmployeeProfile : Type := mkProfile {
  email : string;
  name : string;
  startDate : Z;
  buddyEmail : option string;
  department : option string;
  currentStep : Z;
  completedSteps : list Z;
  stepData : gmap Z (gmap string value);
  metadata : Metadata
}.

(** The arguments of [start_onboarding] and [register_employee]; the
    second argument of [createNewProfile] is read through the same three
    properties. *)
Record StartOnboardingArgs : Type := mkStartArgs {
  sa_email : option string;
  sa_name : option string;
  sa_buddyEmail : option string;
  sa_department : option string
}.

(** The environment variables [getCurrentEmployeeEmail] looks at. *)
Record Env : Type := mkEnv {
  USER_EMAIL : option string;
  USERPRINCIPALNAME : option string;
  OFFICE_365_EMAIL : option string;
  USERNAME : option string;
  USERDOMAIN : option string
}.

(** The data directory: file name to stored profile. *)
Abbreviation Store := (gmap string EmployeeProfile).

(** ** Effects: a state and exception monad over the data directory *)

Inductive result (A : Type) : Type :=
| Ok (a : A)
| Throw (msg : string).
Arguments Ok {A} a.
Arguments Throw {A} msg.

Definition M (A : Type) : Type := Store -> result A * Store.

Definition ret {A : Type} (a : A) : M A := fun st => (Ok a, st).

Definition throw {A : Type} (msg : string) : M A := fun st => (Throw msg, st).

Definition bind {A B : Type} (m : M A) (f : A -> M B) : M B :=
  fun st =>
    match m st with
    | (Ok a, st') => f a st'
    | (Throw msg, st') => (Throw msg, st')
    end.

Notation "'let*' x ':=' c1 'in' c2" := (bind c1 (fun x => c2))
  (at level 10, x name, c1 at level 100, c2 at level 200).

(** [fs.readdir(dataPath)]; a missing directory lists nothing. *)
Definition readdir : M (list string) :=
  fun st => (Ok (map fst (map_to_list st)), st).

(** [fs.readFile] followed by [JSON.parse] *)
Definition readProfile (file : string) : M (option EmployeeProfile) :=
  fun st => (Ok (st !! file), st).

(** [fs.writeFile] of the serialized profile *)
Definition writeProfile (file : string) (p : EmployeeProfile) : M unit :=
  fun st => (Ok tt, <[file := p]> st).

(** ** [EmployeeIdentifier] *)

(** The e-mail pattern, anchored at both ends: a non-empty run without white
    space or [@], an [@], such a run again, a dot, and such a run again. *)
Definition notSpaceAt (c : ascii) : bool :=
  negb (Js.isSpace c || Ascii.eqb c "@").

Definition emailRegex : Regex.regex :=
  Regex.seq [Regex.Plus notSpaceAt; Regex.Lit "@"; Regex.Plus notSpaceAt;
             Regex.Lit "."; Regex.Plus notSpaceAt].

Definition isValidEmail (email : string) : bool :=
  Regex.testWhole emailRegex email.

(** The same in words: local part, [@], domain, a dot, and a last part, none
    of them empty or holding white space or a further [@]. *)
Definition EmailShape (email : string) : Prop :=
  exists user domain suffix,
    email = user +:+ "@" +:+ domain +:+ "." +:+ suffix
    /\ user <> EmptyString /\ Js.allChars notSpaceAt user = true
    /\ domain <> EmptyString /\ Js.allChars notSpaceAt domain = true
    /\ suffix <> EmptyString /\ Js.allChars notSpaceAt suffix = true.

(** [part.charAt(0).toUpperCase() + part.slice(1).toLowerCase()] *)
Definition capitalize (part : string) : string :=
  Js.toUpperCase (Js.charAt0 part) +:+ Js.toLowerCase (Js.drop 1 part).

Definition localPart (email : string) : string :=
  match Js.split "@" email with
  | p :: _ => p
  | [] => EmptyString
  end.

Definition extractNameFromEmail (email : string) : string :=
  let localPart := localPart email in
  if Js.includes "." localPart then
    Js.join " " (map capitalize (Js.split "." localPart))
  else if Js.includes "_" localPart then
    Js.join " " (map capitalize (Js.split "_" localPart))
  else capitalize localPart.

(** [a || b] on optional strings *)
Definition orElse (a b : option string) : option string :=
  match Js.truthy a with
  | Some x => Some x
  | None => b
  end.

Definition profileFile (email : string) : string := email +:+ ".json".

Definition isProfileFile (f : string) : bool :=
  Js.endsWith ".json" f && negb (String.eqb f "progress-index.json").

Definition getCurrentEmployeeEmail (env : Env) : M string :=
  (* Method 1: environment variables *)
  let envEmail :=
    orElse (USER_EMAIL env) (orElse (USERPRINCIPALNAME env) (OFFICE_365_EMAIL env)) in
  let method1 :=
    match Js.truthy envEmail with
    | Some e => if isValidEmail e then Some (Js.toLowerCase e) else None
    | None => None
    end in
  match method1 with
  | Some e => ret e
  | None =>
      (* Method 2: Windows domain user *)
      let method2 :=
        match Js.truthy (USERNAME env), Js.truthy (USERDOMAIN env) with
        | Some username, Some domain =>
            if negb (String.eqb domain username) then
              find isValidEmail
                   [username +:+ "@" +:+ Js.toLowerCase domain +:+ ".com";
                    username +:+ "@" +:+ Js.toLowerCase domain +:+ ".onmicrosoft.com";
                    username +:+ "@company.com"]
            else None
        | _, _ => None
        end in
      match method2 with
      | Some e => ret e
      | None =>
          (* Method 3: a single existing profile file *)
          let* files := readdir in
          match filter (fun f => isProfileFile f = true) files with
          | [f] => ret (Js.removeFirst ".json" f)
          | _ =>
              (* Method 4: registration required *)
              throw "REGISTRATION_REQUIRED"
          end
      end
  end.

(** [saveEmployeeProfile]: refreshes [metadata.lastUpdated] on the profile
    object it is given, writes it under [`${profile.email}.json`] and hands
    the refreshed object on (JavaScript mutates the caller's object). *)
Definition touch (now : Z) (p : EmployeeProfile) : EmployeeProfile :=
  mkProfile (email p) (name p) (startDate p) (buddyEmail p) (department p)
            (currentStep p) (completedSteps p) (stepData p)
            (mkMetadata (createdAt (metadata p)) now (version (metadata p))).

Definition saveEmployeeProfile (now : Z) (profile : EmployeeProfile)
  : M EmployeeProfile :=
  let profile := touch now profile in
  let* _ := writeProfile (profileFile (email profile)) profile in
  ret profile.

Definition createNewProfile (now : Z) (email : string)
    (additionalInfo : option StartOnboardingArgs) : M EmployeeProfile :=
  let profile :=
    {| email := Js.toLowerCase email;
       name := match Js.truthy (additionalInfo ≫= sa_name) with
               | Some n => n
               | None => extractNameFromEmail email
               end;
       startDate := now;
       buddyEmail := additionalInfo ≫= sa_buddyEmail;
       department := additionalInfo ≫= sa_department;
       currentStep := 1;
       completedSteps := [];
       stepData := ∅;
       metadata := {| createdAt := now; lastUpdated := now; version := "1.0" |}
    |} in
  saveEmployeeProfile now profile.

(** [getEmployeeProfile]: a stored profile is returned as it is; a missing
    file makes a new profile (and stores it). *)
Definition getEmployeeProfile (env : Env) (now : Z) (email : option string)
  : M EmployeeProfile :=
  let* employeeEmail :=
    match Js.truthy email with
    | Some e => ret e
    | None => getCurrentEmployeeEmail env
    end in
  let* data := readProfile (profileFile employeeEmail) in
  match data with
  | Some profile => ret profile
  | None => createNewProfile now employeeEmail None
  end.

(* ===================================================================== *)
(** * Step documents ([config-parser.ts]) *)
(* ===================================================================== *)

(** A parsed step.  The fields [title], [description], [resources] and
    [completionCriteria], which are text cut out of [content], are not kept
    in the record; [content] is.  What [parseStepMarkdown] computes for
    them is defined on its own further down ([markdownTitle],
    [markdownDescription], [extractMarkdownLinks],
    [markdownCompletionCriteria]), and so is what [parseStepHTML] computes
    for the first three ([htmlTitle], [htmlDescription],
    [extractResourceLinks]). *)
Record OnboardingStep : Type := mkStep {
  id : Z;
  type : string;
  required : bool;
  content : string;
  isMarkdown : bool
}.

(** The steps directory as [fs.readdir] lists it: each entry with the text
    [fs.readFile] gives for it, or [None] when reading it throws.  A missing
    directory is [None]. *)
Definition StepsDir : Type := option (list (string * option string)).

(** The file name pattern: [step-] followed by one or more digits
    (captured). *)
Definition stepIdRegex : Regex.regex :=
  Regex.Cat (Regex.Lit "step-") (Regex.Group (Regex.Plus Js.isDigit)).

(** [idMatch ? parseInt(idMatch[1]) : 0] *)
Definition stepIdOf (filename : string) : Z :=
  match Regex.exec stepIdRegex filename with
  | Some (d :: _) => Js.parseInt d
  | _ => 0
  end.

(** The header line pattern: two stars, [Step ], digits, [ of ], digits, two
    stars, optional white space, a vertical bar, optional white space, two
    stars, a lazily matched non-empty run of characters without line
    terminator (captured), two stars. *)
Definition headerRegex : Regex.regex :=
  Regex.seq [Regex.Lit "**Step "; Regex.Plus Js.isDigit; Regex.Lit " of ";
             Regex.Plus Js.isDigit; Regex.Lit "**"; Regex.Star Js.isSpace;
             Regex.Lit "|"; Regex.Star Js.isSpace; Regex.Lit "**";
             Regex.Group (Regex.PlusLazy Js.isDot); Regex.Lit "**"].

(** The header line, in words: somewhere in the text stand two stars, the
    word Step, a number, the word of, a number, two stars, a vertical bar
    with optional white space around it, and a label between two pairs of
    stars, the label being non-empty and on one line. *)
Definition HeaderLine (text label : string) : Prop :=
  exists before x y gap1 gap2 after,
    text = before +:+ "**Step " +:+ x +:+ " of " +:+ y +:+ "**" +:+ gap1 +:+ "|"
                  +:+ gap2 +:+ "**" +:+ label +:+ "**" +:+ after
    /\ x <> EmptyString /\ Js.allChars Js.isDigit x = true
    /\ y <> EmptyString /\ Js.allChars Js.isDigit y = true
    /\ Js.allChars Js.isSpace gap1 = true /\ Js.allChars Js.isSpace gap2 = true
    /\ label <> EmptyString /\ Js.allChars Js.isDot label = true.

(** [headerMatch[1]], when the header line is there *)
Definition headerLabel (content : string) : option string :=
  match Regex.exec headerRegex content with
  | Some (label :: _) => Some label
  | _ => None
  end.

Definition parseStepMarkdown (content filename : string) : option OnboardingStep :=
  let id := stepIdOf filename in
  let isRequired :=
    match headerLabel content with
    | Some label => Js.includes "required" (Js.toLowerCase label)
    | None => true
    end in
  let type := "general" in
  Some {| id := id; type := type; required := isRequired;
          content := content; isMarkdown := true |}.

(** The double quote, and the two attribute patterns of the HTML parser:
    data-step-type=, then a quoted run of one or more characters other than
    the quote (captured); data-required=, then a quoted true or false
    (captured). *)
Definition dquote : string := String (ascii_of_nat 34) EmptyString.

Definition notQuote (c : ascii) : bool := negb (Ascii.eqb c (ascii_of_nat 34)).

Definition stepTypeRegex : Regex.regex :=
  Regex.seq [Regex.Lit ("data-step-type=" +:+ dquote);
             Regex.Group (Regex.Plus notQuote);
             Regex.Lit dquote].

Definition requiredRegex : Regex.regex :=
  Regex.seq [Regex.Lit ("data-required=" +:+ dquote);
             Regex.Group (Regex.Alt (Regex.Lit "true") (Regex.Lit "false"));
             Regex.Lit dquote].

Definition parseStepHTML (content filename : string) : option OnboardingStep :=
  let id := stepIdOf filename in
  let type :=
    match Regex.exec stepTypeRegex content with
    | Some (t :: _) => t
    | _ => "general"
    end in
  let required :=
    match Regex.exec requiredRegex content with
    | Some (r :: _) => String.eqb r "true"
    | _ => true
    end in
  Some {| id := id; type := type; required := required;
          content := content; isMarkdown := false |}.

Definition isMarkdownFile (entry : string * option string) : bool :=
  Js.endsWith ".md" (fst entry).

Definition isHtmlFile (entry : string * option string) : bool :=
  Js.endsWith ".html" (fst entry).

(** The first loop of [loadSteps]: every Markdown file that can be read is
    parsed and pushed, and its id recorded in [stepIds]. *)
Definition loadMarkdownStep (acc : list OnboardingStep * gset Z)
    (entry : string * option string) : list OnboardingStep * gset Z :=
  let '(steps, stepIds) := acc in
  let '(file, data) := entry in
  match data with
  | Some content =>
      match parseStepMarkdown content file with
      | Some step => (steps ++ [step], stepIds ∪ {[ id step ]})
      | None => (steps, stepIds)
      end
  | None => (steps, stepIds)
  end.

(** The second loop: an HTML file is read and parsed only when the id in its
    file name is not in [stepIds]; [stepIds] is not extended here. *)
Definition loadHtmlStep (stepIds : gset Z) (steps : list OnboardingStep)
    (entry : string * option string) : list OnboardingStep :=
  let '(file, data) := entry in
  let id := stepIdOf file in
  if decide (id ∈ stepIds) then steps
  else
    match data with
    | Some content =>
        match parseStepHTML content file with
        | Some step => steps ++ [step]
        | None => steps
        end
    | None => steps
    end.

Definition loadSteps (dir : StepsDir) : list OnboardingStep :=
  match dir with
  | Some files =>
      let markdownFiles := List.filter isMarkdownFile files in
      let '(steps, stepIds) := fold_left loadMarkdownStep markdownFiles ([], ∅) in
      let htmlFiles := List.filter isHtmlFile files in
      fold_left (loadHtmlStep stepIds) htmlFiles steps
  | None => []
  end.

(** [steps.sort((a, b) => a.id - b.id)]: the sort is stable, so it is the
    insertion of each element in front of the first one that is not
    smaller. *)
Fixpoint insertById (x : OnboardingStep) (l : list OnboardingStep)
  : list OnboardingStep :=
  match l with
  | [] => [x]
  | y :: l' => if id x <=? id y then x :: l else y :: insertById x l'
  end.

Definition sortById (l : list OnboardingStep) : list OnboardingStep :=
  fold_right insertById [] l.

Definition loadConfiguration (dir : StepsDir) : list OnboardingStep :=
  sortById (loadSteps dir).

Definition getAllSteps (dir : StepsDir) : list OnboardingStep :=
  loadConfiguration dir.

Definition getStep (dir : StepsDir) (stepId : Z) : option OnboardingStep :=
  find (fun step => id step =? stepId) (loadConfiguration dir).

(* ===================================================================== *)
(** * The tool handlers ([index.ts]) *)
(* ===================================================================== *)

Record CompleteStepArgs : Type := mkCompleteArgs {
  stepId : option Z;
  cs_email : option string;
  notes : option string;
  data : option value
}.

Record SawDeviceArgs : Type := mkSawArgs {
  saw_email : option string;
  deviceType : option string;
  managerEmail : option string
}.

(** What a handler answers.  The source renders each answer as a text; the
    constructors keep what the text is made of.
    - [AlreadyCompleted s]: Step s is already completed.
    - [OutOfOrder c s]: You must complete step c before moving to step s.
    - [Completed ..]: Step s completed, followed by the next step or by the
      congratulation when [getStep] finds none for the new current step. *)
Inductive Response : Type :=
| Welcome (profile : EmployeeProfile) (totalSteps : nat)
          (step : option OnboardingStep)
| AlreadyCompleted (stepToComplete : Z)
| OutOfOrder (current stepToComplete : Z)
| Completed (stepToComplete : Z) (completedStep : option OnboardingStep)
            (newCurrentStep : Z) (upcomingStep : option OnboardingStep)
            (totalSteps : nat)
| SawRequested (requestId : string) (deviceType managerEmail : option string)
| Registered (profile : EmployeeProfile)
| CurrentStep (profile : EmployeeProfile) (step : option OnboardingStep)
              (totalSteps : nat)
| Progress (profile : EmployeeProfile) (allSteps : list OnboardingStep)
| AllSteps (steps : list OnboardingStep).

(** [obj[key] = v]; assigning [undefined] leaves the key without a value. *)
Definition setField (key : string) (v : option value)
    (obj : gmap string value) : gmap string value :=
  match v with
  | Some x => <[key := x]> obj
  | None => delete key obj
  end.

Definition withProgress (p : EmployeeProfile) (current : Z) (completed : list Z)
    (sd : gmap Z (gmap string value)) : EmployeeProfile :=
  mkProfile (email p) (name p) (startDate p) (buddyEmail p) (department p)
            current completed sd (metadata p).

(** [args.stepId || profile.currentStep]: an omitted id and the id 0 both
    stand for the current step. *)
Definition resolveStep (args : CompleteStepArgs) (profile : EmployeeProfile) : Z :=
  match stepId args with
  | Some n => if n =? 0 then currentStep profile else n
  | None => currentStep profile
  end.

(** The object literal [{ completedAt, notes, data }] *)
Definition completionRecord (now : Z) (args : CompleteStepArgs)
  : gmap string value :=
  setField "data" (data args)
    (setField "notes" (VString <$> notes args)
       (setField "completedAt" (Some (VDate now)) ∅)).

(** [allSteps.find(step => step.id > stepToComplete)], then
    [nextStep ? nextStep.id : stepToComplete + 1] *)
Definition nextStepId (allSteps : list OnboardingStep) (stepToComplete : Z) : Z :=
  match find (fun step => stepToComplete <? id step) allSteps with
  | Some nextStep => id nextStep
  | None => stepToComplete + 1
  end.

Definition handleCompleteStep (env : Env) (dir : StepsDir) (now : Z)
    (args : CompleteStepArgs) : M Response :=
  let* profile := getEmployeeProfile env now (cs_email args) in
  let stepToComplete := resolveStep args profile in
  (* Validate step completion *)
  if existsb (Z.eqb stepToComplete) (completedSteps profile) then
    ret (AlreadyCompleted stepToComplete)
  else if negb (stepToComplete =? currentStep profile) then
    ret (OutOfOrder (currentStep profile) stepToComplete)
  else
    (* Mark step as completed *)
    let completed := completedSteps profile ++ [stepToComplete] in
    let sd := <[stepToComplete := completionRecord now args]> (stepData profile) in
    (* Advance to next step *)
    let allSteps := getAllSteps dir in
    let current := nextStepId allSteps stepToComplete in
    let* profile := saveEmployeeProfile now (withProgress profile current completed sd) in
    let completedStep := getStep dir stepToComplete in
    let upcomingStep := getStep dir (currentStep profile) in
    ret (Completed stepToComplete completedStep (currentStep profile)
                   upcomingStep (length allSteps)).

Definition handleRequestSAWDevice (env : Env) (now : Z) (args : SawDeviceArgs)
  : M Response :=
  let* profile := getEmployeeProfile env now (saw_email args) in
  let requestId := "SAW-" +:+ Js.ofInt now in
  let entry :=
    match stepData profile !! 2 with
    | Some e => e
    | None => ∅
    end in
  let entry := setField "sawRequestId" (Some (VString requestId)) entry in
  let entry := setField "deviceType" (VString <$> deviceType args) entry in
  let entry := setField "managerEmail" (VString <$> managerEmail args) entry in
  let entry := setField "requestedAt" (Some (VDate now)) entry in
  let sd := <[2 := entry]> (stepData profile) in
  let* _ := saveEmployeeProfile now
              (withProgress profile (currentStep profile) (completedSteps profile) sd) in
  ret (SawRequested requestId (deviceType args) (managerEmail args)).

Definition handleStartOnboarding (env : Env) (dir : StepsDir) (now : Z)
    (args : StartOnboardingArgs) : M Response :=
  let* profile :=
    match Js.truthy (sa_email args) with
    | Some e => createNewProfile now e (Some args)
    | None => getEmployeeProfile env now None
    end in
  let currentStep := getStep dir (currentStep profile) in
  let allSteps := getAllSteps dir in
  ret (Welcome profile (length allSteps) currentStep).

Definition handleRegisterEmployee (now : Z) (args : StartOnboardingArgs)
  : M Response :=
  match Js.truthy (sa_email args), Js.truthy (sa_name args) with
  | Some e, Some _ =>
      let* profile := createNewProfile now e (Some args) in
      ret (Registered profile)
  | _, _ => throw "Email and name are required for registration"
  end.

Definition handleGetCurrentStep (env : Env) (dir : StepsDir) (now : Z)
    (email : option string) : M Response :=
  let* profile := getEmployeeProfile env now email in
  let currentStep := getStep dir (currentStep profile) in
  ret (CurrentStep profile currentStep (length (getAllSteps dir))).

Definition handleGetProgress (env : Env) (dir : StepsDir) (now : Z)
    (email : option string) : M Response :=
  let* profile := getEmployeeProfile env now email in
  let allSteps := getAllSteps dir in
  ret (Progress profile allSteps).

Definition handleGetAllSteps (dir : StepsDir) : M Response :=
  ret (AllSteps (getAllSteps dir)).

(** ** The dispatcher *)

(** A tool call: the name the request carries, with its arguments read at the
    type the handler casts them to.  [request_saw_device] is the tool of the
    earlier revision of [index.ts]; the two other tools of that revision,
    [get_resources] and [get_employee_list], read without writing and are
    left out of the dispatcher ([handleGetEmployeeList] is defined on its
    own further down). *)
Inductive ToolCall : Type :=
| start_onboarding (args : StartOnboardingArgs)
| get_current_step (email : option string)
| complete_step (args : CompleteStepArgs)
| get_progress (email : option string)
| get_all_steps
| register_employee (args : StartOnboardingArgs)
| request_saw_device (args : SawDeviceArgs)
| unknown_tool (name : string).

(** What the dispatcher sends back: the handler's answer, the request to
    register (for the error REGISTRATION_REQUIRED), or an error text with
    [isError] set. *)
Inductive Reply : Type :=
| Content (answer : Response)
| RegistrationRequired
| IsError (message : string).

Definition callTool (env : Env) (dir : StepsDir) (now : Z) (call : ToolCall)
  : Store -> Reply * Store :=
  fun st =>
    let handler :=
      match call with
      | start_onboarding args => handleStartOnboarding env dir now args
      | get_current_step email => handleGetCurrentStep env dir now email
      | complete_step args => handleCompleteStep env dir now args
      | get_progress email => handleGetProgress env dir now email
      | get_all_steps => handleGetAllSteps dir
      | register_employee args => handleRegisterEmployee now args
      | request_saw_device args => handleRequestSAWDevice env now args
      | unknown_tool name => throw ("Unknown tool: " +:+ name)
      end in
    match handler st with
    | (Ok answer, st') => (Content answer, st')
    | (Throw message, st') =>
        if String.eqb message "REGISTRATION_REQUIRED"
        then (RegistrationRequired, st')
        else (IsError message, st')
    end.

(** The data directories the server can produce: the empty one, and what a
    tool call makes of one of them, whatever the environment, the steps
    directory and the time of the call. *)
Inductive Reachable : Store -> Prop :=
| reachable_empty : Reachable ∅
| reachable_call env dir now call st :
    Reachable st -> Reachable (snd (callTool env dir now call st)).

(* ===================================================================== *)
(** * The order of the steps *)
(* ===================================================================== *)

(** The order [loadConfiguration] sorts by. *)
Definition byId (a b : OnboardingStep) : Prop := id a <= id b.

(** The step after [s]: the smallest configured id above [s], or [s + 1]
    when there is none. *)
Definition IsNextStep (ids : list Z) (s next : Z) : Prop :=
  (next ∈ ids /\ s < next /\ forall i, i ∈ ids -> s < i -> next <= i)
  \/ ((forall i, i ∈ ids -> i <= s) /\ next = s + 1).

(** [nextStepId] on the list of ids alone. *)
Definition nextOf (ids : list Z) (s : Z) : Z :=
  match find (fun i => s <? i) ids with
  | Some i => i
  | None => s + 1
  end.

(* ===================================================================== *)
(** * The two loops of [loadSteps], as lists *)
(* ===================================================================== *)

(** What the first loop pushes for one entry. *)
Definition markdownStep (entry : string * option string) : list OnboardingStep :=
  match snd entry with
  | Some content =>
      match parseStepMarkdown content (fst entry) with
      | Some step => [step]
      | None => []
      end
  | None => []
  end.

(** What the second loop pushes for one entry, given the claimed ids. *)
Definition htmlStep (stepIds : gset Z) (entry : string * option string)
  : list OnboardingStep :=
  if decide (stepIdOf (fst entry) ∈ stepIds) then []
  else match snd entry with
       | Some content =>
           match parseStepHTML content (fst entry) with
           | Some step => [step]
           | None => []
           end
       | None => []
       end.

Definition markdownSteps (files : list (string * option string))
  : list OnboardingStep :=
  flat_map markdownStep files.

Definition htmlSteps (stepIds : gset Z) (files : list (string * option string))
  : list OnboardingStep :=
  flat_map (htmlStep stepIds) files.

(** The ids the file names of one format carry. *)
Definition fileIds (files : list (string * option string)) : list Z :=
  map (fun entry => stepIdOf (fst entry)) files.

(* ===================================================================== *)
(** * The display name, as the specification words it *)
(* ===================================================================== *)

(** Modelled from the spec: the data model says the name is derived from the
    local part, split on [.] or [_], each segment capitalized and joined
    with a space (a local part without separator is its own single segment,
    which is the fallback).  [splitEither] cuts at every [.] and at every
    [_]. *)
Fixpoint splitEither (s : string) : list string :=
  match s with
  | EmptyString => [EmptyString]
  | String c s' =>
      if Ascii.eqb c "." || Ascii.eqb c "_" then EmptyString :: splitEither s'
      else match splitEither s' with
           | piece :: rest => String c piece :: rest
           | [] => [String c EmptyString]
           end
  end.

Definition nameBySpec (email : string) : string :=
  Js.join " " (map capitalize (splitEither (localPart email))).

(* ===================================================================== *)
(** * Invariants of a profile *)
(* ===================================================================== *)

(** The invariants the data model of the specification lists for a profile:
    the current step is positive, [completedSteps] has no duplicates, and
    the current step is not one of them. *)
Definition ListedInvariants (p : EmployeeProfile) : Prop :=
  0 < currentStep p
  /\ NoDup (completedSteps p)
  /\ currentStep p ∉ completedSteps p.

(** What the handlers keep besides: every completed id lies below the
    current step. *)
Definition Progressed (p : EmployeeProfile) : Prop :=
  Forall (fun c => c < currentStep p) (completedSteps p).

Definition StoreProgressed (st : Store) : Prop :=
  map_Forall (fun _ p => Progressed p) st.

(** What holds of every profile the server produces: the current step is
    positive, the completed ids are in increasing order, and all of them lie
    below the current step. *)
Definition WellFormed (p : EmployeeProfile) : Prop :=
  0 < currentStep p
  /\ StronglySorted Z.lt (completedSteps p)
  /\ Progressed p.

(* ===================================================================== *)
(** * Example data *)
(* ===================================================================== *)

Definition newline : string := String (ascii_of_nat 10) EmptyString.

(** The head of a step document as the repository writes them: the title
    line, an empty line, the header line. *)
Definition stepDocument (title header : string) : string :=
  "# " +:+ title +:+ newline +:+ newline +:+ header +:+ newline.

Definition projectResourcesDoc : string :=
  stepDocument "Project Resources and Knowledge Base"
    "**Step 1 of 3** | **Optional Step** | **Estimated Time: 6-8 hours**".

Definition firstPrDoc : string :=
  stepDocument "Your First Pull Request"
    "**Step 2 of 3** | **Required Step** | **Estimated Time: 4-6 hours**".

Definition sawDeviceDoc : string :=
  stepDocument "SAW Device Setup & Security Access"
    "**Step 3 of 3** | **Required Step** | **Estimated Time: 45 minutes**".

(** The three step documents of [config/steps]. *)
Definition repositorySteps : StepsDir :=
  Some [("step-1-project-resources.md", Some projectResourcesDoc);
        ("step-2-first-pr.md", Some firstPrDoc);
        ("step-3-saw-device.md", Some sawDeviceDoc)].

Definition noEnv : Env := mkEnv None None None None None.

Definition jane : string := "jane.doe@company.com".

(** The data directory after [jane] registered at instant 1000. *)
Definition janeRegistered : Store :=
  snd (createNewProfile 1000 jane None ∅).

Definition completeArgs (who : string) (s : Z) : CompleteStepArgs :=
  mkCompleteArgs (Some s) (Some who) None None.

Definition janeProfile : EmployeeProfile :=
  {| email := jane; name := "Jane Doe"; startDate := 1000;
     buddyEmail := None; department := None;
     currentStep := 1; completedSteps := []; stepData := ∅;
     metadata := {| createdAt := 1000; lastUpdated := 1000; version := "1.0" |} |}.

(** A profile file that meets the listed invariants although step 2 is
    marked completed while step 1 is the current one. *)
Definition skewedProfile : EmployeeProfile :=
  withProgress janeProfile 1 [2] ∅.

Definition skewedStore : Store := {[ profileFile jane := skewedProfile ]}.

Definition sawArgs : SawDeviceArgs :=
  mkSawArgs (Some jane) (Some "SAW-Laptop") (Some "manager@company.com").

(** [jane] after she completed step 1 at instant 2000 ... *)
Definition janeOnStepTwo : Store :=
  snd (handleCompleteStep noEnv repositorySteps 2000 (completeArgs jane 1)
         janeRegistered).

(** ... and after she then asked for a device at instant 3000. *)
Definition janeAwaitingDevice : Store :=
  snd (handleRequestSAWDevice noEnv 3000 sawArgs janeOnStepTwo).

(** A second [start_onboarding] for the same e-mail, with overrides. *)
Definition restartArgs : StartOnboardingArgs :=
  mkStartArgs (Some jane) (Some "J. Doe") (Some "buddy@company.com")
              (Some "Platform").

(** An e-mail address with capital letters, and its registration. *)
Definition janeCapitals : string := "Jane.Doe@Company.com".

Definition capitalsArgs : StartOnboardingArgs :=
  mkStartArgs (Some janeCapitals) (Some "Jane Q. Doe") None None.

(** A step document whose header line carries the label Mandatory. *)
Definition mandatoryDoc : string :=
  stepDocument "Security Training"
    "**Step 2 of 3** | **Mandatory** | **Estimated Time: 1 hour**".

(** A step document without header line. *)
Definition plainDoc : string :=
  "# Welcome" +:+ newline +:+ newline +:+ "Read the handbook." +:+ newline.

(** Two Markdown documents whose file names carry the same id. *)
Definition twoDraftsOfStepOne : StepsDir :=
  Some [("step-1-accounts.md", Some plainDoc);
        ("step-1-accounts-draft.md", Some plainDoc)].

(** A Markdown and an HTML document for step 2, and an HTML one for step 1. *)
Definition mixedFormats : StepsDir :=
  Some [("step-2-x.html", Some "<h1>Old</h1><p>old text</p>");
        ("step-2-x.md", Some firstPrDoc);
        ("step-1-y.html", Some "<h1>Accounts</h1>")].

(** A steps directory with a document whose file name carries no step
    number, which therefore gets the id 0. *)
Definition stepsWithOverview : StepsDir :=
  Some [("overview.md", Some plainDoc);
        ("step-1-project-resources.md", Some projectResourcesDoc);
        ("step-2-first-pr.md", Some firstPrDoc)].

(* ===================================================================== *)
(** * What a tool call makes of the data directory *)
(* ===================================================================== *)

(** A profile as [createNewProfile] makes it at the instant [now]. *)
Definition Fresh (now : Z) (p : EmployeeProfile) : Prop :=
  currentStep p = 1 /\ completedSteps p = [] /\ stepData p = ∅
  /\ startDate p = now
  /\ metadata p = {| createdAt := now; lastUpdated := now; version := "1.0" |}.

(** The fields no handler changes once the profile exists. *)
Definition SameEmployee (p p' : EmployeeProfile) : Prop :=
  email p' = email p /\ name p' = name p /\ startDate p' = startDate p
  /\ buddyEmail p' = buddyEmail p /\ department p' = department p
  /\ createdAt (metadata p') = createdAt (metadata p)
  /\ version (metadata p') = version (metadata p).

(** The current step was completed: it is appended to [completedSteps], the
    current step moves up, and only the record of the completed step
    changes. *)
Definition Advanced (p p' : EmployeeProfile) : Prop :=
  completedSteps p' = completedSteps p ++ [currentStep p]
  /\ currentStep p < currentStep p'
  /\ forall k, k <> currentStep p -> stepData p' !! k = stepData p !! k.

(** Only the record of step 2 changed. *)
Definition Annotated (p p' : EmployeeProfile) : Prop :=
  completedSteps p' = completedSteps p /\ currentStep p' = currentStep p
  /\ forall k, k <> 2 -> stepData p' !! k = stepData p !! k.

(** What one tool call at the instant [now] makes of a loaded profile. *)
Definition Evolved (now : Z) (p p' : EmployeeProfile) : Prop :=
  p' = p
  \/ (SameEmployee p p' /\ lastUpdated (metadata p') = now
      /\ (Advanced p p' \/ Annotated p p')).

(** What one tool call makes of the data directory: nothing, or one write
    of a profile under its own address; the profile written comes from one
    that was stored or from a new one. *)
Definition WroteAtMostOne (now : Z) (st st' : Store) : Prop :=
  st' = st
  \/ exists q p',
       st' = <[profileFile (email p') := p']> st
       /\ ((exists who, st !! profileFile who = Some q) \/ Fresh now q)
       /\ Evolved now q p'
       /\ lastUpdated (metadata p') = now.

(** Every file holds the profile of the address that names it. *)
Definition FiledUnderAddress (st : Store) : Prop :=
  forall file p, st !! file = Some p -> file = profileFile (email p).


(* ===================================================================== *)
(** * The identity of the caller *)
(* ===================================================================== *)

(** The profile files of the data directory, as the third detection method
    of [getCurrentEmployeeEmail] lists them. *)
Definition jsonFiles (st : Store) : list string :=
  filter (fun f => isProfileFile f = true) (map fst (map_to_list st)).


(** The environment names no employee: none of the three mail variables is
    set, and the Windows user name or domain is missing. *)
Definition NoIdentityHint (env : Env) : Prop :=
  Js.truthy (USER_EMAIL env) = None
  /\ Js.truthy (USERPRINCIPALNAME env) = None
  /\ Js.truthy (OFFICE_365_EMAIL env) = None
  /\ (Js.truthy (USERNAME env) = None \/ Js.truthy (USERDOMAIN env) = None).

(** The patterns that cannot tell a letter from its lower-case form. *)
Fixpoint LowerStable (r : Regex.regex) : Prop :=
  match r with
  | Regex.Lit p => Js.toLowerCase p = p
  | Regex.Chr c | Regex.Star c | Regex.Plus c | Regex.PlusLazy c =>
      forall a, c (Js.lowerChar a) = c a
  | Regex.Cat r1 r2 | Regex.Alt r1 r2 => LowerStable r1 /\ LowerStable r2
  | Regex.Group r1 => LowerStable r1
  end.

(* ===================================================================== *)
(** * The texts cut out of a step document *)
(* ===================================================================== *)

(** [parseStepMarkdown] and [parseStepHTML] compute a title, a description,
    the resource links and the completion criteria of a step besides the
    fields of [OnboardingStep]; what follows are the functions of
    [config-parser.ts] that compute them for a Markdown document, and the
    two link extractors.  The completion criteria of an HTML document go
    through [stripHTML], which is not modelled. *)

(** ** Patterns with the [g] flag *)

(** The continuation that ends a match and keeps what is left of the input,
    which is where [lastIndex] then points. *)
Definition acceptRest : Regex.cont := fun rest caps => Some (rest :: caps).

(** [r.exec(s)] for a pattern with the [g] flag, [s] being the input from
    [lastIndex] on: the captures of the leftmost match and the input that
    follows the match. *)
Fixpoint execGlobal (r : Regex.regex) (s : string)
  : option (Regex.captures * string) :=
  match Regex.run r s [] acceptRest with
  | Some (rest :: caps) => Some (caps, rest)
  | Some [] => None
  | None =>
      match s with
      | EmptyString => None
      | String _ s' => execGlobal r s'
      end
  end.

(** [while ((match = r.exec(s)) !== null) { ... }]: the captures of the
    successive matches.  Every pass of the loop is one unit of [fuel]. *)
Fixpoint matchLoop (fuel : nat) (r : Regex.regex) (s : string)
  : list Regex.captures :=
  match fuel with
  | O => []
  | S fuel' =>
      match execGlobal r s with
      | Some (caps, rest) => caps :: matchLoop fuel' r rest
      | None => []
      end
  end.

(** [match[n]] for [n >= 1] *)
Definition group (n : nat) (caps : Regex.captures) : string :=
  nth (n - 1) caps EmptyString.

(** ** [extractMarkdownLinks] *)

Definition notCloseBracket (c : ascii) : bool := negb (Ascii.eqb c "]").
Definition notCloseParen (c : ascii) : bool := negb (Ascii.eqb c ")").

(** An opening bracket, one or more characters other than the closing
    bracket (captured), the closing bracket, an opening parenthesis, one or
    more characters other than the closing parenthesis (captured), the
    closing parenthesis. *)
Definition markdownLinkRegex : Regex.regex :=
  Regex.seq [Regex.Lit "["; Regex.Group (Regex.Plus notCloseBracket);
             Regex.Lit "]("; Regex.Group (Regex.Plus notCloseParen);
             Regex.Lit ")"].

(** The template literal of both link extractors *)
Definition renderLink (text url : string) : string :=
  "[" +:+ text +:+ "](" +:+ url +:+ ")".

Definition extractMarkdownLinks (markdown : string) : list string :=
  map (fun m => let text := group 1 m in
                let url := group 2 m in
                renderLink text url)
      (matchLoop (String.length markdown) markdownLinkRegex markdown).

(** The same in words.  A link is a bracketed text followed by a
    parenthesized address, the text without closing bracket, the address
    without closing parenthesis, neither of them empty. *)
Definition LinkParts (text url : string) : Prop :=
  text <> EmptyString /\ Js.allChars notCloseBracket text = true
  /\ url <> EmptyString /\ Js.allChars notCloseParen url = true.

Definition LinkAt (s before text url after : string) : Prop :=
  s = before +:+ renderLink text url +:+ after /\ LinkParts text url.

(** The links of a text, read from left to right: the leftmost link, then
    the links of what follows it. *)
Inductive LinksOf : string -> list string -> Prop :=
| links_none s :
    (forall before text url after, ~ LinkAt s before text url after) ->
    LinksOf s []
| links_next s before text url after rest :
    LinkAt s before text url after ->
    (forall b t u a, LinkAt s b t u a -> (String.length before <= String.length b)%nat) ->
    LinksOf after rest ->
    LinksOf s (renderLink text url :: rest).

(** What the loop finds, whatever the pattern: the leftmost match, then the
    matches of what follows it. *)
Inductive Scanned (r : Regex.regex) : string -> list Regex.captures -> Prop :=
| scanned_end s :
    (forall b f a c, s = b +:+ f +:+ a -> ~ Regex.Matches r f c) ->
    Scanned r s []
| scanned_match before found rest caps ms :
    Regex.Matches r found caps ->
    (forall b f a c, before +:+ found +:+ rest = b +:+ f +:+ a ->
                     Regex.Matches r f c -> (String.length before <= String.length b)%nat) ->
    Scanned r rest ms ->
    Scanned r (before +:+ found +:+ rest) (caps :: ms).

(** ** [extractResourceLinks] *)

(** A letter of a pattern with the [i] flag: the character or its capital. *)
Definition letter (l : ascii) (c : ascii) : bool := Ascii.eqb (Js.lowerChar c) l.

Definition notGreater (c : ascii) : bool := negb (Ascii.eqb c ">").
Definition notLess (c : ascii) : bool := negb (Ascii.eqb c "<").

(** The anchor pattern, letters in either case: an opening angle bracket and
    an a, one or more characters other than the closing angle bracket, href
    and the equals sign, a quoted run of one or more characters other than
    the quote (captured), any characters other than the closing angle
    bracket, the closing angle bracket, one or more characters other than
    the opening angle bracket (captured), and the closing tag of an a. *)
Definition htmlLinkRegex : Regex.regex :=
  Regex.seq [Regex.Lit "<"; Regex.Chr (letter "a"); Regex.Plus notGreater;
             Regex.Chr (letter "h"); Regex.Chr (letter "r");
             Regex.Chr (letter "e"); Regex.Chr (letter "f");
             Regex.Lit ("=" +:+ dquote); Regex.Group (Regex.Plus notQuote);
             Regex.Lit dquote; Regex.Star notGreater; Regex.Lit ">";
             Regex.Group (Regex.Plus notLess);
             Regex.Lit "</"; Regex.Chr (letter "a"); Regex.Lit ">"].

Definition extractResourceLinks (html : string) : list string :=
  map (fun m => let url := group 1 m in
                let text := group 2 m in
                renderLink text url)
      (matchLoop (String.length html) htmlLinkRegex html).

(** An anchor, in words: the opening tag of an a (in either case) with an
    href attribute (in either case) that is not the first thing after the
    a, its quoted non-empty value [url], the rest of the tag, a non-empty
    text without markup, and the closing tag. *)
Definition Anchor (found text url : string) : Prop :=
  exists open attrs href more close,
    found = open +:+ attrs +:+ href +:+ "=" +:+ dquote +:+ url +:+ dquote
                 +:+ more +:+ ">" +:+ text +:+ close
    /\ Js.toLowerCase open = "<a" /\ Js.toLowerCase href = "href"
    /\ Js.toLowerCase close = "</a>"
    /\ attrs <> EmptyString /\ Js.allChars notGreater attrs = true
    /\ url <> EmptyString /\ Js.allChars notQuote url = true
    /\ Js.allChars notGreater more = true
    /\ text <> EmptyString /\ Js.allChars notLess text = true.

(** The anchors of a text, read from left to right, as links. *)
Inductive AnchorsOf : string -> list string -> Prop :=
| anchors_none s :
    (forall before found text url after,
        s = before +:+ found +:+ after -> ~ Anchor found text url) ->
    AnchorsOf s []
| anchors_next before found text url after rest :
    Anchor found text url ->
    (forall b f t u a, before +:+ found +:+ after = b +:+ f +:+ a -> Anchor f t u ->
                       (String.length before <= String.length b)%nat) ->
    AnchorsOf after rest ->
    AnchorsOf (before +:+ found +:+ after) (renderLink text url :: rest).

(** ** The texts cut out of a Markdown document *)

(** [s.trim()]: the white space at both ends goes. *)
Fixpoint trimStart (s : string) : string :=
  match s with
  | String c s' => if Js.isSpace c then trimStart s' else s
  | EmptyString => EmptyString
  end.

Fixpoint trimEnd (s : string) : string :=
  match s with
  | String c s' =>
      match trimEnd s' with
      | EmptyString => if Js.isSpace c then EmptyString else String c EmptyString
      | t => String c t
      end
  | EmptyString => EmptyString
  end.

Definition trim (s : string) : string := trimEnd (trimStart s).

(** [$] under the [m] flag, as the end of a pattern: the end of the input or
    a line terminator next. *)
Definition atLineEnd : Regex.cont :=
  fun s caps =>
    match s with
    | EmptyString => Some caps
    | String a _ => if Js.isDot a then None else Some caps
    end.

(** [s.match(r)] for a pattern [^r$] under the [m] flag: [r] is tried at the
    start of the input and after every line terminator, leftmost first.
    [lineStart] says whether the start of [s] is such a place. *)
Fixpoint execLines (r : Regex.regex) (lineStart : bool) (s : string)
  : option Regex.captures :=
  match (if lineStart then Regex.run r s [] atLineEnd else None) with
  | Some caps => Some caps
  | None =>
      match s with
      | EmptyString => None
      | String a s' => execLines r (negb (Js.isDot a)) s'
      end
  end.

(** The heading pattern between [^] and [$]: a hash, white space, and one or
    more characters of one line (captured). *)
Definition titleRegex : Regex.regex :=
  Regex.seq [Regex.Lit "#"; Regex.Plus Js.isSpace; Regex.Group (Regex.Plus Js.isDot)].

(** The [title] of [parseStepMarkdown] *)
Definition markdownTitle (content : string) (id : Z) : string :=
  match execLines titleRegex true content with
  | Some (title :: _) => trim title
  | _ => "Step " +:+ Js.ofInt id
  end.

(** A place where a line starts, given what stands before it; a place where
    a line ends, given what follows. *)
Definition LineStart (before : string) : Prop :=
  before = EmptyString
  \/ exists b c, before = b +:+ String c EmptyString /\ Js.isDot c = false.

Definition LineEnd (after : string) : Prop :=
  after = EmptyString \/ exists c a, after = String c a /\ Js.isDot c = false.

(** A heading: at the start of a line a hash, white space, and a text that
    runs to the end of its line. *)
Definition HeadingAt (content before gap text after : string) : Prop :=
  content = before +:+ "#" +:+ gap +:+ text +:+ after
  /\ LineStart before
  /\ gap <> EmptyString /\ Js.allChars Js.isSpace gap = true
  /\ text <> EmptyString /\ Js.allChars Js.isDot text = true
  /\ LineEnd after.

(** [.] under the [s] flag: any character *)
Definition anyChar (c : ascii) : bool := true.

Definition lineFeed : ascii := ascii_of_nat 10.

Definition notLineFeed (c : ascii) : bool := negb (Ascii.eqb c lineFeed).

(** The look-ahead that ends the description pattern: a line feed or two and
    two hashes next, or the end of the input. *)
Definition beforeSection : Regex.cont :=
  fun s caps =>
    if Js.startsWith (newline +:+ "##") s
       || Js.startsWith (newline +:+ newline +:+ "##") s
       || String.eqb s EmptyString
    then Some caps else None.

(** The description pattern between [^] and the look-ahead: a hash, white
    space, one or more characters (as few as possible), two line feeds, and
    one or more characters (as few as possible, captured). *)
Definition descriptionRegex : Regex.regex :=
  Regex.seq [Regex.Lit "#"; Regex.Plus Js.isSpace; Regex.PlusLazy anyChar;
             Regex.Lit (newline +:+ newline); Regex.Group (Regex.PlusLazy anyChar)].

(** The [description] of [parseStepMarkdown]; the pattern has no [m] flag, so
    it can match at the start of the document only. *)
Definition markdownDescription (content : string) : string :=
  match Regex.run descriptionRegex content [] beforeSection with
  | Some (text :: _) => hd EmptyString (Js.split lineFeed (trim text))
  | _ => EmptyString
  end.

(** The look-ahead that ends the criteria pattern: a line feed and two
    hashes next, or the end of the input. *)
Definition beforeHeading : Regex.cont :=
  fun s caps =>
    if Js.startsWith (newline +:+ "##") s || String.eqb s EmptyString
    then Some caps else None.

(** [s.match(r)] for a pattern [r] followed by the look-ahead [k]: the
    leftmost place where both succeed. *)
Fixpoint execBefore (r : Regex.regex) (k : Regex.cont) (s : string)
  : option Regex.captures :=
  match Regex.run r s [] k with
  | Some caps => Some caps
  | None =>
      match s with
      | EmptyString => None
      | String _ s' => execBefore r k s'
      end
  end.

Definition criteriaMarker : string := "This step is complete when:".

(** The criteria pattern before its look-ahead: two hashes, white space, the
    marker, and any characters, as few as possible (captured). *)
Definition criteriaRegex : Regex.regex :=
  Regex.seq [Regex.Lit "##"; Regex.Plus Js.isSpace; Regex.Lit criteriaMarker;
             Regex.Group (Regex.Alt (Regex.Lit EmptyString)
                                    (Regex.PlusLazy anyChar))].

(** The [completionCriteria] of [parseStepMarkdown]; [None] is [undefined]. *)
Definition markdownCompletionCriteria (content : string) : option string :=
  match execBefore criteriaRegex beforeHeading content with
  | Some (criteria :: _) => Some (trim criteria)
  | _ => None
  end.

(** Where a section ends: at the end of the document, or where a line feed
    and two hashes come next. *)
Definition SectionEnd (s : string) : Prop :=
  s = EmptyString \/ Js.startsWith (newline +:+ "##") s = true.

(** The heading of the criteria section: two hashes, white space, and the
    marker. *)
Definition MarkerAt (content before gap after : string) : Prop :=
  content = before +:+ "##" +:+ gap +:+ criteriaMarker +:+ after
  /\ gap <> EmptyString /\ Js.allChars Js.isSpace gap = true.

(** The criteria section: what follows the first such heading, up to the
    first place where a section ends. *)
Definition CriteriaAt (content before gap text after : string) : Prop :=
  MarkerAt content before gap (text +:+ after)
  /\ (forall b g a, MarkerAt content b g a ->
                    (String.length before <= String.length b)%nat)
  /\ SectionEnd after
  /\ (forall x y, text = x +:+ y -> y <> EmptyString -> ~ SectionEnd (y +:+ after)).

(* ===================================================================== *)
(** * All profiles *)
(* ===================================================================== *)

(** ** All profiles ([getAllProfiles], [updateProgressIndex]) *)

(** The loop of [getAllProfiles] and of [updateProgressIndex]: every profile
    file of the listing is read and pushed; a file that cannot be read is
    skipped. *)
Fixpoint loadProfiles (files : list string) (profiles : list EmployeeProfile)
  : M (list EmployeeProfile) :=
  match files with
  | [] => ret profiles
  | file :: files' =>
      if isProfileFile file then
        let* data := readProfile file in
        match data with
        | Some profile => loadProfiles files' (profiles ++ [profile])
        | None => loadProfiles files' profiles
        end
      else loadProfiles files' profiles
  end.

(** [list.sort((a, b) => time(b) - time(a))]: latest first; the sort is
    stable, so it is the insertion of each element in front of the first one
    that is not later. *)
Fixpoint insertLatest {A : Type} (time : A -> Z) (x : A) (l : list A) : list A :=
  match l with
  | [] => [x]
  | y :: l' => if time y <=? time x then x :: l else y :: insertLatest time x l'
  end.

Definition sortLatest {A : Type} (time : A -> Z) (l : list A) : list A :=
  fold_right (insertLatest time) [] l.

Definition sortByLastUpdated (l : list EmployeeProfile) : list EmployeeProfile :=
  sortLatest (fun profile => lastUpdated (metadata profile)) l.

Definition getAllProfiles : M (list EmployeeProfile) :=
  let* files := readdir in
  let* profiles := loadProfiles files [] in
  ret (sortByLastUpdated profiles).



(** What [updateProgressIndex] writes into [progress-index.json] after a
    save at the instant [now]: the number of profiles and a summary of each,
    latest first. *)
Record IndexEntry : Type := mkIndexEntry {
  entryEmail : string;
  entryCurrentStep : Z;
  entryLastUpdated : Z
}.

Record ProgressIndex : Type := mkProgressIndex {
  updatedAt : Z;
  totalEmployees : nat;
  indexProfiles : list IndexEntry
}.

Definition indexEntry (profile : EmployeeProfile) : IndexEntry :=
  {| entryEmail := email profile;
     entryCurrentStep := currentStep profile;
     entryLastUpdated := lastUpdated (metadata profile) |}.

Definition updateProgressIndex (now : Z) : M ProgressIndex :=
  let* files := readdir in
  let* loaded := loadProfiles files [] in
  let profiles := map indexEntry loaded in
  ret {| updatedAt := now;
         totalEmployees := length profiles;
         indexProfiles := sortLatest entryLastUpdated profiles |}.


(** The order of [getAllProfiles]. *)
Definition latestFirst (a b : EmployeeProfile) : Prop :=
  lastUpdated (metadata b) <= lastUpdated (metadata a).

(** The profiles the profile files of the data directory hold. *)
Definition storedProfiles (st : Store) : list EmployeeProfile :=
  map snd (List.filter (fun entry => isProfileFile (fst entry)) (map_to_list st)).

(* ===================================================================== *)
(** * File names and attributes, in words *)
(* ===================================================================== *)

(** ** The attributes of an HTML step document *)

(** The attribute [data-required] with the value [v], as it is written. *)
Definition requiredAttribute (v : string) : string :=
  "data-required=" +:+ dquote +:+ v +:+ dquote.

Definition stepTypeAttribute (v : string) : string :=
  "data-step-type=" +:+ dquote +:+ v +:+ dquote.

(** The first place in [content] where one of the texts [attribute v]
    stands, [v] being one of the values [ok] allows. *)
Definition FirstAttribute (attribute : string -> string) (ok : string -> Prop)
    (content before v after : string) : Prop :=
  content = before +:+ attribute v +:+ after /\ ok v
  /\ forall b w a, content = b +:+ attribute w +:+ a -> ok w ->
                   (String.length before <= String.length b)%nat.

Definition BooleanText (v : string) : Prop := v = "true" \/ v = "false".

Definition QuotedText (v : string) : Prop :=
  v <> EmptyString /\ Js.allChars notQuote v = true.

(** A step number in a file name: [step-] followed by a run of digits that
    goes on as long as digits come. *)
Definition StepNumberAt (filename before digits after : string) : Prop :=
  filename = before +:+ "step-" +:+ digits +:+ after
  /\ digits <> EmptyString /\ Js.allChars Js.isDigit digits = true
  /\ (after = EmptyString \/ exists a t, after = String a t /\ Js.isDigit a = false).

(* ===================================================================== *)
(** * An employee working through the steps *)
(* ===================================================================== *)

(** An employee who completes the current step again and again:
    [complete_step] for the address [who] without step id, once at each of
    the instants [nows]; the answers in the order of the calls, and the data
    directory after the last one. *)
Fixpoint completeInTurn (env : Env) (dir : StepsDir) (who : string)
    (nows : list Z) (st : Store) : list (result Response) * Store :=
  match nows with
  | [] => ([], st)
  | now :: later =>
      let '(answer, st1) :=
        handleCompleteStep env dir now (mkCompleteArgs None (Some who) None None) st in
      let '(answers, st2) := completeInTurn env dir who later st1 in
      (answer :: answers, st2)
  end.

(** Answers that complete one step after the other up to the last one: each
    is a [Completed], and the last of them alone shows no upcoming step. *)
Inductive Finishing : list Response -> Prop :=
| finishing_last s cs new total :
    Finishing [Completed s cs new None total]
| finishing_next s cs new step total rest :
    Finishing rest ->
    Finishing (Completed s cs new (Some step) total :: rest).



(* ===================================================================== *)
(** * The texts cut out of an HTML step document *)
(* ===================================================================== *)

(** The two patterns of [parseStepHTML] that cut a text out of an element. *)

Definition oneOrTwo (c : ascii) : bool := Ascii.eqb c "1" || Ascii.eqb c "2".

(** The heading pattern, letters in either case: the opening tag of an h1 or
    h2 up to its closing angle bracket, one or more characters other than
    the opening angle bracket (captured), and the closing tag of an h1 or
    h2. *)
Definition htmlTitleRegex : Regex.regex :=
  Regex.seq [Regex.Lit "<"; Regex.Chr (letter "h"); Regex.Chr oneOrTwo;
             Regex.Star notGreater; Regex.Lit ">";
             Regex.Group (Regex.Plus notLess);
             Regex.Lit "</"; Regex.Chr (letter "h"); Regex.Chr oneOrTwo;
             Regex.Lit ">"].

(** The [title] of [parseStepHTML] *)
Definition htmlTitle (content : string) (id : Z) : string :=
  match Regex.exec htmlTitleRegex content with
  | Some (title :: _) => trim title
  | _ => "Step " +:+ Js.ofInt id
  end.

(** The paragraph pattern: the same with the tags of a p. *)
Definition htmlDescriptionRegex : Regex.regex :=
  Regex.seq [Regex.Lit "<"; Regex.Chr (letter "p");
             Regex.Star notGreater; Regex.Lit ">";
             Regex.Group (Regex.Plus notLess);
             Regex.Lit "</"; Regex.Chr (letter "p"); Regex.Lit ">"].

(** The [description] of [parseStepHTML] *)
Definition htmlDescription (content : string) : string :=
  match Regex.exec htmlDescriptionRegex content with
  | Some (description :: _) => trim description
  | _ => EmptyString
  end.

(** An element without markup inside, in words: an opening tag that begins
    as [isOpen] says, runs to the first closing angle bracket and is
    followed by a non-empty text without opening angle bracket and by a
    closing tag as [isClose] says. *)
Definition ElementText (isOpen isClose : string -> Prop) (found text : string)
  : Prop :=
  exists open attrs close,
    found = open +:+ attrs +:+ ">" +:+ text +:+ close
    /\ isOpen open /\ isClose close
    /\ Js.allChars notGreater attrs = true
    /\ text <> EmptyString /\ Js.allChars notLess text = true.

Definition HeadingOpen (open : string) : Prop :=
  Js.toLowerCase open = "<h1" \/ Js.toLowerCase open = "<h2".

Definition HeadingClose (close : string) : Prop :=
  Js.toLowerCase close = "</h1>" \/ Js.toLowerCase close = "</h2>".

Definition ParagraphOpen (open : string) : Prop := Js.toLowerCase open = "<p".

Definition ParagraphClose (close : string) : Prop := Js.toLowerCase close = "</p>".

(** The leftmost element of that kind in [content]. *)
Definition FirstElement (isOpen isClose : string -> Prop)
    (content before found text after : string) : Prop :=
  content = before +:+ found +:+ after
  /\ ElementText isOpen isClose found text
  /\ forall b f t a, content = b +:+ f +:+ a -> ElementText isOpen isClose f t ->
                     (String.length before <= String.length b)%nat.

(* ===================================================================== *)
(** * Properties *)
(* ===================================================================== *)

(** Membership in an explicit list of integers. *)
Ltac solve_mem := rewrite ?list_elem_of_In; cbn; lia.

(** ** The matcher finds what the patterns mean *)

Lemma append_cons x (a b : string) : String x a +:+ b = String x (a +:+ b).
Proof. reflexivity. Qed.

Lemma append_nil_l (b : string) : "" +:+ b = b.
Proof. reflexivity. Qed.

Lemma append_assoc (a b c : string) : (a +:+ b) +:+ c = a +:+ (b +:+ c).
Proof.
  induction a as [| x a IH]; [reflexivity |]. rewrite !append_cons. now f_equal.
Qed.

Lemma append_nil_r (a : string) : a +:+ "" = a.
Proof.
  induction a as [| x a IH]; [reflexivity |]. rewrite append_cons. now f_equal.
Qed.

Lemma length_append (a b : string) :
  String.length (a +:+ b) = (String.length a + String.length b)%nat.
Proof.
  induction a as [| x a IH]; [reflexivity |]. rewrite append_cons. cbn. now f_equal.
Qed.

Lemma startsWith_append p s : Js.startsWith p (p +:+ s) = true.
Proof.
  induction p as [| x p IH]; [reflexivity |]. rewrite append_cons. cbn.
  now rewrite Ascii.eqb_refl.
Qed.

Lemma startsWith_split p s :
  Js.startsWith p s = true -> s = p +:+ Js.drop (String.length p) s.
Proof.
  revert s. induction p as [| x p IH]; intros s; [reflexivity |].
  destruct s as [| y s]; [discriminate |]. cbn.
  intros H. apply andb_prop in H as [Hxy Hp]. apply Ascii.eqb_eq in Hxy as ->.
  rewrite append_cons. f_equal. now apply IH.
Qed.

Lemma drop_append p s : Js.drop (String.length p) (p +:+ s) = s.
Proof.
  induction p as [| x p IH]; [now destruct s |]. rewrite append_cons. exact IH.
Qed.

Lemma take_append p s :
  Js.take (String.length (p +:+ s) - String.length s) (p +:+ s) = p.
Proof.
  rewrite length_append. replace (_ + _ - _)%nat with (String.length p) by lia.
  induction p as [| x p IH]; [now destruct s |]. rewrite append_cons. cbn. now f_equal.
Qed.

Lemma greedy_sound c s caps k res :
  Regex.greedy c s caps k = Some res ->
  exists s1 s2, s = s1 +:+ s2 /\ Js.allChars c s1 = true /\ k s2 caps = Some res.
Proof.
  revert res. induction s as [| a s IH]; intros res; cbn.
  - intros H. exists EmptyString, EmptyString. auto.
  - destruct (c a) eqn:Hc.
    + destruct (Regex.greedy c s caps k) as [r |] eqn:Hg.
      * intros [= <-]. destruct (IH _ eq_refl) as (s1 & s2 & -> & Hall & Hk).
        exists (String a s1), s2. cbn. rewrite Hc. auto.
      * intros H. exists EmptyString, (String a s). auto.
    + intros H. exists EmptyString, (String a s). auto.
Qed.

Lemma lazy_sound c s caps k res :
  Regex.lazy c s caps k = Some res ->
  exists s1 s2, s = s1 +:+ s2 /\ Js.allChars c s1 = true /\ k s2 caps = Some res.
Proof.
  revert res. induction s as [| a s IH]; intros res; cbn.
  - destruct (k "" caps) eqn:Hk; [| discriminate].
    intros [= <-]. exists EmptyString, EmptyString. auto.
  - destruct (k (String a s) caps) eqn:Hk.
    + intros [= <-]. exists EmptyString, (String a s). auto.
    + destruct (c a) eqn:Hc; [| discriminate]. intros H.
      destruct (IH _ H) as (s1 & s2 & -> & Hall & Hk').
      exists (String a s1), s2. cbn. rewrite Hc. auto.
Qed.

Lemma run_sound r : forall s caps k res,
  Regex.run r s caps k = Some res ->
  exists s1 s2 cs, s = s1 +:+ s2 /\ Regex.Matches r s1 cs /\ k s2 (caps ++ cs) = Some res.
Proof.
  induction r as [p | c | c | c | c | r1 IH1 r2 IH2 | r1 IH1 r2 IH2 | r IH];
    intros s caps k res; cbn [Regex.run].
  - destruct (Js.startsWith p s) eqn:Hp; [| discriminate]. intros Hk.
    exists p, (Js.drop (String.length p) s), []. rewrite app_nil_r.
    split; [now apply startsWith_split |]. split; [constructor | exact Hk].
  - destruct s as [| a s]; [discriminate |]. destruct (c a) eqn:Hc; [| discriminate].
    intros Hk. exists (String a EmptyString), s, []. rewrite app_nil_r.
    split; [reflexivity |]. split; [now constructor | exact Hk].
  - intros H. apply greedy_sound in H as (s1 & s2 & -> & Hall & Hk).
    exists s1, s2, []. rewrite app_nil_r. split; [reflexivity |].
    split; [now constructor | exact Hk].
  - destruct s as [| a s]; [discriminate |]. destruct (c a) eqn:Hc; [| discriminate].
    intros H. apply greedy_sound in H as (s1 & s2 & -> & Hall & Hk).
    exists (String a s1), s2, []. rewrite app_nil_r. split; [reflexivity |].
    split; [now constructor | exact Hk].
  - destruct s as [| a s]; [discriminate |]. destruct (c a) eqn:Hc; [| discriminate].
    intros H. apply lazy_sound in H as (s1 & s2 & -> & Hall & Hk).
    exists (String a s1), s2, []. rewrite app_nil_r. split; [reflexivity |].
    split; [now constructor | exact Hk].
  - intros H. apply IH1 in H as (s1 & s' & c1 & -> & Hm1 & H).
    apply IH2 in H as (s2 & s3 & c2 & -> & Hm2 & Hk).
    exists (s1 +:+ s2), s3, (c1 ++ c2). rewrite append_assoc, app_assoc.
    split; [reflexivity |]. split; [now constructor | exact Hk].
  - destruct (Regex.run r1 s caps k) as [res1 |] eqn:H1.
    + intros [= <-]. apply IH1 in H1 as (s1 & s2 & cs & -> & Hm & Hk).
      exists s1, s2, cs. split; [reflexivity |]. split; [now apply Regex.MAltL | exact Hk].
    + intros H2. apply IH2 in H2 as (s1 & s2 & cs & -> & Hm & Hk).
      exists s1, s2, cs. split; [reflexivity |]. split; [now apply Regex.MAltR | exact Hk].
  - intros H. apply IH in H as (s1 & s2 & cs & -> & Hm & Hk).
    rewrite take_append in Hk. exists s1, s2, (cs ++ [s1]). rewrite app_assoc.
    split; [reflexivity |]. split; [now constructor | exact Hk].
Qed.

Lemma greedy_here c s caps k :
  is_Some (k s caps) -> is_Some (Regex.greedy c s caps k).
Proof.
  intros Hk. destruct s as [| a s]; cbn; [exact Hk |].
  destruct (c a); [| exact Hk].
  destruct (Regex.greedy c s caps k); [eauto | exact Hk].
Qed.

Lemma greedy_complete c s1 s2 caps k :
  Js.allChars c s1 = true -> is_Some (k s2 caps) ->
  is_Some (Regex.greedy c (s1 +:+ s2) caps k).
Proof.
  intros Hall Hk. induction s1 as [| a s1 IH]; [now apply greedy_here |].
  cbn in Hall. apply andb_prop in Hall as [Ha Hall]. rewrite append_cons. cbn.
  rewrite Ha. destruct (IH Hall) as [res ->]. eauto.
Qed.

Lemma lazy_complete c s1 s2 caps k :
  Js.allChars c s1 = true -> is_Some (k s2 caps) ->
  is_Some (Regex.lazy c (s1 +:+ s2) caps k).
Proof.
  intros Hall Hk. induction s1 as [| a s1 IH].
  - rewrite append_nil_l. destruct Hk as [res Hk].
    destruct s2; cbn; rewrite Hk; eauto.
  - cbn in Hall. apply andb_prop in Hall as [Ha Hall]. rewrite append_cons. cbn.
    destruct (k (String a (s1 +:+ s2)) caps); [eauto |]. rewrite Ha. now apply IH.
Qed.

Lemma run_complete r s1 cs :
  Regex.Matches r s1 cs ->
  forall s2 caps k, is_Some (k s2 (caps ++ cs)) ->
                    is_Some (Regex.run r (s1 +:+ s2) caps k).
Proof.
  induction 1 as [p | c a Hc | c s Hall | c a s Hc Hall | c a s Hc Hall
                  | r1 r2 s1 s3 c1 c2 Hm1 IH1 Hm2 IH2
                  | r1 r2 s c Hm IH | r1 r2 s c Hm IH | r s c Hm IH];
    intros s2 caps k Hk; cbn [Regex.run]; rewrite ?app_nil_r in Hk.
  - now rewrite startsWith_append, drop_append.
  - rewrite append_cons, append_nil_l, Hc. exact Hk.
  - now apply greedy_complete.
  - rewrite append_cons, Hc. now apply greedy_complete.
  - rewrite append_cons, Hc. now apply lazy_complete.
  - rewrite append_assoc. apply IH1. apply IH2. now rewrite <- app_assoc.
  - destruct (IH s2 caps k Hk) as [res ->]. eauto.
  - destruct (Regex.run r1 (s +:+ s2) caps k); [eauto | now apply IH].
  - apply IH. rewrite take_append, <- app_assoc. exact Hk.
Qed.

Lemma exec_sound r s caps :
  Regex.exec r s = Some caps ->
  exists before found after,
    s = before +:+ found +:+ after /\ Regex.Matches r found caps.
Proof.
  induction s as [| a s IH]; cbn [Regex.exec].
  - destruct (Regex.run r "" [] _) as [res |] eqn:Hrun; [| discriminate].
    intros [= <-]. apply run_sound in Hrun as (s1 & s2 & cs & Hs & Hm & [= <-]).
    exists EmptyString, s1, s2. now split.
  - destruct (Regex.run r (String a s) [] _) as [res |] eqn:Hrun.
    + intros [= <-]. apply run_sound in Hrun as (s1 & s2 & cs & Hs & Hm & [= <-]).
      exists EmptyString, s1, s2. now split.
    + intros H. apply IH in H as (before & found & after & -> & Hm).
      exists (String a before), found, after. now split.
Qed.

Lemma exec_complete r before found after cs :
  Regex.Matches r found cs -> is_Some (Regex.exec r (before +:+ found +:+ after)).
Proof.
  intros Hm.
  assert (Hhere : is_Some (Regex.run r (found +:+ after) [] Regex.accept)).
  { apply (run_complete r found cs Hm). cbn. eauto. }
  induction before as [| a before IH].
  - rewrite append_nil_l. destruct Hhere as [res Hres].
    destruct (found +:+ after); cbn [Regex.exec]; rewrite Hres; eauto.
  - rewrite append_cons. cbn [Regex.exec].
    destruct (Regex.run r (String a _) [] _); [eauto | exact IH].
Qed.

Lemma matches_cat r1 r2 s1 s2 c1 c2 s c :
  Regex.Matches r1 s1 c1 -> Regex.Matches r2 s2 c2 -> s = s1 +:+ s2 -> c = c1 ++ c2 ->
  Regex.Matches (Regex.Cat r1 r2) s c.
Proof. intros H1 H2 -> ->. now constructor. Qed.

Lemma matches_plus c s :
  s <> EmptyString -> Js.allChars c s = true -> Regex.Matches (Regex.Plus c) s [].
Proof.
  destruct s as [| a s]; [congruence |]. cbn. intros _ H.
  apply andb_prop in H as [Ha Hs]. now constructor.
Qed.

Lemma matches_plus_lazy c s :
  s <> EmptyString -> Js.allChars c s = true -> Regex.Matches (Regex.PlusLazy c) s [].
Proof.
  destruct s as [| a s]; [congruence |]. cbn. intros _ H.
  apply andb_prop in H as [Ha Hs]. now constructor.
Qed.

Lemma allChars_cons c a s :
  c a = true -> Js.allChars c s = true -> Js.allChars c (String a s) = true.
Proof. intros Ha Hs. cbn. now rewrite Ha, Hs. Qed.

Lemma testWhole_spec r s :
  Regex.testWhole r s = true <-> exists cs, Regex.Matches r s cs.
Proof.
  unfold Regex.testWhole. split.
  - destruct (Regex.run r s [] _) as [res |] eqn:Hrun; [| discriminate]. intros _.
    apply run_sound in Hrun as (s1 & s2 & cs & -> & Hm & Hk).
    destruct s2; [| discriminate]. rewrite append_nil_r. eauto.
  - intros [cs Hm].
    destruct (run_complete r s cs Hm EmptyString [] Regex.acceptAtEnd)
      as [res Hres]; [cbn; eauto |].
    rewrite append_nil_r in Hres. now rewrite Hres.
Qed.

(** X3.  [isValidEmail] accepts exactly the addresses of the shape
    local@domain.suffix. *)
Lemma isValidEmail_spec email : isValidEmail email = true <-> EmailShape email.
Proof.
  unfold isValidEmail, EmailShape. rewrite testWhole_spec.
  unfold emailRegex. cbn [Regex.seq]. split.
  - intros [cs H].
    repeat match goal with
           | H : Regex.Matches (Regex.Cat _ _) _ _ |- _ => inversion H; subst; clear H
           | H : Regex.Matches (Regex.Lit _) _ _ |- _ => inversion H; subst; clear H
           | H : Regex.Matches (Regex.Plus _) _ _ |- _ => inversion H; subst; clear H
           end.
    do 3 eexists. split; [reflexivity |].
    repeat split; try discriminate; now apply allChars_cons.
  - intros (user & domain & suffix & -> & Hu & Hcu & Hd & Hcd & Hs & Hcs).
    exists [].
    eapply (matches_cat _ _ user _ [] []); [now apply matches_plus | | reflexivity ..].
    eapply (matches_cat _ _ "@" _ [] []); [apply Regex.MLit | | reflexivity ..].
    eapply (matches_cat _ _ domain _ [] []); [now apply matches_plus | | reflexivity ..].
    eapply (matches_cat _ _ "." _ [] []); [apply Regex.MLit | | reflexivity ..].
    now apply matches_plus.
Qed.

(** A file name gets the id 0 unless it holds [step-] followed by a digit;
    otherwise its id is read from a run of digits that follows a [step-]. *)
Lemma stepIdOf_spec filename :
  stepIdOf filename = 0
  \/ exists before digits after,
       filename = before +:+ "step-" +:+ digits +:+ after
       /\ digits <> EmptyString /\ Js.allChars Js.isDigit digits = true
       /\ stepIdOf filename = Js.parseInt digits.
Proof.
  unfold stepIdOf.
  destruct (Regex.exec stepIdRegex filename) as [caps |] eqn:Hexec; [| now left].
  apply exec_sound in Hexec as (before & found & after & -> & Hm).
  unfold stepIdRegex in Hm.
  repeat match goal with
         | H : Regex.Matches (Regex.Cat _ _) _ _ |- _ => inversion H; subst; clear H
         | H : Regex.Matches (Regex.Group _) _ _ |- _ => inversion H; subst; clear H
         | H : Regex.Matches (Regex.Lit _) _ _ |- _ => inversion H; subst; clear H
         | H : Regex.Matches (Regex.Plus _) _ _ |- _ => inversion H; subst; clear H
         end.
  right. exists before.
  match goal with
  | Ha : Js.isDigit ?a = true, Hs : Js.allChars Js.isDigit ?s = true |- _ =>
      exists (String a s), after
  end.
  split; [now rewrite !append_assoc |].
  repeat split; [discriminate | now apply allChars_cons].
Qed.

(** ** The header line of a Markdown document *)

Lemma header_matches found cs :
  Regex.Matches headerRegex found cs <->
  exists x y gap1 gap2 label,
    found = "**Step " +:+ x +:+ " of " +:+ y +:+ "**" +:+ gap1 +:+ "|"
                     +:+ gap2 +:+ "**" +:+ label +:+ "**"
    /\ cs = [label]
    /\ x <> EmptyString /\ Js.allChars Js.isDigit x = true
    /\ y <> EmptyString /\ Js.allChars Js.isDigit y = true
    /\ Js.allChars Js.isSpace gap1 = true /\ Js.allChars Js.isSpace gap2 = true
    /\ label <> EmptyString /\ Js.allChars Js.isDot label = true.
Proof.
  unfold headerRegex. cbn [Regex.seq]. split.
  - intros H.
    repeat match goal with
           | H : Regex.Matches (Regex.Cat _ _) _ _ |- _ => inversion H; subst; clear H
           | H : Regex.Matches (Regex.Group _) _ _ |- _ => inversion H; subst; clear H
           | H : Regex.Matches (Regex.Lit _) _ _ |- _ => inversion H; subst; clear H
           | H : Regex.Matches (Regex.Plus _) _ _ |- _ => inversion H; subst; clear H
           | H : Regex.Matches (Regex.PlusLazy _) _ _ |- _ => inversion H; subst; clear H
           | H : Regex.Matches (Regex.Star _) _ _ |- _ => inversion H; subst; clear H
           end.
    do 5 eexists. split; [reflexivity |]. split; [reflexivity |].
    repeat split; try discriminate; try assumption; now apply allChars_cons.
  - intros (x & y & gap1 & gap2 & label & -> & -> & Hx & Hdx & Hy & Hdy & Hg1 & Hg2
            & Hl & Hdl).
    eapply (matches_cat _ _ "**Step " _ [] [label]); [apply Regex.MLit | | reflexivity ..].
    eapply (matches_cat _ _ x _ [] [label]); [now apply matches_plus | | reflexivity ..].
    eapply (matches_cat _ _ " of " _ [] [label]); [apply Regex.MLit | | reflexivity ..].
    eapply (matches_cat _ _ y _ [] [label]); [now apply matches_plus | | reflexivity ..].
    eapply (matches_cat _ _ "**" _ [] [label]); [apply Regex.MLit | | reflexivity ..].
    eapply (matches_cat _ _ gap1 _ [] [label]); [now apply Regex.MStar | | reflexivity ..].
    eapply (matches_cat _ _ "|" _ [] [label]); [apply Regex.MLit | | reflexivity ..].
    eapply (matches_cat _ _ gap2 _ [] [label]); [now apply Regex.MStar | | reflexivity ..].
    eapply (matches_cat _ _ "**" _ [] [label]); [apply Regex.MLit | | reflexivity ..].
    eapply (matches_cat _ _ label _ [label] []); [| apply Regex.MLit | reflexivity ..].
    apply (Regex.MGroup _ _ []). now apply matches_plus_lazy.
Qed.

Lemma headerLabel_sound text label :
  headerLabel text = Some label -> HeaderLine text label.
Proof.
  unfold headerLabel.
  destruct (Regex.exec headerRegex text) as [caps |] eqn:Hexec; [| discriminate].
  apply exec_sound in Hexec as (before & found & after & -> & Hm).
  apply header_matches in Hm
    as (x & y & gap1 & gap2 & label' & -> & -> & Hconds).
  intros [= <-]. exists before, x, y, gap1, gap2, after.
  split; [| exact Hconds]. now rewrite !append_assoc.
Qed.

Lemma headerLabel_complete text label :
  HeaderLine text label -> exists first, headerLabel text = Some first.
Proof.
  intros (before & x & y & gap1 & gap2 & after & -> & Hconds).
  assert (Regex.Matches headerRegex
            ("**Step " +:+ x +:+ " of " +:+ y +:+ "**" +:+ gap1 +:+ "|"
                       +:+ gap2 +:+ "**" +:+ label +:+ "**") [label]) as Hm.
  { apply header_matches. exists x, y, gap1, gap2, label. now repeat split. }
  destruct (exec_complete headerRegex before _ after _ Hm) as [caps Hexec].
  pose proof Hexec as Hfound.
  apply exec_sound in Hfound as (b' & found & a' & _ & Hm').
  apply header_matches in Hm' as (_ & _ & _ & _ & first & _ & -> & _).
  rewrite !append_assoc in Hexec.
  exists first. unfold headerLabel. now rewrite Hexec.
Qed.

Lemma headerLabel_None text :
  headerLabel text = None <-> forall label, ~ HeaderLine text label.
Proof.
  split.
  - intros Hnone label Hline.
    apply headerLabel_complete in Hline as [first Hfirst]. congruence.
  - intros Hno. destruct (headerLabel text) as [label |] eqn:Hlabel; [| reflexivity].
    exfalso. apply (Hno label). now apply headerLabel_sound.
Qed.

(** ** Loading a profile *)

Lemma includes_spec (s : Z) (l : list Z) :
  existsb (Z.eqb s) l = true <-> s ∈ l.
Proof.
  rewrite existsb_exists, list_elem_of_In. split.
  - intros (x & Hin & Heq). apply Z.eqb_eq in Heq. now subst.
  - intros Hin. exists s. split; [assumption | apply Z.eqb_refl].
Qed.

Lemma includes_false (s : Z) (l : list Z) :
  existsb (Z.eqb s) l = false <-> s ∉ l.
Proof.
  rewrite <- includes_spec. destruct (existsb (Z.eqb s) l); split; congruence.
Qed.

Lemma saveEmployeeProfile_eq (now : Z) (p : EmployeeProfile) (st : Store) :
  saveEmployeeProfile now p st
  = (Ok (touch now p), <[profileFile (email p) := touch now p]> st).
Proof. reflexivity. Qed.

(** [getEmployeeProfile] either finds the file and writes nothing, or finds
    none and answers with what [createNewProfile] makes and stores. *)
Lemma getEmployeeProfile_cases env now e (st st1 : Store) profile :
  getEmployeeProfile env now e st = (Ok profile, st1) ->
  (st1 = st /\ exists who, st !! profileFile who = Some profile) \/
  (exists who, st !! profileFile who = None /\
               createNewProfile now who None st = (Ok profile, st1)).
Proof.
  unfold getEmployeeProfile, bind.
  destruct (match Js.truthy e with
            | Some e0 => ret e0
            | None => getCurrentEmployeeEmail env
            end st) as [[who | msg] st0] eqn:Hwho; [| discriminate].
  assert (st0 = st) as ->.
  { destruct (Js.truthy e); [inversion Hwho; reflexivity |].
    unfold getCurrentEmployeeEmail in Hwho.
    repeat match type of Hwho with
           | match ?x with _ => _ end _ = _ => destruct x
           end;
      unfold bind, readdir, ret, throw in Hwho;
      repeat match type of Hwho with
             | context [match ?x with _ => _ end] => destruct x
             end; inversion Hwho; reflexivity. }
  unfold readProfile. destruct (st !! profileFile who) as [p |] eqn:Hfile.
  - unfold ret. intros [= <- <-]. left. eauto.
  - intros Hnew. right. eauto.
Qed.

(** With an explicit e-mail whose file exists, the stored profile is
    answered and the directory is untouched. *)
Lemma getEmployeeProfile_stored env now who (st : Store) profile :
  who <> EmptyString ->
  st !! profileFile who = Some profile ->
  getEmployeeProfile env now (Some who) st = (Ok profile, st).
Proof.
  intros Hne Hfile. unfold getEmployeeProfile, bind.
  destruct who; [congruence |]. cbn [Js.truthy]. unfold ret at 1.
  unfold readProfile. rewrite Hfile. reflexivity.
Qed.

(** ** Completing a step *)

(** The three outcomes of [handleCompleteStep] once the profile is loaded. *)
Lemma handleCompleteStep_eq env dir now args (st st1 : Store) profile :
  getEmployeeProfile env now (cs_email args) st = (Ok profile, st1) ->
  let s := resolveStep args profile in
  handleCompleteStep env dir now args st =
    if existsb (Z.eqb s) (completedSteps profile) then
      (Ok (AlreadyCompleted s), st1)
    else if negb (s =? currentStep profile) then
      (Ok (OutOfOrder (currentStep profile) s), st1)
    else
      let next := nextStepId (getAllSteps dir) s in
      let saved :=
        touch now (withProgress profile next (completedSteps profile ++ [s])
                     (<[s := completionRecord now args]> (stepData profile))) in
      (Ok (Completed s (getStep dir s) next (getStep dir next)
                     (length (getAllSteps dir))),
       <[profileFile (email profile) := saved]> st1).
Proof.
  intros Hload s. unfold handleCompleteStep, bind at 1. rewrite Hload.
  fold s. destruct (existsb (Z.eqb s) (completedSteps profile)); [reflexivity |].
  destruct (negb (s =? currentStep profile)); reflexivity.
Qed.

(** X6.  [handleCompleteStep] validates the step it resolves (the id the
    call gives when it gives one other than 0, the current step otherwise)
    in this order: when that step is already in [completedSteps], the
    answer is [AlreadyCompleted]; otherwise, when it differs from
    [currentStep], the answer is [OutOfOrder].  Both are normal answers
    ([Ok], nothing thrown), and the data directory is the one
    [getEmployeeProfile] left: the handler itself writes nothing, the
    loaded profile stays as it was, and the only write there can have been
    is the creation of a profile that had no file. *)
Theorem complete_step_validation_order env dir now args (st st1 : Store) profile :
  getEmployeeProfile env now (cs_email args) st = (Ok profile, st1) ->
  let s := resolveStep args profile in
  (forall n, stepId args = Some n -> n <> 0 -> s = n)
  /\ (s ∈ completedSteps profile ->
     handleCompleteStep env dir now args st = (Ok (AlreadyCompleted s), st1))
  /\ (s ∉ completedSteps profile -> s <> currentStep profile ->
     handleCompleteStep env dir now args st
     = (Ok (OutOfOrder (currentStep profile) s), st1))
  /\ ((st1 = st /\ exists who, st !! profileFile who = Some profile)
      \/ exists who, st !! profileFile who = None /\
                     createNewProfile now who None st = (Ok profile, st1)).
Proof.
  intros Hload s. pose proof (handleCompleteStep_eq env dir now args st st1 profile Hload) as Heq.
  cbv zeta in Heq. fold s in Heq. repeat split.
  - intros n Hn Hnz. unfold s, resolveStep. rewrite Hn.
    apply Z.eqb_neq in Hnz. now rewrite Hnz.
  - intros Hin. apply includes_spec in Hin. rewrite Heq, Hin. reflexivity.
  - intros Hnotin Hne. apply includes_false in Hnotin. rewrite Heq, Hnotin.
    apply Z.eqb_neq in Hne. rewrite Hne. reflexivity.
  - eapply getEmployeeProfile_cases; eassumption.
Qed.

Lemma complete_step_validation_order_witness :
  handleCompleteStep noEnv repositorySteps 2500 (completeArgs jane 1) janeOnStepTwo
  = (Ok (AlreadyCompleted 1), janeOnStepTwo)
  /\ handleCompleteStep noEnv repositorySteps 2500 (completeArgs jane 3) janeOnStepTwo
     = (Ok (OutOfOrder 2 3), janeOnStepTwo).
Proof.
  destruct (getEmployeeProfile noEnv 2500 (Some jane) janeOnStepTwo)
    as [loaded st1] eqn:Hload.
  assert (loaded = Ok (touch 2000 (withProgress janeProfile 2 [1]
                                     {[ 1 := {[ "completedAt" := VDate 2000 ]} ]}))
          /\ st1 = janeOnStepTwo) as [-> ->].
  { apply pair_equal_spec. rewrite <- Hload. vm_compute. reflexivity. }
  split.
  - apply (complete_step_validation_order noEnv repositorySteps 2500
             (completeArgs jane 1) _ _ _ Hload).
    cbn. solve_mem.
  - apply (complete_step_validation_order noEnv repositorySteps 2500
             (completeArgs jane 3) _ _ _ Hload); cbn; [solve_mem | lia].
Defined.

(** C3, where the code departs from it.  The steps directory has a step
    with the id 0; [jane]'s current step is 1 and she has completed nothing.
    A [complete_step] that asks for the step 0, which is neither completed
    nor the current step, is not answered [OutOfOrder]: the handler reads
    the id 0 as no id, completes the current step 1 and advances to 2. *)
Theorem complete_step_zero_completes_current_step :
  map id (getAllSteps stepsWithOverview) = [0; 1; 2]
  /\ janeRegistered !! profileFile jane = Some janeProfile
  /\ currentStep janeProfile = 1 /\ completedSteps janeProfile = []
  /\ exists st' p',
      handleCompleteStep noEnv stepsWithOverview 2000 (completeArgs jane 0)
        janeRegistered
      = (Ok (Completed 1 (getStep stepsWithOverview 1) 2
                       (getStep stepsWithOverview 2) 3), st')
      /\ st' !! profileFile jane = Some p'
      /\ currentStep p' = 2 /\ completedSteps p' = [1].
Proof.
  split; [vm_compute; reflexivity |]. split; [vm_compute; reflexivity |].
  split; [reflexivity |]. split; [reflexivity |].
  do 2 eexists. split; [vm_compute; reflexivity |].
  split; [vm_compute; reflexivity |]. split; reflexivity.
Qed.

(** What a [Completed] answer says about the call that gave it. *)
Lemma handleCompleteStep_Completed_inv env dir now args (st st' : Store)
    s cs new up total :
  handleCompleteStep env dir now args st = (Ok (Completed s cs new up total), st') ->
  exists profile st1,
    getEmployeeProfile env now (cs_email args) st = (Ok profile, st1)
    /\ s = resolveStep args profile
    /\ (s ∉ completedSteps profile)
    /\ s = currentStep profile
    /\ new = nextStepId (getAllSteps dir) s
    /\ cs = getStep dir s /\ up = getStep dir new
    /\ total = length (getAllSteps dir)
    /\ st' = (<[profileFile (email profile) :=
                  touch now (withProgress profile new (completedSteps profile ++ [s])
                               (<[s := completionRecord now args]> (stepData profile)))]> st1).
Proof.
  intros Hrun.
  destruct (getEmployeeProfile env now (cs_email args) st) as [[profile | msg] st1] eqn:Hload.
  - rewrite (handleCompleteStep_eq env dir now args st st1 profile Hload) in Hrun.
    cbv zeta in Hrun.
    destruct (existsb _ (completedSteps profile)) eqn:Hin; [discriminate |].
    destruct (resolveStep args profile =? currentStep profile) eqn:Hcur;
      cbn [negb] in Hrun; [| discriminate].
    apply Z.eqb_eq in Hcur. apply includes_false in Hin.
    inversion Hrun; subst. exists profile, st1. repeat split; auto.
  - unfold handleCompleteStep, bind in Hrun. rewrite Hload in Hrun. discriminate.
Qed.

(** ** The ordered step list *)

Lemma insertById_perm x l : Permutation (insertById x l) (x :: l).
Proof.
  induction l as [| y l IH]; cbn; [reflexivity |].
  destruct (id x <=? id y); [reflexivity |].
  rewrite IH. apply perm_swap.
Qed.

Lemma sortById_perm l : Permutation (sortById l) l.
Proof.
  induction l as [| x l IH]; cbn; [reflexivity |].
  rewrite insertById_perm. now constructor.
Qed.

Lemma insertById_sorted x l :
  StronglySorted byId l -> StronglySorted byId (insertById x l).
Proof.
  induction 1 as [| y l Hs IH Hall]; cbn.
  - repeat constructor.
  - destruct (id x <=? id y) eqn:Hle.
    + apply Z.leb_le in Hle. constructor; [now constructor |].
      constructor; [exact Hle |].
      eapply Forall_impl; [exact Hall |]. unfold byId. intros; lia.
    + apply Z.leb_gt in Hle. constructor; [exact IH |].
      eapply Permutation_Forall; [symmetry; apply insertById_perm |].
      constructor; [unfold byId; lia | exact Hall].
Qed.

Lemma sortById_sorted l : StronglySorted byId (sortById l).
Proof.
  induction l as [| x l IH]; cbn; [constructor | now apply insertById_sorted].
Qed.

Lemma nextStepId_sorted l s :
  StronglySorted byId l -> IsNextStep (map id l) s (nextStepId l s).
Proof.
  unfold nextStepId. induction 1 as [| y l Hs IH Hall]; cbn.
  - right. split; [| reflexivity]. intros i Hi. inversion Hi.
  - destruct (s <? id y) eqn:Hlt.
    + apply Z.ltb_lt in Hlt. left. split; [left |]. split; [exact Hlt |].
      intros i Hi _. apply elem_of_cons in Hi as [-> | Hi]; [lia |].
      apply list_elem_of_fmap in Hi as (z & -> & Hz).
      rewrite Forall_forall in Hall. apply Hall. exact Hz.
    + apply Z.ltb_ge in Hlt. destruct IH as [(Hin & Hgt & Hmin) | (Hall' & Heq)].
      * left. split; [now right |]. split; [exact Hgt |].
        intros i Hi Hsi. apply elem_of_cons in Hi as [-> | Hi]; [lia | auto].
      * right. split; [| exact Heq].
        intros i Hi. apply elem_of_cons in Hi as [-> | Hi]; auto.
Qed.

Lemma nextStepId_spec dir s :
  IsNextStep (map id (getAllSteps dir)) s (nextStepId (getAllSteps dir) s).
Proof. apply nextStepId_sorted, sortById_sorted. Qed.

Lemma nextStepId_ids l s : nextStepId l s = nextOf (map id l) s.
Proof.
  unfold nextStepId, nextOf. induction l as [| y l IH]; cbn; [reflexivity |].
  destruct (s <? id y); [reflexivity | exact IH].
Qed.

Lemma find_id_Some l k :
  k ∈ map id l -> exists st, find (fun step => id step =? k) l = Some st /\ id st = k.
Proof.
  induction l as [| y l IH]; cbn; intros Hin; [inversion Hin |].
  destruct (id y =? k) eqn:Heq.
  - apply Z.eqb_eq in Heq. eauto.
  - apply Z.eqb_neq in Heq. apply elem_of_cons in Hin as [-> | Hin]; [congruence | auto].
Qed.

Lemma find_id_None l k :
  k ∉ map id l -> find (fun step => id step =? k) l = None.
Proof.
  induction l as [| y l IH]; cbn; intros Hin; [reflexivity |].
  rewrite not_elem_of_cons in Hin. destruct Hin as [Hne Hin].
  destruct (id y =? k) eqn:Heq; [apply Z.eqb_eq in Heq; congruence | auto].
Qed.

(** ** Advancing *)

(** Completing the current step of a stored profile. *)
Lemma complete_current_step env dir now who n d (st : Store) p :
  who <> EmptyString ->
  st !! profileFile who = Some p ->
  email p = who ->
  currentStep p ∉ completedSteps p ->
  let s := currentStep p in
  let args := mkCompleteArgs (Some s) (Some who) n d in
  let next := nextOf (map id (getAllSteps dir)) s in
  handleCompleteStep env dir now args st
  = (Ok (Completed s (getStep dir s) next (getStep dir next)
                   (length (map id (getAllSteps dir)))),
     <[profileFile who :=
         touch now (withProgress p next (completedSteps p ++ [s])
                      (<[s := completionRecord now args]> (stepData p)))]> st).
Proof.
  intros Hne Hfile Hmail Hfresh s args next.
  pose proof (getEmployeeProfile_stored env now who st p Hne Hfile) as Hload.
  rewrite (handleCompleteStep_eq env dir now args st st p Hload). cbv zeta.
  assert (resolveStep args p = s) as ->.
  { unfold resolveStep, args; cbn. destruct (s =? 0); reflexivity. }
  apply includes_false in Hfresh. fold s in Hfresh. rewrite Hfresh.
  unfold s at 1. rewrite Z.eqb_refl. cbn [negb].
  rewrite nextStepId_ids, length_map, Hmail. reflexivity.
Qed.

(** C4.  With steps whose ids are exactly 1, 2, 3 and a fresh stored profile
    (current step 1, nothing completed): completing step 3 is answered
    [OutOfOrder]; completing step 1 is answered [Completed] with next step
    2; then step 2 with next step 3; then step 3 with no next step, and the
    stored current step is 4.  In general, after every [Completed] answer
    the stored current step is the smallest configured step id above the
    completed one, or the completed id plus one when there is none. *)
Theorem complete_step_advances :
  (forall env dir t1 t2 t3 t4 who (st : Store) p,
      map id (getAllSteps dir) = [1; 2; 3] ->
      who <> EmptyString ->
      st !! profileFile who = Some p ->
      email p = who -> currentStep p = 1 -> completedSteps p = [] ->
      exists (step2 step3 : OnboardingStep) (st2 st3 st4 : Store) p4,
        handleCompleteStep env dir t1 (completeArgs who 3) st
        = (Ok (OutOfOrder 1 3), st)
        /\ handleCompleteStep env dir t2 (completeArgs who 1) st
           = (Ok (Completed 1 (getStep dir 1) 2 (Some step2) 3), st2)
        /\ id step2 = 2
        /\ handleCompleteStep env dir t3 (completeArgs who 2) st2
           = (Ok (Completed 2 (getStep dir 2) 3 (Some step3) 3), st3)
        /\ id step3 = 3
        /\ handleCompleteStep env dir t4 (completeArgs who 3) st3
           = (Ok (Completed 3 (getStep dir 3) 4 None 3), st4)
        /\ st4 !! profileFile who = Some p4
        /\ currentStep p4 = 4 /\ completedSteps p4 = [1; 2; 3])
  /\ (forall env dir now args (st st' : Store) s cs new up total,
        handleCompleteStep env dir now args st
        = (Ok (Completed s cs new up total), st') ->
        IsNextStep (map id (getAllSteps dir)) s new
        /\ exists p', st' !! profileFile (email p') = Some p'
                      /\ currentStep p' = new).
Proof.
  split.
  - intros env dir t1 t2 t3 t4 who st p Hids Hne Hfile Hmail Hcur Hdone.
    destruct (find_id_Some (getAllSteps dir) 2) as (step2 & Hs2 & Hid2);
      [rewrite Hids; solve_mem |].
    destruct (find_id_Some (getAllSteps dir) 3) as (step3 & Hs3 & Hid3);
      [rewrite Hids; solve_mem |].
    assert (getStep dir 4 = None) as Hs4
        by (apply (find_id_None (getAllSteps dir)); rewrite Hids; solve_mem).
    change (getStep dir 2 = Some step2) in Hs2.
    change (getStep dir 3 = Some step3) in Hs3.
    (* the first completion *)
    pose proof (complete_current_step env dir t2 who None None st p Hne Hfile Hmail) as H1.
    cbv zeta in H1. rewrite Hcur, Hdone, Hids in H1.
    change (nextOf [1; 2; 3] 1) with 2 in H1. cbn [length app] in H1.
    specialize (H1 ltac:(solve_mem)). rewrite Hs2 in H1.
    set (p1 := touch t2 _) in H1. set (st2 := <[profileFile who := p1]> st) in H1.
    (* the second *)
    pose proof (complete_current_step env dir t3 who None None st2 p1 Hne
                  ltac:(apply lookup_insert_eq) Hmail) as H2.
    cbv zeta in H2.
    cbn [p1 touch withProgress currentStep completedSteps] in H2. rewrite Hids in H2.
    change (nextOf [1; 2; 3] 2) with 3 in H2. cbn [length app] in H2.
    specialize (H2 ltac:(solve_mem)). rewrite Hs3 in H2.
    fold p1 in H2. set (p2 := touch t3 _) in H2.
    set (st3 := <[profileFile who := p2]> st2) in H2.
    (* the third *)
    pose proof (complete_current_step env dir t4 who None None st3 p2 Hne
                  ltac:(apply lookup_insert_eq) Hmail) as H3.
    cbv zeta in H3.
    cbn [p2 touch withProgress currentStep completedSteps] in H3. rewrite Hids in H3.
    change (nextOf [1; 2; 3] 3) with 4 in H3. cbn [length app] in H3.
    specialize (H3 ltac:(solve_mem)). rewrite Hs4 in H3.
    fold p2 in H3. set (p3 := touch t4 _) in H3.
    exists step2, step3, st2, st3, (<[profileFile who := p3]> st3), p3.
    repeat split; try assumption.
    + pose proof (getEmployeeProfile_stored env t1 who st p Hne Hfile) as Hload.
      rewrite (handleCompleteStep_eq env dir t1 (completeArgs who 3) st st p Hload).
      cbn. rewrite Hdone, Hcur. reflexivity.
    + apply lookup_insert_eq.
  - intros env dir now args st st' s cs new up total Hrun.
    apply handleCompleteStep_Completed_inv in Hrun
      as (profile & st1 & _ & _ & _ & _ & -> & _ & _ & _ & ->).
    split; [apply nextStepId_spec |].
    match goal with |- context [<[_ := ?x]> _] => exists x end.
    split; [apply lookup_insert_eq | reflexivity].
Qed.

Lemma complete_step_advances_witness :
  map id (getAllSteps repositorySteps) = [1; 2; 3]
  /\ janeRegistered !! profileFile jane = Some janeProfile
  /\ exists (step2 step3 : OnboardingStep) (st2 st3 st4 : Store) p4,
      handleCompleteStep noEnv repositorySteps 2000 (completeArgs jane 3) janeRegistered
      = (Ok (OutOfOrder 1 3), janeRegistered)
      /\ handleCompleteStep noEnv repositorySteps 3000 (completeArgs jane 1) janeRegistered
         = (Ok (Completed 1 (getStep repositorySteps 1) 2 (Some step2) 3), st2)
      /\ id step2 = 2
      /\ handleCompleteStep noEnv repositorySteps 4000 (completeArgs jane 2) st2
         = (Ok (Completed 2 (getStep repositorySteps 2) 3 (Some step3) 3), st3)
      /\ id step3 = 3
      /\ handleCompleteStep noEnv repositorySteps 5000 (completeArgs jane 3) st3
         = (Ok (Completed 3 (getStep repositorySteps 3) 4 None 3), st4)
      /\ st4 !! profileFile jane = Some p4
      /\ currentStep p4 = 4 /\ completedSteps p4 = [1; 2; 3].
Proof.
  split; [vm_compute; reflexivity |]. split; [vm_compute; reflexivity |].
  apply (proj1 complete_step_advances noEnv repositorySteps 2000 3000 4000 5000
               jane janeRegistered janeProfile);
    first [discriminate | vm_compute; reflexivity].
Defined.

(** ** The current step and the completed steps *)

Lemma createNewProfile_eq now who info (st : Store) :
  exists p,
    createNewProfile now who info st = (Ok p, <[profileFile (email p) := p]> st)
    /\ email p = Js.toLowerCase who
    /\ startDate p = now /\ currentStep p = 1
    /\ completedSteps p = [] /\ stepData p = ∅
    /\ createdAt (metadata p) = now.
Proof. eexists. split; [reflexivity |]. repeat split. Qed.

Lemma getCurrentEmployeeEmail_store env (st st0 : Store) r :
  getCurrentEmployeeEmail env st = (r, st0) -> st0 = st.
Proof.
  unfold getCurrentEmployeeEmail. intros Hwho.
  repeat match type of Hwho with
         | match ?x with _ => _ end _ = _ => destruct x
         end;
    unfold bind, readdir, ret, throw in Hwho;
    repeat match type of Hwho with
           | context [match ?x with _ => _ end] => destruct x
           end; inversion Hwho; reflexivity.
Qed.

(** The only write of [getEmployeeProfile] is the creation of the profile it
    answers with. *)
Lemma getEmployeeProfile_store env now e (st st1 : Store) r :
  getEmployeeProfile env now e st = (r, st1) ->
  (st1 = st /\ forall p, r = Ok p -> exists who, st !! profileFile who = Some p)
  \/ (exists who, createNewProfile now who None st = (r, st1)).
Proof.
  unfold getEmployeeProfile, bind.
  destruct (match Js.truthy e with
            | Some e0 => ret e0
            | None => getCurrentEmployeeEmail env
            end st) as [[who | msg] st0] eqn:Hwho.
  - assert (st0 = st) as ->.
    { destruct (Js.truthy e); [inversion Hwho; reflexivity |].
      eapply getCurrentEmployeeEmail_store; eassumption. }
    unfold readProfile. destruct (st !! profileFile who) as [p |] eqn:Hfile.
    + unfold ret. intros [= <- <-]. left. split; [reflexivity |].
      intros p' [= <-]. eauto.
    + intros Hnew. right. eauto.
  - intros [= <- <-]. left. split; [| discriminate].
    destruct (Js.truthy e); [discriminate |].
    eapply getCurrentEmployeeEmail_store; eassumption.
Qed.

(** *** Properties of profiles that every tool call keeps *)

Section KeptByHandlers.

Variable P : EmployeeProfile -> Prop.

(** A new profile has the property ... *)
Hypothesis P_new :
  forall now who info (st st' : Store) p,
    createNewProfile now who info st = (Ok p, st') -> P p.

(** ... completing the current step keeps it ... *)
Hypothesis P_complete :
  forall dir now args p,
    P p ->
    resolveStep args p ∉ completedSteps p ->
    resolveStep args p = currentStep p ->
    P (touch now
         (withProgress p (nextStepId (getAllSteps dir) (resolveStep args p))
            (completedSteps p ++ [resolveStep args p])
            (<[resolveStep args p := completionRecord now args]> (stepData p)))).

(** ... and so does a change of the step data alone. *)
Hypothesis P_data :
  forall now p sd,
    P p -> P (touch now (withProgress p (currentStep p) (completedSteps p) sd)).

Local Abbreviation Kept st := (map_Forall (fun _ p => P p) (st : Store)).

Lemma createNewProfile_kept now who info (st st' : Store) r :
  Kept st -> createNewProfile now who info st = (r, st') ->
  Kept st' /\ forall p, r = Ok p -> P p.
Proof.
  intros Hst Hnew.
  destruct (createNewProfile_eq now who info st) as (p & Heq & _).
  pose proof (P_new _ _ _ _ _ _ Heq) as Hp.
  rewrite Heq in Hnew. inversion Hnew; subst. split.
  - now apply map_Forall_insert_2.
  - now intros p' [= <-].
Qed.

Lemma getEmployeeProfile_kept env now e (st st1 : Store) r :
  Kept st -> getEmployeeProfile env now e st = (r, st1) ->
  Kept st1 /\ forall p, r = Ok p -> P p.
Proof.
  intros Hst Hload.
  apply getEmployeeProfile_store in Hload as [(-> & Hfile) | (who & Hnew)].
  - split; [exact Hst |]. intros p Hr. destruct (Hfile p Hr) as [who Hp].
    exact (Hst _ _ Hp).
  - eapply createNewProfile_kept; eassumption.
Qed.

Lemma handleCompleteStep_kept env dir now args (st st' : Store) r :
  Kept st -> handleCompleteStep env dir now args st = (r, st') -> Kept st'.
Proof.
  intros Hst.
  destruct (getEmployeeProfile env now (cs_email args) st)
    as [[profile | msg] st1] eqn:Hload;
    destruct (getEmployeeProfile_kept _ _ _ _ _ _ Hst Hload) as [Hst1 Hp].
  - rewrite (handleCompleteStep_eq env dir now args st st1 profile Hload).
    cbv zeta. specialize (Hp _ eq_refl).
    destruct (existsb _ (completedSteps profile)) eqn:Hin;
      [now intros [= <- <-] |].
    destruct (resolveStep args profile =? currentStep profile) eqn:Hcur; cbn [negb];
      [| now intros [= <- <-]].
    intros [= <- <-]. apply map_Forall_insert_2; [| exact Hst1].
    apply P_complete; [exact Hp | now apply includes_false | now apply Z.eqb_eq].
  - unfold handleCompleteStep, bind. rewrite Hload. now intros [= <- <-].
Qed.

Lemma handleRequestSAWDevice_kept env now args (st st' : Store) r :
  Kept st -> handleRequestSAWDevice env now args st = (r, st') -> Kept st'.
Proof.
  intros Hst. unfold handleRequestSAWDevice, bind at 1.
  destruct (getEmployeeProfile env now (saw_email args) st)
    as [[profile | msg] st1] eqn:Hload;
    destruct (getEmployeeProfile_kept _ _ _ _ _ _ Hst Hload) as [Hst1 Hp].
  - unfold bind, saveEmployeeProfile, bind, writeProfile, ret. intros [= <- <-].
    apply map_Forall_insert_2; [| exact Hst1]. apply P_data. now apply Hp.
  - now intros [= <- <-].
Qed.

Lemma readOnly_kept env now e (st st' : Store) {A} (k : EmployeeProfile -> A) r :
  Kept st ->
  (let* profile := getEmployeeProfile env now e in ret (k profile)) st = (r, st') ->
  Kept st'.
Proof.
  intros Hst. unfold bind.
  destruct (getEmployeeProfile env now e st) as [[profile | msg] st1] eqn:Hload;
    destruct (getEmployeeProfile_kept _ _ _ _ _ _ Hst Hload) as [Hst1 _];
    unfold ret; now intros [= <- <-].
Qed.

Lemma handleStartOnboarding_kept env dir now args (st st' : Store) r :
  Kept st -> handleStartOnboarding env dir now args st = (r, st') -> Kept st'.
Proof.
  intros Hst. unfold handleStartOnboarding, bind.
  destruct (Js.truthy (sa_email args)) as [e |].
  - destruct (createNewProfile now e (Some args) st) as [[p | msg] st1] eqn:Hnew;
      destruct (createNewProfile_kept _ _ _ _ _ _ Hst Hnew) as [Hst1 _];
      unfold ret; now intros [= <- <-].
  - destruct (getEmployeeProfile env now None st) as [[p | msg] st1] eqn:Hload;
      destruct (getEmployeeProfile_kept _ _ _ _ _ _ Hst Hload) as [Hst1 _];
      unfold ret; now intros [= <- <-].
Qed.

Lemma handleRegisterEmployee_kept now args (st st' : Store) r :
  Kept st -> handleRegisterEmployee now args st = (r, st') -> Kept st'.
Proof.
  intros Hst. unfold handleRegisterEmployee.
  destruct (Js.truthy (sa_email args)) as [e |];
    [destruct (Js.truthy (sa_name args)) |]; try now intros [= <- <-].
  unfold bind.
  destruct (createNewProfile now e (Some args) st) as [[p | msg] st1] eqn:Hnew;
    destruct (createNewProfile_kept _ _ _ _ _ _ Hst Hnew) as [Hst1 _];
    unfold ret; now intros [= <- <-].
Qed.

Lemma callTool_kept env dir now call (st : Store) :
  Kept st -> Kept (snd (callTool env dir now call st)).
Proof.
  intros Hst. unfold callTool.
  match goal with
  | |- context [match ?h st with _ => _ end] =>
      destruct (h st) as [r st'] eqn:Hrun
  end.
  assert (Kept st') as Hst'.
  { destruct call as [args | e | args | e | | args | args | name]; cbn in Hrun.
    - eapply handleStartOnboarding_kept; eassumption.
    - eapply (readOnly_kept env now e st st'
                (fun profile => CurrentStep profile (getStep dir (currentStep profile))
                                            (length (getAllSteps dir))));
        [exact Hst | exact Hrun].
    - eapply handleCompleteStep_kept; eassumption.
    - eapply (readOnly_kept env now e st st'
                (fun profile => Progress profile (getAllSteps dir)));
        [exact Hst | exact Hrun].
    - unfold handleGetAllSteps, ret in Hrun. inversion Hrun; subst. exact Hst.
    - eapply handleRegisterEmployee_kept; eassumption.
    - eapply handleRequestSAWDevice_kept; eassumption.
    - unfold throw in Hrun. inversion Hrun; subst. exact Hst. }
  destruct r as [answer | message]; [exact Hst' |].
  destruct (String.eqb message "REGISTRATION_REQUIRED"); exact Hst'.
Qed.

Lemma Reachable_kept (st : Store) : Reachable st -> Kept st.
Proof.
  induction 1 as [| env dir now call st _ IH];
    [apply map_Forall_empty | now apply callTool_kept].
Qed.

End KeptByHandlers.

(** *** Two such properties *)

Lemma nextStepId_above dir s : s < nextStepId (getAllSteps dir) s.
Proof. destruct (nextStepId_spec dir s) as [(_ & Hgt & _) | (_ & Heq)]; lia. Qed.

Lemma Progressed_new now who info (st st' : Store) p :
  createNewProfile now who info st = (Ok p, st') -> Progressed p.
Proof.
  destruct (createNewProfile_eq now who info st) as (q & -> & _ & _ & _ & Hdone & _).
  intros [= <- _]. unfold Progressed. rewrite Hdone. constructor.
Qed.

Lemma Progressed_complete dir now args p :
  Progressed p ->
  resolveStep args p ∉ completedSteps p ->
  resolveStep args p = currentStep p ->
  Progressed
    (touch now
       (withProgress p (nextStepId (getAllSteps dir) (resolveStep args p))
          (completedSteps p ++ [resolveStep args p])
          (<[resolveStep args p := completionRecord now args]> (stepData p)))).
Proof.
  intros Hp _ Hcur. unfold Progressed; cbn.
  pose proof (nextStepId_above dir (resolveStep args p)) as Hlt.
  apply Forall_app. split.
  - eapply Forall_impl; [exact Hp |]. cbn. intros; lia.
  - repeat constructor. exact Hlt.
Qed.

Lemma Progressed_data now p sd :
  Progressed p ->
  Progressed (touch now (withProgress p (currentStep p) (completedSteps p) sd)).
Proof. intros Hp. exact Hp. Qed.

Lemma StronglySorted_snoc (l : list Z) s :
  StronglySorted Z.lt l -> Forall (fun c => c < s) l ->
  StronglySorted Z.lt (l ++ [s]).
Proof.
  induction 1 as [| x l Hs IH Hall]; cbn; intros Hlt.
  - repeat constructor.
  - apply Forall_cons in Hlt as [Hx Hl]. constructor; [now apply IH |].
    apply Forall_app. split; [exact Hall | now repeat constructor].
Qed.

Lemma WellFormed_new now who info (st st' : Store) p :
  createNewProfile now who info st = (Ok p, st') -> WellFormed p.
Proof.
  intros Hnew. pose proof (Progressed_new _ _ _ _ _ _ Hnew) as Hp.
  destruct (createNewProfile_eq now who info st)
    as (q & Heq & _ & _ & Hcur & Hdone & _).
  rewrite Heq in Hnew. inversion Hnew; subst q.
  repeat split; [rewrite Hcur; lia | rewrite Hdone; constructor | exact Hp].
Qed.

Lemma WellFormed_complete dir now args p :
  WellFormed p ->
  resolveStep args p ∉ completedSteps p ->
  resolveStep args p = currentStep p ->
  WellFormed
    (touch now
       (withProgress p (nextStepId (getAllSteps dir) (resolveStep args p))
          (completedSteps p ++ [resolveStep args p])
          (<[resolveStep args p := completionRecord now args]> (stepData p)))).
Proof.
  intros (Hpos & Hsorted & Hp) Hfresh Hcur.
  pose proof (nextStepId_above dir (resolveStep args p)) as Hlt.
  repeat split.
  - cbn. lia.
  - cbn. apply StronglySorted_snoc; [exact Hsorted |]. now rewrite Hcur.
  - now apply Progressed_complete.
Qed.

Lemma WellFormed_data now p sd :
  WellFormed p ->
  WellFormed (touch now (withProgress p (currentStep p) (completedSteps p) sd)).
Proof. intros Hp. exact Hp. Qed.

Lemma StronglySorted_lt_NoDup (l : list Z) : StronglySorted Z.lt l -> NoDup l.
Proof.
  induction 1 as [| x l Hs IH Hall]; constructor; [| exact IH].
  intros Hin. rewrite Forall_forall in Hall. specialize (Hall _ Hin). lia.
Qed.

(** A well-formed profile meets the invariants the specification lists. *)
Lemma WellFormed_listed p : WellFormed p -> ListedInvariants p.
Proof.
  intros (Hpos & Hsorted & Hp). repeat split.
  - exact Hpos.
  - now apply StronglySorted_lt_NoDup.
  - intros Hin. unfold Progressed in Hp. rewrite Forall_forall in Hp.
    specialize (Hp _ Hin). lia.
Qed.

(** X1.  Every profile of a data directory the server can produce is well
    formed, and so meets the listed invariants. *)
Theorem reachable_profiles_well_formed (st : Store) file p :
  Reachable st -> st !! file = Some p ->
  WellFormed p /\ ListedInvariants p.
Proof.
  intros Hreach Hfile.
  pose proof (Reachable_kept WellFormed WellFormed_new WellFormed_complete
                WellFormed_data st Hreach) as Hkept.
  pose proof (Hkept _ _ Hfile) as Hp. split; [exact Hp | now apply WellFormed_listed].
Qed.

Lemma reachable_profiles_well_formed_witness :
  Reachable janeAwaitingDevice
  /\ exists p, janeAwaitingDevice !! profileFile jane = Some p
               /\ WellFormed p /\ ListedInvariants p.
Proof.
  assert (Reachable janeAwaitingDevice) as Hreach.
  { change janeAwaitingDevice
      with (snd (callTool noEnv repositorySteps 3000 (request_saw_device sawArgs)
                   (snd (callTool noEnv repositorySteps 2000
                           (complete_step (completeArgs jane 1))
                           (snd (callTool noEnv repositorySteps 1000
                                   (get_current_step (Some jane)) ∅)))))).
    repeat constructor. }
  split; [exact Hreach |].
  destruct (janeAwaitingDevice !! profileFile jane) as [p |] eqn:Hfile;
    [| vm_compute in Hfile; discriminate].
  exists p. split; [reflexivity |].
  exact (reachable_profiles_well_formed _ _ _ Hreach Hfile).
Defined.

Lemma StoreProgressed_empty : StoreProgressed ∅.
Proof. apply map_Forall_empty. Qed.

(** C5, as the code has it.  In a data directory where every profile has its
    completed ids below its current step (the empty directory is one, and
    every handler keeps the property), a [Completed] answer leaves a stored
    profile whose new current step is not in its [completedSteps]; the
    directory has the property again. *)
Theorem current_step_not_completed env dir now args (st st' : Store)
    s cs new up total :
  StoreProgressed st ->
  handleCompleteStep env dir now args st = (Ok (Completed s cs new up total), st') ->
  exists p',
    st' !! profileFile (email p') = Some p'
    /\ currentStep p' = new
    /\ last (completedSteps p') = Some s
    /\ (currentStep p' ∉ completedSteps p')
    /\ StoreProgressed st'.
Proof.
  intros Hst Hrun.
  apply handleCompleteStep_Completed_inv in Hrun
    as (profile & st1 & Hload & _ & Hfresh & Hcur & Hnew & _ & _ & _ & ->).
  destruct (getEmployeeProfile_kept Progressed Progressed_new _ _ _ _ _ _ Hst Hload)
    as [Hst1 Hp].
  specialize (Hp _ eq_refl).
  match goal with |- context [<[_ := ?x]> _] => exists x end.
  assert (s < new) as Hlt.
  { destruct (nextStepId_spec dir s) as [(_ & Hgt & _) | (_ & Heq)]; lia. }
  assert (Forall (fun c => c < new) (completedSteps profile ++ [s])) as Hall.
  { apply Forall_app. split.
    - eapply Forall_impl; [exact Hp |]. cbn. intros; lia.
    - repeat constructor. exact Hlt. }
  repeat split.
  - apply lookup_insert_eq.
  - cbn. apply last_snoc.
  - cbn. intros Hin. rewrite Forall_forall in Hall. specialize (Hall _ Hin). lia.
  - apply map_Forall_insert_2; [exact Hall | exact Hst1].
Qed.

Lemma current_step_not_completed_witness :
  StoreProgressed janeRegistered
  /\ exists p',
      snd (handleCompleteStep noEnv repositorySteps 3000 (completeArgs jane 1)
             janeRegistered) !! profileFile (email p') = Some p'
      /\ currentStep p' = 2
      /\ last (completedSteps p') = Some 1
      /\ (currentStep p' ∉ completedSteps p')
      /\ StoreProgressed
           (snd (handleCompleteStep noEnv repositorySteps 3000 (completeArgs jane 1)
                   janeRegistered)).
Proof.
  assert (StoreProgressed janeRegistered) as Hst.
  { eapply (createNewProfile_kept Progressed Progressed_new 1000 jane None ∅);
      [apply StoreProgressed_empty | apply surjective_pairing]. }
  split; [exact Hst |].
  apply (current_step_not_completed noEnv repositorySteps 3000 (completeArgs jane 1)
           janeRegistered _ 1 (getStep repositorySteps 1) 2 (getStep repositorySteps 2) 3
           Hst).
  vm_compute. reflexivity.
Defined.

(** The claim C5 itself does not hold: [skewedProfile] meets the listed
    invariants, completing its current step 1 is answered [Completed], and
    the new current step 2 is one of the completed steps. *)
Lemma listed_invariants_do_not_suffice :
  ListedInvariants skewedProfile
  /\ exists cs up (st' : Store) p',
      handleCompleteStep noEnv repositorySteps 2000 (completeArgs jane 1) skewedStore
      = (Ok (Completed 1 cs 2 up 3), st')
      /\ st' !! profileFile jane = Some p'
      /\ currentStep p' = 2
      /\ completedSteps p' = [2; 1]
      /\ currentStep p' ∈ completedSteps p'.
Proof.
  split.
  - unfold ListedInvariants; cbn. repeat split; [| solve_mem].
    repeat constructor. solve_mem.
  - do 4 eexists. split; [vm_compute; reflexivity |].
    split; [vm_compute; reflexivity |]. cbn. repeat split. solve_mem.
Qed.

(** ** Recording a device request *)

Lemma lookup_setField key v (obj : gmap string value) k :
  setField key v obj !! k = if decide (key = k) then v else obj !! k.
Proof.
  unfold setField. destruct v; [apply lookup_insert | apply lookup_delete].
Qed.

Ltac read_field :=
  rewrite ?lookup_setField; repeat (case_decide; try congruence); try reflexivity.

(** C10.  Whatever the loaded profile is, [handleRequestSAWDevice] records
    the request under step id 2: the saved profile has [sawRequestId],
    [deviceType], [managerEmail] and [requestedAt] in [stepData[2]] (an
    entry made when there was none, its other keys kept otherwise);
    [completedSteps], [currentStep] and every other [stepData] entry are
    those of the loaded profile, whatever its current step is; the profile
    is then saved. *)
Theorem request_saw_device_frame env now args (st st1 : Store) profile :
  getEmployeeProfile env now (saw_email args) st = (Ok profile, st1) ->
  exists profile' entry,
    handleRequestSAWDevice env now args st
    = (Ok (SawRequested ("SAW-" +:+ Js.ofInt now) (deviceType args) (managerEmail args)),
       <[profileFile (email profile) := touch now profile']> st1)
    /\ completedSteps profile' = completedSteps profile
    /\ currentStep profile' = currentStep profile
    /\ (forall k, k <> 2 -> stepData profile' !! k = stepData profile !! k)
    /\ stepData profile' !! 2 = Some entry
    /\ entry !! "sawRequestId" = Some (VString ("SAW-" +:+ Js.ofInt now))
    /\ entry !! "deviceType" = VString <$> deviceType args
    /\ entry !! "managerEmail" = VString <$> managerEmail args
    /\ entry !! "requestedAt" = Some (VDate now)
    /\ (forall key,
          key ∉ ["sawRequestId"; "deviceType"; "managerEmail"; "requestedAt"] ->
          entry !! key = stepData profile !! 2 ≫= (.!! key))
    /\ (email profile', name profile', startDate profile', buddyEmail profile',
        department profile', createdAt (metadata profile'))
       = (email profile, name profile, startDate profile, buddyEmail profile,
          department profile, createdAt (metadata profile)).
Proof.
  intros Hload. unfold handleRequestSAWDevice, bind at 1. rewrite Hload.
  set (old := match stepData profile !! 2 with Some e => e | None => ∅ end).
  set (entry := setField "requestedAt" _ _).
  exists (withProgress profile (currentStep profile) (completedSteps profile)
            (<[2 := entry]> (stepData profile))), entry.
  repeat split.
  - intros k Hk. cbn. now apply lookup_insert_ne.
  - cbn. apply lookup_insert_eq.
  - unfold entry. read_field.
  - unfold entry. read_field.
  - unfold entry. read_field.
  - unfold entry. read_field.
  - intros key Hkey. unfold entry. rewrite !lookup_setField.
    repeat (case_decide; [subst; exfalso; apply Hkey; repeat constructor |]).
    unfold old. destruct (stepData profile !! 2); [reflexivity | apply lookup_empty].
Qed.

Lemma request_saw_device_frame_witness :
  getEmployeeProfile noEnv 3000 (saw_email sawArgs) janeOnStepTwo
  = (Ok (touch 2000 (withProgress janeProfile 2 [1]
                       {[ 1 := {[ "completedAt" := VDate 2000 ]} ]})),
     janeOnStepTwo)
  /\ exists profile' entry,
      janeAwaitingDevice !! profileFile jane = Some (touch 3000 profile')
      /\ currentStep profile' = 2
      /\ completedSteps profile' = [1]
      /\ stepData profile' !! 1 = Some {[ "completedAt" := VDate 2000 ]}
      /\ stepData profile' !! 2 = Some entry
      /\ entry !! "sawRequestId" = Some (VString "SAW-3000")
      /\ entry !! "deviceType" = Some (VString "SAW-Laptop").
Proof.
  assert (getEmployeeProfile noEnv 3000 (saw_email sawArgs) janeOnStepTwo
          = (Ok (touch 2000 (withProgress janeProfile 2 [1]
                               {[ 1 := {[ "completedAt" := VDate 2000 ]} ]})),
             janeOnStepTwo)) as Hload by (vm_compute; reflexivity).
  split; [exact Hload |].
  destruct (request_saw_device_frame noEnv 3000 sawArgs janeOnStepTwo janeOnStepTwo
              _ Hload)
    as (profile' & entry & Hrun & Hdone & Hcur & Hother & Hentry & Hid & Hdev & _).
  exists profile', entry. repeat split.
  - unfold janeAwaitingDevice. rewrite Hrun. apply lookup_insert_eq.
  - rewrite Hcur. reflexivity.
  - rewrite Hdone. reflexivity.
  - rewrite Hother by lia. reflexivity.
  - exact Hentry.
  - exact Hid.
  - exact Hdev.
Defined.

(** ** What a completion does to the step's record *)

(** After a [Completed] answer the record of the step is the object literal
    of the handler, whatever the record held before. *)
Lemma complete_step_record env dir now args (st st' : Store) s cs new up total :
  handleCompleteStep env dir now args st = (Ok (Completed s cs new up total), st') ->
  exists p', st' !! profileFile (email p') = Some p'
             /\ stepData p' !! s = Some (completionRecord now args).
Proof.
  intros Hrun.
  apply handleCompleteStep_Completed_inv in Hrun
    as (profile & st1 & _ & _ & _ & _ & _ & _ & _ & _ & ->).
  match goal with |- context [<[_ := ?x]> _] => exists x end.
  split; [apply lookup_insert_eq | cbn; apply lookup_insert_eq].
Qed.

Lemma completionRecord_keys now args key :
  key ∉ ["completedAt"; "notes"; "data"] ->
  completionRecord now args !! key = None.
Proof.
  intros Hkey. unfold completionRecord. rewrite !lookup_setField.
  repeat (case_decide; [subst; exfalso; apply Hkey; repeat constructor |]).
  apply lookup_empty.
Qed.

(** C1, where the code departs from it.  Step 2 is [jane]'s current step and
    [request_saw_device] has written [sawRequestId] (and three more keys)
    into [stepData[2]]; completing step 2 is answered [Completed], and the
    stored record of step 2 is then the fresh [completedAt] record: the
    [sawRequestId] written before is gone. *)
Theorem complete_step_drops_recorded_request :
  (janeAwaitingDevice !! profileFile jane ≫= fun p => stepData p !! 2)
  = Some {[ "sawRequestId" := VString "SAW-3000";
            "deviceType" := VString "SAW-Laptop";
            "managerEmail" := VString "manager@company.com";
            "requestedAt" := VDate 3000 ]}
  /\ exists st',
      handleCompleteStep noEnv repositorySteps 4000 (completeArgs jane 2)
        janeAwaitingDevice
      = (Ok (Completed 2 (getStep repositorySteps 2) 3 (getStep repositorySteps 3) 3),
         st')
      /\ (st' !! profileFile jane ≫= fun p => stepData p !! 2)
         = Some {[ "completedAt" := VDate 4000 ]}
      /\ (st' !! profileFile jane ≫= fun p => stepData p !! 2 ≫= (.!! "sawRequestId"))
         = None.
Proof.
  split; [vm_compute; reflexivity |].
  eexists. split; [vm_compute; reflexivity |].
  split; vm_compute; reflexivity.
Qed.

(** ** Starting over *)

(** [createNewProfile] never looks at the data directory: the profile it
    makes and stores is the same whatever was stored before. *)
Lemma createNewProfile_ignores_store now who info (st : Store) :
  fst (createNewProfile now who info st) = fst (createNewProfile now who info ∅).
Proof. reflexivity. Qed.

(** C2, where the code departs from it.  [jane] has completed step 1 (start
    date and creation time 1000, current step 2).  A [start_onboarding] with
    her e-mail at instant 9000 is answered with a welcome, and her stored
    profile is then a new one: start date and creation time 9000, current
    step 1, no completed step, no step data, and the name, buddy and
    department of the call. *)
Theorem start_onboarding_resets_existing_profile :
  janeOnStepTwo !! profileFile jane
  = Some {| email := jane; name := "Jane Doe"; startDate := 1000;
            buddyEmail := None; department := None;
            currentStep := 2; completedSteps := [1];
            stepData := {[ 1 := {[ "completedAt" := VDate 2000 ]} ]};
            metadata := {| createdAt := 1000; lastUpdated := 2000;
                           version := "1.0" |} |}
  /\ exists reply st',
      handleStartOnboarding noEnv repositorySteps 9000 restartArgs janeOnStepTwo
      = (Ok reply, st')
      /\ st' !! profileFile jane
         = Some {| email := jane; name := "J. Doe"; startDate := 9000;
                   buddyEmail := Some "buddy@company.com";
                   department := Some "Platform";
                   currentStep := 1; completedSteps := [];
                   stepData := ∅;
                   metadata := {| createdAt := 9000; lastUpdated := 9000;
                                  version := "1.0" |} |}.
Proof.
  split; [vm_compute; reflexivity |].
  do 2 eexists. split; vm_compute; reflexivity.
Qed.

(** ** The storage key *)

(** X4.  For an e-mail address written in lower case the lookup finds what
    the creation stored. *)
Lemma lookup_after_create_lower_case env now later who info (st st1 : Store) p :
  who <> EmptyString ->
  Js.toLowerCase who = who ->
  createNewProfile now who info st = (Ok p, st1) ->
  getEmployeeProfile env later (Some who) st1 = (Ok p, st1).
Proof.
  intros Hne Hlow Hnew.
  destruct (createNewProfile_eq now who info st) as (q & Heq & Hmail & _).
  rewrite Heq in Hnew. inversion Hnew; subst q st1.
  apply getEmployeeProfile_stored; [exact Hne |].
  rewrite Hmail, Hlow. apply lookup_insert_eq.
Qed.

(** C7, where the code departs from it.  [janeCapitals] is a valid e-mail
    address.  Its profile is stored under the lower-cased address, the
    lookup reads the file named by the address as given, finds none, and
    answers with a new default profile (name derived from the address,
    start date of the lookup), which replaces the stored one. *)
Theorem lookup_misses_profile_stored_in_lower_case :
  isValidEmail janeCapitals = true
  /\ exists stored st1 found st2,
      createNewProfile 1000 janeCapitals (Some capitalsArgs) ∅ = (Ok stored, st1)
      /\ name stored = "Jane Q. Doe" /\ startDate stored = 1000
      /\ st1 !! profileFile (Js.toLowerCase janeCapitals) = Some stored
      /\ st1 !! profileFile janeCapitals = None
      /\ getEmployeeProfile noEnv 2000 (Some janeCapitals) st1 = (Ok found, st2)
      /\ name found = "Jane Doe" /\ startDate found = 2000
      /\ st2 !! profileFile (Js.toLowerCase janeCapitals) = Some found.
Proof.
  split; [vm_compute; reflexivity |].
  do 4 eexists. repeat split; vm_compute; reflexivity.
Qed.

(** ** Loading the step documents *)

Lemma fold_markdown files steps (stepIds : gset Z) :
  fold_left loadMarkdownStep files (steps, stepIds)
  = (steps ++ markdownSteps files,
     stepIds ∪ list_to_set (map id (markdownSteps files))).
Proof.
  revert steps stepIds. induction files as [| [file data] files IH];
    intros steps stepIds; cbn [fold_left].
  - cbn. rewrite app_nil_r. f_equal. set_solver.
  - unfold markdownSteps. cbn [flat_map]. fold (markdownSteps files).
    unfold loadMarkdownStep at 2, markdownStep. cbn [fst snd].
    destruct data as [content |]; [| apply IH].
    destruct (parseStepMarkdown content file) as [step |]; [| apply IH].
    rewrite IH. cbn [app map list_to_set]. rewrite <- app_assoc. cbn [app].
    f_equal. set_solver.
Qed.

Lemma fold_html stepIds files steps :
  fold_left (loadHtmlStep stepIds) files steps = steps ++ htmlSteps stepIds files.
Proof.
  revert steps. induction files as [| [file data] files IH]; intros steps;
    cbn [fold_left].
  - cbn. now rewrite app_nil_r.
  - unfold htmlSteps. cbn [flat_map]. fold (htmlSteps stepIds files).
    unfold loadHtmlStep at 2, htmlStep. cbn [fst snd].
    destruct (decide (stepIdOf file ∈ stepIds)); [apply IH |].
    destruct data as [content |]; [| apply IH].
    destruct (parseStepHTML content file) as [step |]; [| apply IH].
    rewrite IH, <- app_assoc. reflexivity.
Qed.

Lemma loadSteps_eq files :
  loadSteps (Some files)
  = markdownSteps (List.filter isMarkdownFile files)
    ++ htmlSteps (list_to_set (map id (markdownSteps (List.filter isMarkdownFile files))))
                 (List.filter isHtmlFile files).
Proof.
  unfold loadSteps. rewrite fold_markdown. cbn [app]. rewrite fold_html.
  f_equal. f_equal. set_solver.
Qed.

Lemma markdownSteps_spec files step :
  step ∈ markdownSteps files <->
  exists file content,
    (file, Some content) ∈ files /\ parseStepMarkdown content file = Some step.
Proof.
  unfold markdownSteps. rewrite list_elem_of_In, in_flat_map. split.
  - intros ([file data] & Hin & Hstep). unfold markdownStep in Hstep. cbn in Hstep.
    destruct data as [content |]; [| inversion Hstep].
    exists file, content. rewrite list_elem_of_In. split; [exact Hin |].
    destruct Hstep as [<- | []]. reflexivity.
  - intros (file & content & Hin & Hparse). exists (file, Some content).
    rewrite <- list_elem_of_In. split; [exact Hin |].
    unfold markdownStep. cbn [fst snd]. rewrite Hparse. now left.
Qed.

Lemma htmlSteps_spec stepIds files step :
  step ∈ htmlSteps stepIds files <->
  exists file content,
    (file, Some content) ∈ files /\ (stepIdOf file ∉ stepIds)
    /\ parseStepHTML content file = Some step.
Proof.
  unfold htmlSteps. rewrite list_elem_of_In, in_flat_map. split.
  - intros ([file data] & Hin & Hstep). unfold htmlStep in Hstep. cbn [fst snd] in Hstep.
    destruct (decide (stepIdOf file ∈ stepIds)); [inversion Hstep |].
    destruct data as [content |]; [| inversion Hstep].
    exists file, content. rewrite list_elem_of_In. split; [exact Hin |].
    split; [assumption |]. destruct Hstep as [<- | []]. reflexivity.
  - intros (file & content & Hin & Hfree & Hparse). exists (file, Some content).
    rewrite <- list_elem_of_In. split; [exact Hin |].
    unfold htmlStep. cbn [fst snd]. rewrite decide_False by assumption.
    rewrite Hparse. now left.
Qed.

Lemma parseStepMarkdown_id text file step :
  parseStepMarkdown text file = Some step ->
  id step = stepIdOf file /\ isMarkdown step = true /\ content step = text.
Proof. intros [= <-]. repeat split. Qed.

Lemma parseStepHTML_id text file step :
  parseStepHTML text file = Some step ->
  id step = stepIdOf file /\ isMarkdown step = false /\ content step = text.
Proof. intros [= <-]. repeat split. Qed.

Lemma markdownSteps_isMarkdown files step :
  step ∈ markdownSteps files -> isMarkdown step = true.
Proof.
  rewrite markdownSteps_spec. intros (file & text & _ & Hparse).
  now apply parseStepMarkdown_id in Hparse.
Qed.

Lemma htmlSteps_isMarkdown stepIds files step :
  step ∈ htmlSteps stepIds files -> isMarkdown step = false /\ id step ∉ stepIds.
Proof.
  rewrite htmlSteps_spec. intros (file & text & _ & Hfree & Hparse).
  apply parseStepHTML_id in Hparse as (-> & -> & _). now split.
Qed.

Lemma markdownSteps_ids files i :
  i ∈ map id (markdownSteps files) -> i ∈ fileIds files.
Proof.
  intros Hi. apply list_elem_of_fmap in Hi as (step & -> & Hstep).
  apply markdownSteps_spec in Hstep as (file & text & Hin & Hparse).
  apply parseStepMarkdown_id in Hparse as (-> & _).
  unfold fileIds. apply list_elem_of_fmap. exists (file, Some text). now split.
Qed.

Lemma htmlSteps_ids stepIds files i :
  i ∈ map id (htmlSteps stepIds files) -> i ∈ fileIds files.
Proof.
  intros Hi. apply list_elem_of_fmap in Hi as (step & -> & Hstep).
  apply htmlSteps_spec in Hstep as (file & text & Hin & _ & Hparse).
  apply parseStepHTML_id in Hparse as (-> & _).
  unfold fileIds. apply list_elem_of_fmap. exists (file, Some text). now split.
Qed.

Lemma markdownSteps_NoDup files :
  NoDup (fileIds files) -> NoDup (map id (markdownSteps files)).
Proof.
  induction files as [| [file data] files IH]; cbn; [constructor |].
  rewrite NoDup_cons. intros [Hfresh Hrest]. specialize (IH Hrest).
  unfold markdownSteps. cbn [flat_map]. fold (markdownSteps files).
  unfold markdownStep. cbn [fst snd].
  destruct data as [text |]; [| exact IH].
  destruct (parseStepMarkdown text file) as [step |] eqn:Hparse; [| exact IH].
  apply parseStepMarkdown_id in Hparse as (Hid & _).
  cbn. apply NoDup_cons. split; [| exact IH].
  rewrite Hid. intros Hin. apply Hfresh. now apply markdownSteps_ids.
Qed.

Lemma htmlSteps_NoDup stepIds files :
  NoDup (fileIds files) -> NoDup (map id (htmlSteps stepIds files)).
Proof.
  induction files as [| [file data] files IH]; cbn; [constructor |].
  rewrite NoDup_cons. intros [Hfresh Hrest]. specialize (IH Hrest).
  unfold htmlSteps. cbn [flat_map]. fold (htmlSteps stepIds files).
  unfold htmlStep. cbn [fst snd].
  destruct (decide (stepIdOf file ∈ stepIds)); [exact IH |].
  destruct data as [text |]; [| exact IH].
  destruct (parseStepHTML text file) as [step |] eqn:Hparse; [| exact IH].
  apply parseStepHTML_id in Hparse as (Hid & _).
  cbn. apply NoDup_cons. split; [| exact IH].
  rewrite Hid. intros Hin. apply Hfresh. now apply htmlSteps_ids with stepIds.
Qed.

Lemma elem_of_getAllSteps dir step :
  step ∈ getAllSteps dir <-> step ∈ loadSteps dir.
Proof.
  unfold getAllSteps, loadConfiguration. now rewrite sortById_perm.
Qed.

Lemma elem_of_filter_file (keep : string * option string -> bool) files entry :
  entry ∈ List.filter keep files <-> entry ∈ files /\ keep entry = true.
Proof. rewrite !list_elem_of_In. apply filter_In. Qed.

Lemma NoDup_same_id (l : list OnboardingStep) a b :
  NoDup (map id l) -> a ∈ l -> b ∈ l -> id a = id b -> a = b.
Proof.
  induction l as [| x l IH]; cbn; [intros _ Ha; inversion Ha |].
  rewrite NoDup_cons. intros [Hx Hl] Ha Hb Heq.
  apply elem_of_cons in Ha as [-> | Ha]; apply elem_of_cons in Hb as [-> | Hb].
  - reflexivity.
  - exfalso. apply Hx. rewrite Heq. apply list_elem_of_fmap. eauto.
  - exfalso. apply Hx. rewrite <- Heq. apply list_elem_of_fmap. eauto.
  - now apply IH.
Qed.

(** C6, as the code has it.  For every steps directory, [getAllSteps]
    - is sorted ascending by id and holds exactly the records the two loops
      accepted, each parsed from a readable Markdown or HTML document of the
      directory;
    - never holds an HTML record with the id of one of its Markdown records:
      for a readable Markdown document the record parsed from it is there,
      and every record with the id of its file name is a Markdown record
      (an HTML document with that id is left out, not merged);
    - holds at most one record per id when no two Markdown file names and
      no two HTML file names carry the same id; the single record with the
      id of a readable Markdown document is then the one parsed from it. *)
Theorem load_all_steps_markdown_preferred dir :
  StronglySorted byId (getAllSteps dir)
  /\ Permutation (getAllSteps dir) (loadSteps dir)
  /\ (forall files step, dir = Some files -> step ∈ getAllSteps dir ->
        exists file text,
          (file, Some text) ∈ files
          /\ ((Js.endsWith ".md" file = true /\ parseStepMarkdown text file = Some step)
              \/ (Js.endsWith ".html" file = true /\ parseStepHTML text file = Some step)))
  /\ (forall a b, a ∈ getAllSteps dir -> b ∈ getAllSteps dir ->
        isMarkdown a = true -> isMarkdown b = false -> id a <> id b)
  /\ (forall files file text, dir = Some files ->
        (file, Some text) ∈ files -> Js.endsWith ".md" file = true ->
        exists step,
          parseStepMarkdown text file = Some step
          /\ step ∈ getAllSteps dir
          /\ forall b, b ∈ getAllSteps dir -> id b = stepIdOf file -> isMarkdown b = true)
  /\ (forall files, dir = Some files ->
        NoDup (fileIds (List.filter isMarkdownFile files)) ->
        NoDup (fileIds (List.filter isHtmlFile files)) ->
        NoDup (map id (getAllSteps dir))
        /\ forall file text b,
            (file, Some text) ∈ files -> Js.endsWith ".md" file = true ->
            b ∈ getAllSteps dir -> id b = stepIdOf file ->
            parseStepMarkdown text file = Some b).
Proof.
  assert (Hsep : forall a b, a ∈ getAllSteps dir -> b ∈ getAllSteps dir ->
                   isMarkdown a = true -> isMarkdown b = false -> id a <> id b).
  { intros a b Ha Hb Hma Hmb. rewrite elem_of_getAllSteps in Ha, Hb.
    destruct dir as [files |]; [| inversion Ha].
    rewrite loadSteps_eq in Ha, Hb. rewrite elem_of_app in Ha, Hb.
    destruct Ha as [Ha | Ha];
      [| apply htmlSteps_isMarkdown in Ha as [Ha _]; congruence].
    destruct Hb as [Hb | Hb];
      [apply markdownSteps_isMarkdown in Hb; congruence |].
    apply htmlSteps_isMarkdown in Hb as [_ Hb]. intros Heq. apply Hb.
    rewrite <- Heq. apply elem_of_list_to_set, list_elem_of_fmap. eauto. }
  assert (Hmd : forall files file text, dir = Some files ->
                  (file, Some text) ∈ files -> Js.endsWith ".md" file = true ->
                  exists step,
                    parseStepMarkdown text file = Some step
                    /\ step ∈ getAllSteps dir
                    /\ forall b, b ∈ getAllSteps dir -> id b = stepIdOf file ->
                                 isMarkdown b = true).
  { intros files file text -> Hin Hext.
    destruct (parseStepMarkdown text file) as [step |] eqn:Hparse; [| discriminate].
    exists step. split; [reflexivity |].
    assert (step ∈ getAllSteps (Some files)) as Hstep.
    { rewrite elem_of_getAllSteps, loadSteps_eq, elem_of_app. left.
      apply markdownSteps_spec. exists file, text. split; [| exact Hparse].
      apply elem_of_filter_file. split; [exact Hin | exact Hext]. }
    split; [exact Hstep |]. intros b Hb Hid.
    destruct (isMarkdown b) eqn:Hmb; [reflexivity | exfalso].
    apply parseStepMarkdown_id in Hparse as (Hsid & Hsm & _).
    apply (Hsep step b Hstep Hb Hsm Hmb). congruence. }
  split; [apply sortById_sorted |].
  split; [apply sortById_perm |].
  split; [| split; [exact Hsep | split; [exact Hmd |]]].
  - intros files step -> Hstep.
    rewrite elem_of_getAllSteps, loadSteps_eq, elem_of_app in Hstep.
    destruct Hstep as [Hstep | Hstep].
    + apply markdownSteps_spec in Hstep as (file & text & Hin & Hparse).
      apply elem_of_filter_file in Hin as [Hin Hext].
      exists file, text. split; [exact Hin |]. left. now split.
    + apply htmlSteps_spec in Hstep as (file & text & Hin & _ & Hparse).
      apply elem_of_filter_file in Hin as [Hin Hext].
      exists file, text. split; [exact Hin |]. right. now split.
  - intros files Hdir Hmdfiles Hhtmlfiles.
    assert (NoDup (map id (getAllSteps dir))) as Hnodup.
    { unfold getAllSteps, loadConfiguration. rewrite sortById_perm.
      subst dir. rewrite loadSteps_eq, map_app. apply NoDup_app. repeat split.
      - now apply markdownSteps_NoDup.
      - intros i Hmdi Hhtmli.
        apply list_elem_of_fmap in Hhtmli as (b & -> & Hb).
        apply htmlSteps_isMarkdown in Hb as [_ Hb]. apply Hb.
        now apply elem_of_list_to_set.
      - now apply htmlSteps_NoDup. }
    split; [exact Hnodup |].
    intros file text b Hin Hext Hb Hid.
    destruct (Hmd files file text Hdir Hin Hext) as (step & Hparse & Hstep & _).
    rewrite Hparse. f_equal.
    apply (NoDup_same_id (getAllSteps dir)); try assumption.
    apply parseStepMarkdown_id in Hparse as (-> & _). now symmetry.
Qed.

Lemma load_all_steps_markdown_preferred_witness :
  (exists step,
      parseStepMarkdown firstPrDoc "step-2-x.md" = Some step
      /\ step ∈ getAllSteps mixedFormats
      /\ forall b, b ∈ getAllSteps mixedFormats -> id b = stepIdOf "step-2-x.md" ->
                   isMarkdown b = true)
  /\ NoDup (map id (getAllSteps mixedFormats))
  /\ map (fun step => (id step, isMarkdown step)) (getAllSteps mixedFormats)
     = [(1, false); (2, true)].
Proof.
  pose proof (load_all_steps_markdown_preferred mixedFormats)
    as (_ & _ & _ & _ & Hmd & Hone).
  split; [| split].
  - apply (Hmd _ "step-2-x.md" firstPrDoc eq_refl).
    + unfold mixedFormats. rewrite list_elem_of_In. cbn. tauto.
    + vm_compute. reflexivity.
  - apply (Hone _ eq_refl); vm_compute; repeat constructor;
      rewrite ?list_elem_of_In; cbn; lia.
  - vm_compute. reflexivity.
Defined.

(** The claim C6 itself does not hold: two Markdown documents whose file
    names carry the id 1 give two records with the id 1. *)
Lemma two_markdown_documents_share_an_id :
  map (fun step => (id step, isMarkdown step)) (getAllSteps twoDraftsOfStepOne)
  = [(1, true); (1, true)].
Proof. vm_compute. reflexivity. Qed.

(** ** The required flag of a Markdown document *)

(** C8, as the code has it.  For every Markdown document the parser gives a
    step.  Its required flag is [true] when the document has no header
    line.  When it has one, the flag tells whether the label the parser
    reads from a header line (the first one, [headerLabel]) contains, in
    lower case, the word required.  So a document without header line and
    one with the label Required Step are required, and documents with the
    labels Optional Step or Mandatory are not. *)
Theorem markdown_required_flag :
  (forall text filename,
      exists step,
        parseStepMarkdown text filename = Some step
        /\ ((forall label, ~ HeaderLine text label) -> required step = true)
        /\ ((exists label, HeaderLine text label) ->
            exists label,
              HeaderLine text label
              /\ headerLabel text = Some label
              /\ required step = Js.includes "required" (Js.toLowerCase label)))
  /\ (headerLabel plainDoc = None
      /\ required <$> parseStepMarkdown plainDoc "step-1-welcome.md" = Some true)
  /\ (headerLabel firstPrDoc = Some "Required Step"
      /\ required <$> parseStepMarkdown firstPrDoc "step-2-first-pr.md" = Some true)
  /\ (headerLabel projectResourcesDoc = Some "Optional Step"
      /\ required <$> parseStepMarkdown projectResourcesDoc
                        "step-1-project-resources.md" = Some false)
  /\ (headerLabel mandatoryDoc = Some "Mandatory"
      /\ required <$> parseStepMarkdown mandatoryDoc "step-2-security.md" = Some false).
Proof.
  split.
  - intros text filename. eexists. split; [reflexivity |]. cbn [required].
    split.
    + intros Hno. apply headerLabel_None in Hno. now rewrite Hno.
    + intros [label Hline].
      destruct (headerLabel_complete _ _ Hline) as [first Hfirst].
      exists first. split; [now apply headerLabel_sound |].
      split; [exact Hfirst | now rewrite Hfirst].
  - repeat split; vm_compute; reflexivity.
Qed.

Lemma markdown_required_flag_witness :
  HeaderLine mandatoryDoc "Mandatory"
  /\ exists step label,
      parseStepMarkdown mandatoryDoc "step-2-security.md" = Some step
      /\ HeaderLine mandatoryDoc label
      /\ headerLabel mandatoryDoc = Some label
      /\ required step = Js.includes "required" (Js.toLowerCase label).
Proof.
  assert (HeaderLine mandatoryDoc "Mandatory") as Hline
      by (apply headerLabel_sound; vm_compute; reflexivity).
  split; [exact Hline |].
  destruct (proj1 markdown_required_flag mandatoryDoc "step-2-security.md")
    as (step & Hparse & _ & Hflag).
  destruct (Hflag (ex_intro _ _ Hline)) as (label & Hlabel & Hfirst & Hreq).
  exists step, label. repeat split; assumption.
Defined.

(** The claim C8 itself does not hold: [mandatoryDoc] has a header line, the
    label read from it is Mandatory, which contains no optional marker, and
    the document parses as not required. *)
Lemma mandatory_label_is_not_required :
  headerLabel mandatoryDoc = Some "Mandatory"
  /\ Js.includes "optional" (Js.toLowerCase "Mandatory") = false
  /\ required <$> parseStepMarkdown mandatoryDoc "step-2-security.md" = Some false.
Proof. repeat split; vm_compute; reflexivity. Qed.

(** ** The display name *)

Lemma includes_char c a s :
  Js.includes (String c EmptyString) (String a s)
  = Ascii.eqb c a || Js.includes (String c EmptyString) s.
Proof. cbn. now rewrite andb_true_r. Qed.

Lemma splitEither_without_underscore s :
  Js.includes "_" s = false -> splitEither s = Js.split "." s.
Proof.
  induction s as [| a s IH]; [reflexivity |].
  rewrite includes_char. intros Hno. apply orb_false_elim in Hno as [Ha Hs].
  cbn [splitEither Js.split]. rewrite (Ascii.eqb_sym a "_"), Ha, orb_false_r.
  rewrite (IH Hs). reflexivity.
Qed.

Lemma splitEither_without_dot s :
  Js.includes "." s = false -> splitEither s = Js.split "_" s.
Proof.
  induction s as [| a s IH]; [reflexivity |].
  rewrite includes_char. intros Hno. apply orb_false_elim in Hno as [Ha Hs].
  cbn [splitEither Js.split]. rewrite (Ascii.eqb_sym a "."), Ha, orb_false_l.
  rewrite (IH Hs). reflexivity.
Qed.

Lemma split_without_separator c s :
  Js.includes (String c EmptyString) s = false -> Js.split c s = [s].
Proof.
  induction s as [| a s IH]; [reflexivity |].
  rewrite includes_char. intros Hno. apply orb_false_elim in Hno as [Ha Hs].
  cbn [Js.split]. rewrite (Ascii.eqb_sym a c), Ha, (IH Hs). reflexivity.
Qed.

(** C9, as the code has it.  A profile created without a name gets the name
    derived from its e-mail address.  The derived name splits the local part on
    [.] when it contains one, otherwise on [_] when it contains one, and is
    the capitalized local part otherwise; each segment is capitalized
    (first letter upper case, the rest lower case) and the segments are
    joined with a space.  Unless the local part contains both separators,
    this is the name the specification words.  The three addresses of the
    specification give Jane Doe, Jane Doe and Jdoe. *)
Theorem display_name_from_email :
  (forall now email info (st : Store),
      Js.truthy (info ≫= sa_name) = None ->
      exists p st',
        createNewProfile now email info st = (Ok p, st')
        /\ name p = extractNameFromEmail email)
  /\ (forall email,
      let local := localPart email in
      extractNameFromEmail email
      = (if Js.includes "." local
         then Js.join " " (map capitalize (Js.split "." local))
         else if Js.includes "_" local
              then Js.join " " (map capitalize (Js.split "_" local))
              else capitalize local)
      /\ (Js.includes "." local = false \/ Js.includes "_" local = false ->
          extractNameFromEmail email = nameBySpec email))
  /\ extractNameFromEmail "jane.doe@company.com" = "Jane Doe"
  /\ extractNameFromEmail "jane_doe@company.com" = "Jane Doe"
  /\ extractNameFromEmail "jdoe@company.com" = "Jdoe".
Proof.
  split.
  { intros now email info st Hname. do 2 eexists. split; [reflexivity |].
    cbn [name touch]. now rewrite Hname. }
  split; [| repeat split; vm_compute; reflexivity].
  intros email local. split; [reflexivity |].
  unfold extractNameFromEmail, nameBySpec. fold local.
  destruct (Js.includes "." local) eqn:Hdot;
    destruct (Js.includes "_" local) eqn:Hunder; intros [H | H]; try discriminate.
  - now rewrite splitEither_without_underscore.
  - now rewrite splitEither_without_dot.
  - rewrite splitEither_without_dot, split_without_separator by assumption.
    reflexivity.
  - rewrite splitEither_without_dot, split_without_separator by assumption.
    reflexivity.
Qed.

Lemma display_name_from_email_witness :
  Js.includes "." (localPart "jane_doe@company.com") = false
  /\ extractNameFromEmail "jane_doe@company.com"
     = nameBySpec "jane_doe@company.com".
Proof.
  assert (Js.includes "." (localPart "jane_doe@company.com") = false) as Hdot
      by (vm_compute; reflexivity).
  split; [exact Hdot |].
  exact (proj2 (proj1 (proj2 display_name_from_email) "jane_doe@company.com")
               (or_introl Hdot)).
Defined.

(** The claim C9 itself does not hold for a local part with both
    separators: the code splits on the dot only. *)
Lemma mixed_separators_split_on_dot_only :
  extractNameFromEmail "jane.doe_smith@company.com" = "Jane Doe_smith"
  /\ nameBySpec "jane.doe_smith@company.com" = "Jane Doe Smith".
Proof. split; vm_compute; reflexivity. Qed.

(** ** Further properties of the specification *)

(** X2.  Completing an already completed step again is answered
    [AlreadyCompleted] and changes nothing: after a [Completed] answer for
    the step [s] of a stored profile, the same request finds [s] in
    [completedSteps] and leaves the data directory as it is. *)
Theorem complete_step_twice env dir t1 t2 who n1 d1 n2 d2 (st st1 : Store) p
    s cs new up total :
  who <> EmptyString -> s <> 0 ->
  st !! profileFile who = Some p -> email p = who ->
  handleCompleteStep env dir t1 (mkCompleteArgs (Some s) (Some who) n1 d1) st
  = (Ok (Completed s cs new up total), st1) ->
  handleCompleteStep env dir t2 (mkCompleteArgs (Some s) (Some who) n2 d2) st1
  = (Ok (AlreadyCompleted s), st1).
Proof.
  intros Hne Hs Hfile Hmail Hrun.
  apply handleCompleteStep_Completed_inv in Hrun
    as (loaded & st0 & Hload & _ & _ & _ & _ & _ & _ & _ & ->).
  cbn [cs_email] in Hload.
  rewrite (getEmployeeProfile_stored env t1 who st p Hne Hfile) in Hload.
  inversion Hload; subst loaded st0. rewrite Hmail.
  set (saved := touch t1 _). set (st1 := <[profileFile who := saved]> st).
  pose proof (getEmployeeProfile_stored env t2 who st1 saved Hne
                ltac:(apply lookup_insert_eq)) as Hload2.
  rewrite (handleCompleteStep_eq env dir t2 (mkCompleteArgs (Some s) (Some who) n2 d2)
             st1 st1 saved Hload2). cbv zeta.
  assert (resolveStep (mkCompleteArgs (Some s) (Some who) n2 d2) saved = s) as ->.
  { unfold resolveStep; cbn. apply Z.eqb_neq in Hs. now rewrite Hs. }
  assert (existsb (Z.eqb s) (completedSteps saved) = true) as ->; [| reflexivity].
  apply includes_spec. cbn. apply elem_of_app. right. now left.
Qed.

Lemma complete_step_twice_witness :
  handleCompleteStep noEnv repositorySteps 2500 (completeArgs jane 1) janeOnStepTwo
  = (Ok (AlreadyCompleted 1), janeOnStepTwo).
Proof.
  apply (complete_step_twice noEnv repositorySteps 2000 2500 jane None None None None
           janeRegistered janeOnStepTwo janeProfile 1
           (getStep repositorySteps 1) 2 (getStep repositorySteps 2) 3);
    first [discriminate | vm_compute; reflexivity].
Defined.

(** X5.  Without step documents there are no steps: a missing steps directory
    and an empty one both give the empty list, and [getStep] finds nothing. *)
Theorem no_documents_no_steps :
  getAllSteps None = [] /\ getAllSteps (Some []) = []
  /\ forall stepId, getStep None stepId = None /\ getStep (Some []) stepId = None.
Proof. repeat split. Qed.

Lemma lookup_after_create_lower_case_witness :
  getEmployeeProfile noEnv 2000 (Some jane) janeRegistered
  = (Ok janeProfile, janeRegistered).
Proof.
  apply (lookup_after_create_lower_case noEnv 1000 2000 jane None ∅);
    first [discriminate | vm_compute; reflexivity].
Defined.

(** ** One write for each call *)

Lemma createNewProfile_fresh now who info (st : Store) :
  exists p,
    createNewProfile now who info st = (Ok p, <[profileFile (email p) := p]> st)
    /\ Fresh now p /\ email p = Js.toLowerCase who.
Proof. eexists. split; [reflexivity |]. repeat split. Qed.

Lemma Evolved_email now q p' : Evolved now q p' -> email p' = email q.
Proof. intros [-> | ((H & _) & _)]; [reflexivity | exact H]. Qed.

Lemma Fresh_lastUpdated now q : Fresh now q -> lastUpdated (metadata q) = now.
Proof. intros (_ & _ & _ & _ & ->). reflexivity. Qed.

(** [getEmployeeProfile] hands on a stored profile and writes nothing, or
    makes, stores and hands on a new one, or throws and writes nothing. *)
Lemma getEmployeeProfile_frame env now e (st st1 : Store) r :
  getEmployeeProfile env now e st = (r, st1) ->
  (st1 = st /\ forall p, r = Ok p -> exists who, st !! profileFile who = Some p)
  \/ (exists p, r = Ok p /\ st1 = <[profileFile (email p) := p]> st /\ Fresh now p).
Proof.
  intros Hload. apply getEmployeeProfile_store in Hload as [H | (who & Hnew)];
    [now left | right].
  destruct (createNewProfile_fresh now who None st) as (p & Heq & Hfresh & _).
  rewrite Heq in Hnew. inversion Hnew; subst. eauto.
Qed.

Lemma loaded_saved env now e (st st1 : Store) profile p' :
  getEmployeeProfile env now e st = (Ok profile, st1) ->
  Evolved now profile p' -> lastUpdated (metadata p') = now ->
  WroteAtMostOne now st (<[profileFile (email profile) := p']> st1).
Proof.
  intros Hload Hev Hnow. right. exists profile, p'.
  rewrite <- (Evolved_email _ _ _ Hev).
  apply getEmployeeProfile_frame in Hload as [(-> & Hfile) | (p & [= <-] & -> & Hf)].
  - repeat split; [left; now apply Hfile | exact Hev | exact Hnow].
  - rewrite (Evolved_email _ _ _ Hev). rewrite insert_insert_eq.
    rewrite <- (Evolved_email _ _ _ Hev). repeat split; [now right | exact Hev | exact Hnow].
Qed.

Lemma loaded_only env now e (st st1 : Store) r :
  getEmployeeProfile env now e st = (r, st1) -> WroteAtMostOne now st st1.
Proof.
  intros Hload.
  apply getEmployeeProfile_frame in Hload as [(-> & _) | (p & _ & -> & Hf)];
    [now left | right].
  exists p, p. repeat split; [now right | now left | now apply Fresh_lastUpdated].
Qed.

Lemma created_only now who info (st st1 : Store) r :
  createNewProfile now who info st = (r, st1) -> WroteAtMostOne now st st1.
Proof.
  destruct (createNewProfile_fresh now who info st) as (p & -> & Hfresh & _).
  intros [= <- <-]. right.
  exists p, p. repeat split; [now right | now left | now apply Fresh_lastUpdated].
Qed.

Lemma handleCompleteStep_frame env dir now args (st st' : Store) r :
  handleCompleteStep env dir now args st = (r, st') -> WroteAtMostOne now st st'.
Proof.
  destruct (getEmployeeProfile env now (cs_email args) st)
    as [[profile | msg] st1] eqn:Hload.
  - rewrite (handleCompleteStep_eq env dir now args st st1 profile Hload). cbv zeta.
    destruct (existsb _ (completedSteps profile)) eqn:Hin;
      [intros [= <- <-]; eapply loaded_only; eassumption |].
    destruct (resolveStep args profile =? currentStep profile) eqn:Hcur; cbn [negb];
      [| intros [= <- <-]; eapply loaded_only; eassumption].
    apply Z.eqb_eq in Hcur. intros [= <- <-].
    eapply loaded_saved; [eassumption | | reflexivity].
    right. split; [repeat split |]. split; [reflexivity |]. left.
    rewrite Hcur. repeat split; cbn.
    + rewrite <- Hcur. apply nextStepId_above.
    + intros k Hk. now apply lookup_insert_ne.
  - unfold handleCompleteStep, bind. rewrite Hload. intros [= <- <-].
    eapply loaded_only; eassumption.
Qed.

Lemma handleRequestSAWDevice_frame env now args (st st' : Store) r :
  handleRequestSAWDevice env now args st = (r, st') -> WroteAtMostOne now st st'.
Proof.
  unfold handleRequestSAWDevice, bind at 1.
  destruct (getEmployeeProfile env now (saw_email args) st)
    as [[profile | msg] st1] eqn:Hload.
  - unfold bind, ret. rewrite saveEmployeeProfile_eq. intros [= <- <-].
    eapply loaded_saved; [eassumption | | reflexivity].
    right. split; [repeat split |]. split; [reflexivity |]. right.
    repeat split. intros k Hk. cbn. now apply lookup_insert_ne.
  - intros [= <- <-]. eapply loaded_only; eassumption.
Qed.

Lemma readOnly_frame env now e (st st' : Store) {A} (k : EmployeeProfile -> A) r :
  (let* profile := getEmployeeProfile env now e in ret (k profile)) st = (r, st') ->
  WroteAtMostOne now st st'.
Proof.
  unfold bind.
  destruct (getEmployeeProfile env now e st) as [[profile | msg] st1] eqn:Hload;
    unfold ret; intros [= <- <-]; eapply loaded_only; eassumption.
Qed.

Lemma handleStartOnboarding_frame env dir now args (st st' : Store) r :
  handleStartOnboarding env dir now args st = (r, st') -> WroteAtMostOne now st st'.
Proof.
  unfold handleStartOnboarding, bind.
  destruct (Js.truthy (sa_email args)) as [e |].
  - destruct (createNewProfile now e (Some args) st) as [[p | msg] st1] eqn:Hnew;
      unfold ret; intros [= <- <-]; eapply created_only; eassumption.
  - destruct (getEmployeeProfile env now None st) as [[p | msg] st1] eqn:Hload;
      unfold ret; intros [= <- <-]; eapply loaded_only; eassumption.
Qed.

Lemma handleRegisterEmployee_frame now args (st st' : Store) r :
  handleRegisterEmployee now args st = (r, st') -> WroteAtMostOne now st st'.
Proof.
  unfold handleRegisterEmployee.
  destruct (Js.truthy (sa_email args)) as [e |];
    [destruct (Js.truthy (sa_name args)) |]; try (intros [= <- <-]; now left).
  unfold bind.
  destruct (createNewProfile now e (Some args) st) as [[p | msg] st1] eqn:Hnew;
    unfold ret; intros [= <- <-]; eapply created_only; eassumption.
Qed.

Lemma callTool_frame env dir now call (st : Store) :
  WroteAtMostOne now st (snd (callTool env dir now call st)).
Proof.
  unfold callTool.
  match goal with
  | |- context [match ?h st with _ => _ end] =>
      destruct (h st) as [r st'] eqn:Hrun
  end.
  assert (WroteAtMostOne now st st') as Hst'.
  { destruct call as [args | e | args | e | | args | args | name]; cbn in Hrun.
    - eapply handleStartOnboarding_frame; eassumption.
    - eapply (readOnly_frame env now e st st'
                (fun profile => CurrentStep profile (getStep dir (currentStep profile))
                                            (length (getAllSteps dir)))).
      exact Hrun.
    - eapply handleCompleteStep_frame; eassumption.
    - eapply (readOnly_frame env now e st st'
                (fun profile => Progress profile (getAllSteps dir))).
      exact Hrun.
    - unfold handleGetAllSteps, ret in Hrun. inversion Hrun; subst. now left.
    - eapply handleRegisterEmployee_frame; eassumption.
    - eapply handleRequestSAWDevice_frame; eassumption.
    - unfold throw in Hrun. inversion Hrun; subst. now left. }
  destruct r as [answer | message]; [exact Hst' |].
  destruct (String.eqb message "REGISTRATION_REQUIRED"); exact Hst'.
Qed.


(** ** Where the profiles are stored *)






Lemma WroteAtMostOne_filed now (st st' : Store) :
  WroteAtMostOne now st st' -> FiledUnderAddress st -> FiledUnderAddress st'.
Proof.
  intros [-> | (q & p' & -> & _)] Hst; [exact Hst |].
  intros file p. destruct (decide (profileFile (email p') = file)) as [<- | Hne].
  - rewrite lookup_insert_eq. now intros [= <-].
  - rewrite lookup_insert_ne by exact Hne. apply Hst.
Qed.

Lemma Reachable_filed (st : Store) : Reachable st -> FiledUnderAddress st.
Proof.
  induction 1 as [| env dir now call st _ IH].
  - intros file p Hfile. now rewrite lookup_empty in Hfile.
  - eapply WroteAtMostOne_filed; [apply callTool_frame | exact IH].
Qed.

Lemma profileFile_inj a b : profileFile a = profileFile b -> a = b.
Proof.
  unfold profileFile. revert b. induction a as [| x a IH]; intros [| y b] H.
  - reflexivity.
  - exfalso. apply (f_equal String.length) in H.
    rewrite append_nil_l, length_append in H. cbn in H. lia.
  - exfalso. apply (f_equal String.length) in H.
    rewrite append_nil_l, length_append in H. cbn in H. lia.
  - rewrite !append_cons in H. injection H as -> H. f_equal. now apply IH.
Qed.



(** ** What a tool call makes of a stored profile *)

(** X9.  What one tool call can make of a stored profile, in a data
    directory the server produced.  The profile found in the file after the
    call is made from the stored one, or from a new one that took its place
    (current step 1, nothing completed, created at the instant of the
    call); and it is that profile as it was, or that profile with its
    current step completed (the step appended to [completedSteps], the
    current step moved up, only the record of that step changed), or that
    profile with only the record of step 2 changed.  The address, the name,
    the buddy, the department, the start date and the creation date
    stay. *)
Theorem tool_call_profile_transition env dir now call (st : Store) file p p' :
  Reachable st ->
  st !! file = Some p ->
  snd (callTool env dir now call st) !! file = Some p' ->
  exists q, (q = p \/ Fresh now q) /\ Evolved now q p'.
Proof.
  intros Hreach Hfile Hfile'. pose proof (Reachable_filed st Hreach) as Hfiled.
  destruct (callTool_frame env dir now call st)
    as [Heq | (q & w & Heq & Hq & Hev & _)]; rewrite Heq in Hfile'.
  - exists p. split; [now left |]. left. congruence.
  - destruct (decide (profileFile (email w) = file)) as [<- | Hne].
    + rewrite lookup_insert_eq in Hfile'. injection Hfile' as ->.
      exists q. split; [| exact Hev]. destruct Hq as [[who Hq] | Hq]; [left | now right].
      pose proof (Hfiled _ _ Hq) as Hwho.
      rewrite (Evolved_email _ _ _ Hev), <- Hwho, Hq in Hfile. congruence.
    + rewrite lookup_insert_ne in Hfile' by exact Hne.
      exists p. split; [now left |]. left. congruence.
Qed.

Lemma janeOnStepTwo_reachable : Reachable janeOnStepTwo.
Proof.
  change janeOnStepTwo
    with (snd (callTool noEnv repositorySteps 2000
                 (complete_step (completeArgs jane 1))
                 (snd (callTool noEnv repositorySteps 1000
                         (get_current_step (Some jane)) ∅)))).
  repeat constructor.
Qed.

Lemma tool_call_profile_transition_witness :
  exists p p' q,
    janeOnStepTwo !! profileFile jane = Some p
    /\ janeAwaitingDevice !! profileFile jane = Some p'
    /\ (q = p \/ Fresh 3000 q) /\ Evolved 3000 q p'.
Proof.
  destruct (janeOnStepTwo !! profileFile jane) as [p |] eqn:Hfile;
    [| vm_compute in Hfile; discriminate].
  destruct (janeAwaitingDevice !! profileFile jane) as [p' |] eqn:Hfile';
    [| vm_compute in Hfile'; discriminate].
  destruct (tool_call_profile_transition noEnv repositorySteps 3000
              (request_saw_device sawArgs) janeOnStepTwo (profileFile jane) p p'
              janeOnStepTwo_reachable Hfile Hfile') as (q & Hq & Hev).
  exists p, p', q. auto.
Defined.

(** ** The answer to a completion *)

(** X10.  What a [Completed] answer shows.  No upcoming step is shown (the
    congratulation is) exactly when no configured step id lies above the
    completed one, and the new current step is then the completed id plus
    one; otherwise the upcoming step is a configured step, its id is the new
    current step, it lies above the completed id and no configured id lies
    in between.  The completed step is shown exactly when its id is
    configured, and the total is the number of configured steps. *)
Theorem complete_step_upcoming env dir now args (st st' : Store) s cs new up total :
  handleCompleteStep env dir now args st = (Ok (Completed s cs new up total), st') ->
  let ids := map id (getAllSteps dir) in
  (up = None <-> forall i, i ∈ ids -> i <= s)
  /\ (forall step, up = Some step ->
        id step = new /\ s < new /\ step ∈ getAllSteps dir
        /\ forall i, i ∈ ids -> s < i -> new <= i)
  /\ (up = None -> new = s + 1)
  /\ (cs = None <-> s ∉ ids)
  /\ (forall step, cs = Some step -> id step = s /\ step ∈ getAllSteps dir)
  /\ total = length (getAllSteps dir).
Proof.
  intros Hrun ids.
  apply handleCompleteStep_Completed_inv in Hrun
    as (profile & st1 & _ & _ & _ & _ & -> & -> & -> & -> & _).
  pose proof (nextStepId_spec dir s) as Hnext. fold ids in Hnext.
  set (new := nextStepId (getAllSteps dir) s) in *.
  assert (Hfound : forall k step, getStep dir k = Some step ->
                                  id step = k /\ step ∈ getAllSteps dir).
  { intros k step Hk. unfold getStep in Hk. apply find_some in Hk as [Hin Hid].
    apply Z.eqb_eq in Hid. now rewrite list_elem_of_In. }
  assert (Hnone : forall k, getStep dir k = None <-> k ∉ ids).
  { intros k. split.
    - intros Hk Hin. destruct (find_id_Some (getAllSteps dir) k Hin) as (x & Hx & _).
      unfold getStep in Hk. unfold getAllSteps in Hx. congruence.
    - intros Hk. now apply (find_id_None (getAllSteps dir)). }
  split; [split |].
  { intros Hup. apply Hnone in Hup.
    destruct Hnext as [(Hin & _) | (Hall & _)]; [contradiction | exact Hall]. }
  { intros Hall. apply Hnone. intros Hin.
    destruct Hnext as [(_ & Hgt & _) | (_ & Heq)]; specialize (Hall _ Hin); lia. }
  split.
  { intros step Hup. destruct (Hfound _ _ Hup) as [Hid Hin].
    split; [exact Hid |]. split; [| split; [exact Hin |]].
    - destruct Hnext as [(_ & Hgt & _) | (_ & Heq)]; lia.
    - intros i Hi Hsi. destruct Hnext as [(_ & _ & Hmin) | (Hall & _)];
        [now apply Hmin | specialize (Hall _ Hi); lia]. }
  split.
  { intros Hup. apply Hnone in Hup.
    destruct Hnext as [(Hin & _) | (_ & Heq)]; [contradiction | exact Heq]. }
  split; [apply Hnone |]. split; [| reflexivity].
  intros step Hcs. now apply Hfound.
Qed.

Lemma complete_step_upcoming_witness :
  exists up st',
    handleCompleteStep noEnv repositorySteps 2000 (completeArgs jane 1) janeRegistered
    = (Ok (Completed 1 (getStep repositorySteps 1) 2 up 3), st')
    /\ (up = None <-> forall i, i ∈ map id (getAllSteps repositorySteps) -> i <= 1)
    /\ (forall step, up = Some step -> id step = 2).
Proof.
  destruct (handleCompleteStep noEnv repositorySteps 2000 (completeArgs jane 1)
              janeRegistered) as [r st'] eqn:Hrun.
  assert (r = Ok (Completed 1 (getStep repositorySteps 1) 2
                            (getStep repositorySteps 2) 3)) as ->.
  { change r with (fst (r, st')). rewrite <- Hrun. vm_compute. reflexivity. }
  exists (getStep repositorySteps 2), st'. split; [reflexivity |].
  destruct (complete_step_upcoming _ _ _ _ _ _ _ _ _ _ _ Hrun) as (Hnone & Hsome & _).
  split; [exact Hnone |]. intros step Hstep. now apply Hsome.
Defined.

(** X11.  After a [Completed] answer for a stored profile,
    [get_current_step] and [get_progress] for the same address show what
    the completion stored: the new current step, the completed step
    appended to [completedSteps], and the upcoming step and the total of the
    completion's answer; they write nothing. *)
Theorem current_step_after_completion env dir t1 t2 who sid n d (st st1 : Store) p
    s cs new up total :
  who <> EmptyString ->
  st !! profileFile who = Some p -> email p = who ->
  handleCompleteStep env dir t1 (mkCompleteArgs sid (Some who) n d) st
  = (Ok (Completed s cs new up total), st1) ->
  exists p',
    st1 !! profileFile who = Some p'
    /\ currentStep p' = new /\ completedSteps p' = completedSteps p ++ [s]
    /\ handleGetCurrentStep env dir t2 (Some who) st1
       = (Ok (CurrentStep p' up total), st1)
    /\ handleGetProgress env dir t2 (Some who) st1
       = (Ok (Progress p' (getAllSteps dir)), st1).
Proof.
  intros Hne Hfile Hmail Hrun.
  apply handleCompleteStep_Completed_inv in Hrun
    as (loaded & st0 & Hload & _ & _ & _ & Hnew & _ & Hup & Htotal & ->).
  cbn [cs_email] in Hload.
  rewrite (getEmployeeProfile_stored env t1 who st p Hne Hfile) in Hload.
  inversion Hload; subst loaded st0. rewrite Hmail.
  set (saved := touch t1 _). set (st1 := <[profileFile who := saved]> st).
  assert (st1 !! profileFile who = Some saved) as Hsaved by apply lookup_insert_eq.
  pose proof (getEmployeeProfile_stored env t2 who st1 saved Hne Hsaved) as Hload2.
  exists saved. split; [exact Hsaved |]. split; [reflexivity |].
  split; [reflexivity |].
  unfold handleGetCurrentStep, handleGetProgress, bind. rewrite Hload2.
  unfold ret. subst up total new. split; reflexivity.
Qed.

Lemma current_step_after_completion_witness :
  exists p',
    janeOnStepTwo !! profileFile jane = Some p'
    /\ currentStep p' = 2 /\ completedSteps p' = [1]
    /\ handleGetCurrentStep noEnv repositorySteps 2500 (Some jane) janeOnStepTwo
       = (Ok (CurrentStep p' (getStep repositorySteps 2) 3), janeOnStepTwo).
Proof.
  destruct (current_step_after_completion noEnv repositorySteps 2000 2500 jane
              (Some 1) None None janeRegistered janeOnStepTwo janeProfile 1
              (getStep repositorySteps 1) 2 (getStep repositorySteps 2) 3)
    as (p' & Hfile & Hcur & Hdone & Hstep & _);
    try first [discriminate | vm_compute; reflexivity].
  exists p'. auto.
Defined.

(** ** Which step [getStep] finds *)

Lemma find_insertById k x l :
  find (fun step => id step =? k) (insertById x l)
  = find (fun step => id step =? k) (x :: l).
Proof.
  induction l as [| y l IH]; [reflexivity |]. cbn [insertById].
  destruct (id x <=? id y) eqn:Hle; [reflexivity |].
  apply Z.leb_gt in Hle. cbn [find] in *. rewrite IH.
  destruct (id x =? k) eqn:Hx; [| reflexivity].
  apply Z.eqb_eq in Hx. assert ((id y =? k) = false) as -> by (apply Z.eqb_neq; lia).
  reflexivity.
Qed.

Lemma find_sortById k l :
  find (fun step => id step =? k) (sortById l) = find (fun step => id step =? k) l.
Proof.
  induction l as [| x l IH]; [reflexivity |].
  cbn [sortById fold_right]. fold (sortById l). rewrite find_insertById.
  cbn [find]. now rewrite IH.
Qed.

(** X12.  [getStep] finds the first step with the id in the order in which
    the steps were loaded (the sort keeps that order among equal ids): the
    first Markdown document of the listing with the id, otherwise the first
    accepted HTML document with it; what it finds is a loaded step with that
    id, and it finds nothing exactly when no loaded step has the id. *)
Theorem getStep_first_loaded dir k :
  getStep dir k = find (fun step => id step =? k) (loadSteps dir)
  /\ (forall files, dir = Some files ->
        let markdown := markdownSteps (List.filter isMarkdownFile files) in
        getStep dir k
        = match find (fun step => id step =? k) markdown with
          | Some step => Some step
          | None =>
              find (fun step => id step =? k)
                   (htmlSteps (list_to_set (map id markdown))
                              (List.filter isHtmlFile files))
          end)
  /\ (forall step, getStep dir k = Some step -> id step = k /\ (step ∈ loadSteps dir))
  /\ (getStep dir k = None <-> k ∉ map id (loadSteps dir)).
Proof.
  assert (Hfirst : getStep dir k = find (fun step => id step =? k) (loadSteps dir)).
  { unfold getStep, loadConfiguration. apply find_sortById. }
  split; [exact Hfirst |]. split; [| split].
  - intros files -> markdown. rewrite Hfirst, loadSteps_eq. fold markdown.
    induction markdown as [| x l IH]; [reflexivity |]. cbn [app find].
    destruct (id x =? k); [reflexivity |].
    generalize (htmlSteps (list_to_set (map id (x :: l))) (List.filter isHtmlFile files)).
    intros hs. clear IH. induction l as [| y l IH]; [reflexivity |]. cbn [app find].
    destruct (id y =? k); [reflexivity | exact IH].
  - rewrite Hfirst. intros step Hk. apply find_some in Hk as [Hin Hid].
    apply Z.eqb_eq in Hid. now rewrite list_elem_of_In.
  - rewrite Hfirst. split.
    + intros Hk Hin. destruct (find_id_Some _ k Hin) as (x & Hx & _). congruence.
    + apply find_id_None.
Qed.

(** ** Lower case and valid addresses *)

Lemma mapChars_append f a b :
  Js.mapChars f (a +:+ b) = Js.mapChars f a +:+ Js.mapChars f b.
Proof.
  induction a as [| x a IH]; [reflexivity |]. rewrite append_cons. cbn.
  rewrite append_cons. now f_equal.
Qed.

Lemma notSpaceAt_lowerChar c : notSpaceAt (Js.lowerChar c) = notSpaceAt c.
Proof. destruct c as [[] [] [] [] [] [] [] []]; reflexivity. Qed.

Lemma allChars_toLowerCase c s :
  (forall a, c (Js.lowerChar a) = c a) ->
  Js.allChars c (Js.toLowerCase s) = Js.allChars c s.
Proof.
  intros Hc. unfold Js.toLowerCase. induction s as [| a s IH]; cbn; [reflexivity |].
  now rewrite Hc, IH.
Qed.

Lemma Matches_toLowerCase r s cs :
  LowerStable r -> Regex.Matches r s cs ->
  Regex.Matches r (Js.toLowerCase s) (map Js.toLowerCase cs).
Proof.
  intros Hr Hm. induction Hm; cbn [LowerStable] in Hr; cbn [map].
  - rewrite Hr. constructor.
  - cbn. constructor. now rewrite Hr.
  - constructor. now rewrite allChars_toLowerCase.
  - cbn. constructor; [now rewrite Hr |].
    fold (Js.toLowerCase s). now rewrite allChars_toLowerCase.
  - cbn. constructor; [now rewrite Hr |].
    fold (Js.toLowerCase s). now rewrite allChars_toLowerCase.
  - destruct Hr as [Hr1 Hr2]. unfold Js.toLowerCase. rewrite mapChars_append, map_app.
    constructor; [now apply IHHm1 | now apply IHHm2].
  - destruct Hr as [Hr1 Hr2]. apply Regex.MAltL. now apply IHHm.
  - destruct Hr as [Hr1 Hr2]. apply Regex.MAltR. now apply IHHm.
  - rewrite map_app. cbn [map]. constructor. now apply IHHm.
Qed.

(** Lower-casing a valid address leaves it valid. *)
Lemma isValidEmail_toLowerCase e :
  isValidEmail e = true -> isValidEmail (Js.toLowerCase e) = true.
Proof.
  unfold isValidEmail. rewrite !testWhole_spec. intros [cs H].
  exists (map Js.toLowerCase cs). apply Matches_toLowerCase; [| exact H].
  unfold emailRegex. cbn. repeat split; apply notSpaceAt_lowerChar.
Qed.

(** ** Who is calling *)

(** X13.  [getCurrentEmployeeEmail] never writes.  What it answers is a
    valid address made from the environment, or the name of the single
    profile file of the data directory without its first [.json]; what it
    throws is REGISTRATION_REQUIRED, and the directory then does not hold
    exactly one profile file.  When the first non-empty of the three mail
    variables is a valid address, the answer is that address in lower
    case. *)
Theorem detected_identity env (st st' : Store) r :
  getCurrentEmployeeEmail env st = (r, st') ->
  st' = st
  /\ (forall e, r = Ok e ->
        isValidEmail e = true
        \/ exists f, jsonFiles st = [f] /\ e = Js.removeFirst ".json" f)
  /\ (forall msg, r = Throw msg ->
        msg = "REGISTRATION_REQUIRED" /\ length (jsonFiles st) <> 1%nat)
  /\ (forall e0,
        orElse (USER_EMAIL env) (orElse (USERPRINCIPALNAME env) (OFFICE_365_EMAIL env))
        = Some e0 ->
        isValidEmail e0 = true -> r = Ok (Js.toLowerCase e0)).
Proof.
  intros Hrun. split; [eapply getCurrentEmployeeEmail_store; eassumption |].
  unfold getCurrentEmployeeEmail in Hrun. cbv zeta in Hrun.
  set (envEmail := orElse (USER_EMAIL env) _) in *.
  set (method2 := match Js.truthy (USERNAME env) with Some _ => _ | None => _ end) in Hrun.
  assert (Hlater :
    (match method2 with
     | Some e => ret e
     | None =>
         let* files := readdir in
         match filter (fun f => isProfileFile f = true) files with
         | [f] => ret (Js.removeFirst ".json" f)
         | _ => throw "REGISTRATION_REQUIRED"
         end
     end) st = (r, st') ->
    (forall e, r = Ok e ->
       isValidEmail e = true
       \/ exists f, jsonFiles st = [f] /\ e = Js.removeFirst ".json" f)
    /\ (forall msg, r = Throw msg ->
          msg = "REGISTRATION_REQUIRED" /\ length (jsonFiles st) <> 1%nat)).
  { clear Hrun. destruct method2 as [e2 |] eqn:H2.
    - unfold ret. intros [= <- <-]. split; [| discriminate].
      intros e [= <-]. left. subst method2.
      destruct (Js.truthy (USERNAME env)); [| discriminate].
      destruct (Js.truthy (USERDOMAIN env)); [| discriminate].
      destruct (negb _); [| discriminate].
      apply find_some in H2 as [_ Hv]. exact Hv.
    - unfold bind, readdir.
      change (filter _ (map fst (map_to_list st))) with (jsonFiles st).
      destruct (jsonFiles st) as [| f [| g l]]; unfold ret, throw; intros [= <- <-].
      + split; [discriminate |]. intros msg [= <-]. split; [reflexivity | cbn; lia].
      + split; [| discriminate]. intros e [= <-]. right. eauto.
      + split; [discriminate |]. intros msg [= <-]. split; [reflexivity | cbn; lia]. }
  destruct (Js.truthy envEmail) as [e1 |] eqn:Henv.
  - assert (envEmail = Some e1) as Heq.
    { destruct envEmail as [[|] |]; cbn in Henv; congruence. }
    destruct (isValidEmail e1) eqn:Hvalid.
    + unfold ret in Hrun. injection Hrun as <- <-.
      split; [| split].
      * intros e [= <-]. left. now apply isValidEmail_toLowerCase.
      * discriminate.
      * intros e0 He0 _. congruence.
    + destruct (Hlater Hrun) as [Hok Hthrow]. split; [exact Hok |].
      split; [exact Hthrow |]. intros e0 He0 Hv. congruence.
  - destruct (Hlater Hrun) as [Hok Hthrow]. split; [exact Hok |].
    split; [exact Hthrow |]. intros e0 He0 Hv. exfalso.
    rewrite He0 in Henv. destruct e0; [discriminate Hv | discriminate Henv].
Qed.

Lemma detected_identity_witness :
  getCurrentEmployeeEmail (mkEnv (Some janeCapitals) None None None None) janeRegistered
  = (Ok jane, janeRegistered)
  /\ (isValidEmail jane = true
      \/ exists f, jsonFiles janeRegistered = [f] /\ jane = Js.removeFirst ".json" f).
Proof.
  assert (getCurrentEmployeeEmail (mkEnv (Some janeCapitals) None None None None)
            janeRegistered = (Ok jane, janeRegistered)) as Hrun
      by (vm_compute; reflexivity).
  split; [exact Hrun |].
  destruct (detected_identity _ _ _ _ Hrun) as (_ & Hok & _).
  now apply Hok.
Defined.

Lemma NoIdentityHint_method env (st : Store) :
  NoIdentityHint env ->
  getCurrentEmployeeEmail env st
  = match jsonFiles st with
    | [f] => (Ok (Js.removeFirst ".json" f), st)
    | _ => (Throw "REGISTRATION_REQUIRED", st)
    end.
Proof.
  intros (H1 & H2 & H3 & H4). unfold getCurrentEmployeeEmail, orElse. cbv zeta.
  rewrite H1, H2, H3.
  assert (match Js.truthy (USERNAME env) with
          | Some username =>
              match Js.truthy (USERDOMAIN env) with
              | Some domain =>
                  if negb (String.eqb domain username) then
                    find isValidEmail
                      [username +:+ "@" +:+ Js.toLowerCase domain +:+ ".com";
                       username +:+ "@" +:+ Js.toLowerCase domain +:+ ".onmicrosoft.com";
                       username +:+ "@company.com"]
                  else None
              | None => None
              end
          | None => None
          end = None) as ->.
  { destruct H4 as [-> | ->]; [reflexivity |]. now destruct (Js.truthy (USERNAME env)). }
  unfold bind, readdir.
  change (filter _ (map fst (map_to_list st))) with (jsonFiles st).
  now destruct (jsonFiles st) as [| f [| g l]].
Qed.

Lemma startsWith_json_straddle w :
  Js.startsWith ".json" w = false -> w <> EmptyString ->
  Js.startsWith ".json" (w +:+ ".json") = false.
Proof.
  destruct w as [| c1 [| c2 [| c3 [| c4 [| c5 w]]]]]; intros H Hne;
    [congruence | ..]; rewrite ?append_cons, ?append_nil_l; cbn in *;
    repeat match goal with
           | |- context [Ascii.eqb ?a ?b] => destruct (Ascii.eqb a b); cbn in *
           end; congruence.
Qed.

Lemma removeFirst_json who :
  Js.includes ".json" who = false ->
  Js.removeFirst ".json" (profileFile who) = who.
Proof.
  unfold profileFile. induction who as [| c who IH]; [reflexivity |].
  intros Hinc. cbn [Js.includes] in Hinc. apply orb_false_elim in Hinc as [Hhere Hrest].
  rewrite append_cons.
  pose proof (startsWith_json_straddle (String c who) Hhere ltac:(discriminate)) as Hs.
  rewrite append_cons in Hs. cbn [Js.removeFirst]. rewrite Hs. f_equal. now apply IH.
Qed.

Lemma endsWith_append p s : Js.endsWith p (s +:+ p) = true.
Proof.
  unfold Js.endsWith. rewrite length_append.
  replace (_ + _ - _)%nat with (String.length s) by lia.
  rewrite drop_append, String.eqb_refl. cbn. apply Nat.leb_le. lia.
Qed.

(** X14.  With no hint in the environment and a data directory of one
    profile file, that profile is the caller's: the detected address is the
    file name without [.json] (for an address that does not itself contain
    [.json] and is not progress-index), [getEmployeeProfile] without address
    answers the stored profile, [get_progress] shows it, and nothing is
    written. *)
Theorem single_profile_is_the_caller env dir now who p :
  NoIdentityHint env ->
  Js.includes ".json" who = false -> who <> "progress-index" ->
  let st : Store := {[ profileFile who := p ]} in
  getCurrentEmployeeEmail env st = (Ok who, st)
  /\ getEmployeeProfile env now None st = (Ok p, st)
  /\ callTool env dir now (get_progress None) st
     = (Content (Progress p (getAllSteps dir)), st).
Proof.
  intros Henv Hinc Hne st.
  assert (jsonFiles st = [profileFile who]) as Hfiles.
  { unfold jsonFiles, st. rewrite map_to_list_singleton. cbn [map fst].
    rewrite filter_cons_True; [reflexivity |].
    unfold isProfileFile, profileFile. rewrite endsWith_append. cbn [andb].
    apply negb_true_iff, String.eqb_neq. intros Heq. apply Hne.
    apply profileFile_inj. exact Heq. }
  assert (getCurrentEmployeeEmail env st = (Ok who, st)) as Hwho.
  { rewrite (NoIdentityHint_method env st Henv), Hfiles.
    now rewrite removeFirst_json. }
  assert (getEmployeeProfile env now None st = (Ok p, st)) as Hload.
  { unfold getEmployeeProfile, bind. cbn [Js.truthy]. rewrite Hwho.
    unfold readProfile, st. rewrite lookup_singleton_eq. reflexivity. }
  split; [exact Hwho |]. split; [exact Hload |].
  unfold callTool, handleGetProgress, bind. rewrite Hload. reflexivity.
Qed.

Lemma single_profile_is_the_caller_witness :
  getEmployeeProfile noEnv 5000 None {[ profileFile jane := janeProfile ]}
  = (Ok janeProfile, {[ profileFile jane := janeProfile ]}).
Proof.
  apply (single_profile_is_the_caller noEnv repositorySteps 5000 jane janeProfile).
  - repeat split; try reflexivity. now left.
  - vm_compute. reflexivity.
  - discriminate.
Defined.



(** ** Creating a profile *)




(** ** The matches of a pattern with the [g] flag *)

Lemma run_rest_sound r s res :
  Regex.run r s [] acceptRest = Some res ->
  exists found rest caps,
    res = rest :: caps /\ s = found +:+ rest /\ Regex.Matches r found caps.
Proof.
  intros H. apply run_sound in H as (s1 & s2 & cs & -> & Hm & Hk).
  unfold acceptRest in Hk. injection Hk as <-. cbn. eauto 6.
Qed.

Lemma run_rest_complete r found rest caps :
  Regex.Matches r found caps -> is_Some (Regex.run r (found +:+ rest) [] acceptRest).
Proof. intros Hm. apply (run_complete r found caps Hm). cbn. eauto. Qed.

Lemma append_inv_length (a b c d : string) :
  a +:+ b = c +:+ d -> String.length a = String.length c -> a = c /\ b = d.
Proof.
  revert c. induction a as [| x a IH]; intros [| y c]; cbn; try discriminate.
  - intros H _. rewrite !append_nil_l in H. auto.
  - rewrite !append_cons. intros [= -> H] [= Hlen].
    destruct (IH _ H Hlen) as [-> ->]. auto.
Qed.

Lemma execGlobal_sound r s caps rest :
  execGlobal r s = Some (caps, rest) ->
  exists before found,
    s = before +:+ found +:+ rest /\ Regex.Matches r found caps
    /\ forall b f a c, s = b +:+ f +:+ a -> Regex.Matches r f c ->
                       (String.length before <= String.length b)%nat.
Proof.
  induction s as [| x s IH]; cbn [execGlobal].
  - destruct (Regex.run r "" [] acceptRest) as [res |] eqn:Hrun; [| discriminate].
    apply run_rest_sound in Hrun as (found & rest' & caps' & -> & Hs & Hm).
    intros [= <- <-]. exists EmptyString, found. rewrite append_nil_l.
    split; [exact Hs |]. split; [exact Hm |]. intros; cbn; lia.
  - destruct (Regex.run r (String x s) [] acceptRest) as [res |] eqn:Hrun.
    + apply run_rest_sound in Hrun as (found & rest' & caps' & -> & Hs & Hm).
      intros [= <- <-]. exists EmptyString, found. rewrite append_nil_l.
      split; [exact Hs |]. split; [exact Hm |]. intros; cbn; lia.
    + intros H. destruct (IH H) as (before & found & -> & Hm & Hleft).
      exists (String x before), found. rewrite append_cons.
      split; [reflexivity |]. split; [exact Hm |].
      intros b f a c Hs Hf. destruct b as [| y b].
      * exfalso. rewrite append_nil_l in Hs.
        destruct (run_rest_complete r f a c Hf) as [res Hres].
        rewrite <- Hs in Hres. congruence.
      * rewrite append_cons in Hs. injection Hs as <- Hs.
        specialize (Hleft _ _ _ _ Hs Hf). cbn. lia.
Qed.

Lemma execGlobal_None r s :
  execGlobal r s = None ->
  forall b f a c, s = b +:+ f +:+ a -> ~ Regex.Matches r f c.
Proof.
  induction s as [| x s IH]; cbn [execGlobal]; intros H b f a c Hs Hf.
  - destruct (run_rest_complete r f a c Hf) as [res Hres].
    destruct b; [| discriminate]. rewrite append_nil_l in Hs. rewrite <- Hs in Hres.
    rewrite Hres in H. apply run_rest_sound in Hres as (? & ? & ? & -> & _).
    discriminate.
  - destruct (Regex.run r (String x s) [] acceptRest) as [res |] eqn:Hrun.
    + apply run_rest_sound in Hrun as (? & ? & ? & -> & _). discriminate.
    + destruct b as [| y b].
      * rewrite append_nil_l in Hs.
        destruct (run_rest_complete r f a c Hf) as [res Hres].
        rewrite <- Hs in Hres. congruence.
      * rewrite append_cons in Hs. injection Hs as <- Hs.
        exact (IH H _ _ _ _ Hs Hf).
Qed.

(** With enough fuel the loop finds every match, one after the other. *)
Lemma matchLoop_scanned r :
  (forall f c, Regex.Matches r f c -> f <> EmptyString) ->
  forall fuel s, (String.length s <= fuel)%nat -> Scanned r s (matchLoop fuel r s).
Proof.
  intros Hne fuel. induction fuel as [| fuel IH]; intros s Hlen; cbn [matchLoop].
  - destruct s; [| cbn in Hlen; lia]. apply scanned_end.
    intros b f a c Hs Hf. apply (Hne _ _ Hf).
    destruct b; [| discriminate]. rewrite append_nil_l in Hs. now destruct f.
  - destruct (execGlobal r s) as [[caps rest] |] eqn:Hexec.
    + apply execGlobal_sound in Hexec as (before & found & -> & Hm & Hleft).
      apply scanned_match; [exact Hm | exact Hleft |]. apply IH.
      pose proof (Hne _ _ Hm) as Hf. rewrite !length_append in Hlen.
      destruct found; [congruence |]. cbn in Hlen. lia.
    + apply scanned_end. now apply execGlobal_None.
Qed.

(** More fuel than the length of the input changes nothing. *)
Lemma matchLoop_fuel r :
  (forall f c, Regex.Matches r f c -> f <> EmptyString) ->
  forall fuel fuel' s,
    (String.length s <= fuel)%nat -> (String.length s <= fuel')%nat ->
    matchLoop fuel r s = matchLoop fuel' r s.
Proof.
  intros Hne fuel. induction fuel as [| fuel IH]; intros fuel' s Hlen Hlen'.
  - destruct s; [| cbn in Hlen; lia]. destruct fuel'; [reflexivity |]. cbn.
    destruct (Regex.run r "" [] acceptRest) as [res |] eqn:Hrun; [| reflexivity].
    apply run_rest_sound in Hrun as (found & rest & caps & -> & Hs & Hm).
    exfalso. apply (Hne _ _ Hm). now destruct found.
  - destruct fuel' as [| fuel'].
    + destruct s; [| cbn in Hlen'; lia]. cbn.
      destruct (Regex.run r "" [] acceptRest) as [res |] eqn:Hrun; [| reflexivity].
      apply run_rest_sound in Hrun as (found & rest & caps & -> & Hs & Hm).
      exfalso. apply (Hne _ _ Hm). now destruct found.
    + cbn [matchLoop]. destruct (execGlobal r s) as [[caps rest] |] eqn:Hexec;
        [| reflexivity].
      f_equal. apply execGlobal_sound in Hexec as (before & found & -> & Hm & _).
      pose proof (Hne _ _ Hm) as Hf. rewrite !length_append in Hlen, Hlen'.
      destruct found; [congruence |]. cbn in Hlen, Hlen'. apply IH; lia.
Qed.

(** ** The links of a Markdown document *)

Lemma link_matches found caps :
  Regex.Matches markdownLinkRegex found caps <->
  exists text url,
    found = renderLink text url /\ caps = [text; url] /\ LinkParts text url.
Proof.
  unfold markdownLinkRegex, renderLink, LinkParts. cbn [Regex.seq]. split.
  - intros H.
    repeat match goal with
           | H : Regex.Matches (Regex.Cat _ _) _ _ |- _ => inversion H; subst; clear H
           | H : Regex.Matches (Regex.Group _) _ _ |- _ => inversion H; subst; clear H
           | H : Regex.Matches (Regex.Lit _) _ _ |- _ => inversion H; subst; clear H
           | H : Regex.Matches (Regex.Plus _) _ _ |- _ => inversion H; subst; clear H
           end.
    do 2 eexists. split; [reflexivity |]. split; [reflexivity |].
    repeat split; try discriminate; now apply allChars_cons.
  - intros (text & url & -> & -> & Ht & Hct & Hu & Hcu).
    eapply (matches_cat _ _ "[" _ [] [text; url]); [apply Regex.MLit | | reflexivity ..].
    eapply (matches_cat _ _ text _ [text] [url]); [| | reflexivity ..].
    { apply (Regex.MGroup _ _ []). now apply matches_plus. }
    eapply (matches_cat _ _ "](" _ [] [url]); [apply Regex.MLit | | reflexivity ..].
    eapply (matches_cat _ _ url _ [url] []); [| apply Regex.MLit | reflexivity ..].
    apply (Regex.MGroup _ _ []). now apply matches_plus.
Qed.

Lemma link_not_empty f c : Regex.Matches markdownLinkRegex f c -> f <> EmptyString.
Proof.
  intros H. apply link_matches in H as (t & u & -> & _). discriminate.
Qed.

Lemma LinkAt_matches s before text url after :
  LinkAt s before text url after <->
  s = before +:+ renderLink text url +:+ after
  /\ Regex.Matches markdownLinkRegex (renderLink text url) [text; url].
Proof.
  unfold LinkAt. split; intros [Hs H]; (split; [exact Hs |]).
  - apply link_matches. eauto.
  - apply link_matches in H as (t & u & _ & [= <- <-] & Hparts). exact Hparts.
Qed.

Lemma Scanned_LinksOf s ms :
  Scanned markdownLinkRegex s ms ->
  LinksOf s (map (fun m => renderLink (group 1 m) (group 2 m)) ms).
Proof.
  induction 1 as [s Hnone | before found rest caps ms Hm Hleft _ IH]; cbn [map].
  - apply links_none. intros before text url after Hlink.
    apply LinkAt_matches in Hlink as [Hs Hlink]. exact (Hnone _ _ _ _ Hs Hlink).
  - apply link_matches in Hm as (text & url & -> & -> & Hparts).
    apply (links_next _ before text url rest); [now split | | exact IH].
    intros b t u a Hlink. apply LinkAt_matches in Hlink as [Hs Hlink].
    exact (Hleft _ _ _ _ Hs Hlink).
Qed.

Lemma run_of_class_unique (p : ascii -> bool) t t' c c' x x' :
  Js.allChars p t = true -> Js.allChars p t' = true ->
  p c = false -> p c' = false ->
  t +:+ String c x = t' +:+ String c' x' -> t = t' /\ x = x'.
Proof.
  revert t'. induction t as [| a t IH]; intros [| a' t'] Ht Ht' Hc Hc';
    rewrite ?append_cons, ?append_nil_l; intros [= E1 E2]; subst.
  - auto.
  - cbn in Ht'. rewrite Hc in Ht'. discriminate.
  - cbn in Ht. rewrite Hc' in Ht. discriminate.
  - cbn in Ht, Ht'. apply andb_prop in Ht as [_ Ht]. apply andb_prop in Ht' as [_ Ht'].
    destruct (IH _ Ht Ht' Hc Hc' E2) as [-> ->]. auto.
Qed.

Lemma renderLink_append text url after :
  renderLink text url +:+ after
  = String "[" (text +:+ String "]" (String "(" (url +:+ String ")" after))).
Proof. unfold renderLink. now rewrite !append_assoc. Qed.

Lemma LinkAt_unique s before text url after before' text' url' after' :
  LinkAt s before text url after -> LinkAt s before' text' url' after' ->
  String.length before = String.length before' ->
  text = text' /\ url = url' /\ after = after'.
Proof.
  intros [-> (_ & Ht & _ & Hu)] [Hs (_ & Ht' & _ & Hu')] Hlen.
  apply append_inv_length in Hs as [_ Hs]; [| exact Hlen].
  rewrite !renderLink_append in Hs. injection Hs as Hs.
  apply (run_of_class_unique notCloseBracket) in Hs as [<- Hs];
    [| assumption | assumption | reflexivity | reflexivity].
  injection Hs as Hs.
  apply (run_of_class_unique notCloseParen) in Hs as [<- <-];
    [| assumption | assumption | reflexivity | reflexivity].
  auto.
Qed.

Lemma LinksOf_unique s l1 : LinksOf s l1 -> forall l2, LinksOf s l2 -> l1 = l2.
Proof.
  induction 1 as [s Hnone | s before text url after rest Hlink Hleft _ IH];
    intros l2 H2; inversion H2 as [s' Hnone' | s' b t u a rest' Hlink' Hleft' Hrest'];
    subst.
  - reflexivity.
  - exfalso. exact (Hnone _ _ _ _ Hlink').
  - exfalso. exact (Hnone' _ _ _ _ Hlink).
  - pose proof (Hleft _ _ _ _ Hlink') as H1. pose proof (Hleft' _ _ _ _ Hlink) as H3.
    destruct (LinkAt_unique _ _ _ _ _ _ _ _ _ Hlink Hlink' ltac:(lia)) as (<- & <- & <-).
    f_equal. now apply IH.
Qed.

(** X18.  [extractMarkdownLinks] returns the links of the document from left
    to right: the leftmost place where a bracketed non-empty text without
    closing bracket is followed by a parenthesized non-empty address without
    closing parenthesis gives the first link, written as it stands in the
    document, and what follows that link gives the others in the same way;
    a document without such a place has no links.  The loop needs no more
    passes than the document has characters. *)
Theorem extractMarkdownLinks_spec markdown :
  (forall links, extractMarkdownLinks markdown = links <-> LinksOf markdown links)
  /\ (forall fuel, (String.length markdown <= fuel)%nat ->
        map (fun m => renderLink (group 1 m) (group 2 m))
            (matchLoop fuel markdownLinkRegex markdown)
        = extractMarkdownLinks markdown).
Proof.
  split.
  - intros links.
    assert (LinksOf markdown (extractMarkdownLinks markdown)) as Hspec.
    { apply Scanned_LinksOf, matchLoop_scanned; [apply link_not_empty | lia]. }
    split; [now intros <- |]. intros H. exact (LinksOf_unique _ _ Hspec _ H).
  - intros fuel Hfuel. unfold extractMarkdownLinks. f_equal.
    apply matchLoop_fuel; [apply link_not_empty | exact Hfuel | lia].
Qed.

(** ** The anchors of an HTML document *)

Lemma lowerChar_less c : Js.lowerChar c = "<"%char -> c = "<"%char.
Proof. destruct c as [[] [] [] [] [] [] [] []]; vm_compute; congruence. Qed.

Lemma lowerChar_slash c : Js.lowerChar c = "/"%char -> c = "/"%char.
Proof. destruct c as [[] [] [] [] [] [] [] []]; vm_compute; congruence. Qed.

Lemma lowerChar_greater c : Js.lowerChar c = ">"%char -> c = ">"%char.
Proof. destruct c as [[] [] [] [] [] [] [] []]; vm_compute; congruence. Qed.

Lemma anchor_matches found caps :
  Regex.Matches htmlLinkRegex found caps <->
  exists text url, caps = [url; text] /\ Anchor found text url.
Proof.
  unfold htmlLinkRegex, Anchor. cbn [Regex.seq]. split.
  - intros H.
    repeat match goal with
           | H : Regex.Matches (Regex.Cat _ _) _ _ |- _ => inversion H; subst; clear H
           | H : Regex.Matches (Regex.Group _) _ _ |- _ => inversion H; subst; clear H
           | H : Regex.Matches (Regex.Lit _) _ _ |- _ => inversion H; subst; clear H
           | H : Regex.Matches (Regex.Plus _) _ _ |- _ => inversion H; subst; clear H
           | H : Regex.Matches (Regex.Star _) _ _ |- _ => inversion H; subst; clear H
           | H : Regex.Matches (Regex.Chr _) _ _ |- _ => inversion H; subst; clear H
           | H : letter _ _ = true |- _ => apply Ascii.eqb_eq in H
           end.
    match goal with
    | |- context [ "<" +:+ String ?a "" +:+ String ?x ?attrs +:+ String ?h "" +:+
                   String ?r "" +:+ String ?e "" +:+ String ?f "" +:+ _ +:+
                   String ?u ?url +:+ _ +:+ ?more +:+ ">" +:+ String ?t ?text +:+
                   "</" +:+ String ?a' "" +:+ ">" ] =>
        exists (String t text), (String u url); split; [reflexivity |];
        exists (String "<" (String a "")), (String x attrs),
               (String h (String r (String e (String f "")))), more,
               (String "<" (String "/" (String a' (String ">" ""))))
    end.
    split; [now rewrite !append_assoc |].
    cbn [Js.toLowerCase Js.mapChars].
    repeat match goal with H : Js.lowerChar _ = _ |- _ => rewrite H; clear H end.
    repeat split; try discriminate; try assumption; now apply allChars_cons.
  - intros (text & url & -> & open & attrs & href & more & close & -> & Ho & Hh & Hc
            & Ha & Hca & Hu & Hcu & Hcm & Ht & Hct).
    destruct open as [| o1 [| o2 [| ? ?]]]; try discriminate Ho.
    destruct href as [| h [| r [| e [| f [| ? ?]]]]]; try discriminate Hh.
    destruct close as [| c1 [| c2 [| c3 [| c4 [| ? ?]]]]]; try discriminate Hc.
    cbn in Ho, Hh, Hc. injection Ho as Ho1 Ho2. injection Hh as Hh1 Hh2 Hh3 Hh4.
    injection Hc as Hc1 Hc2 Hc3 Hc4.
    apply lowerChar_less in Ho1 as ->. apply lowerChar_less in Hc1 as ->.
    apply lowerChar_slash in Hc2 as ->. apply lowerChar_greater in Hc4 as ->.
    eapply (matches_cat _ _ "<" _ [] [url; text]); [apply Regex.MLit | | reflexivity ..].
    eapply (matches_cat _ _ (String o2 "") _ [] [url; text]);
      [constructor; now apply Ascii.eqb_eq | | reflexivity ..].
    eapply (matches_cat _ _ attrs _ [] [url; text]); [now apply matches_plus | | reflexivity ..].
    eapply (matches_cat _ _ (String h "") _ [] [url; text]);
      [constructor; now apply Ascii.eqb_eq | | reflexivity ..].
    eapply (matches_cat _ _ (String r "") _ [] [url; text]);
      [constructor; now apply Ascii.eqb_eq | | reflexivity ..].
    eapply (matches_cat _ _ (String e "") _ [] [url; text]);
      [constructor; now apply Ascii.eqb_eq | | reflexivity ..].
    eapply (matches_cat _ _ (String f "") _ [] [url; text]);
      [constructor; now apply Ascii.eqb_eq | | reflexivity ..].
    eapply (matches_cat _ _ ("=" +:+ dquote) _ [] [url; text]);
      [apply Regex.MLit | | reflexivity ..].
    eapply (matches_cat _ _ url _ [url] [text]);
      [apply (Regex.MGroup _ _ []); now apply matches_plus | | reflexivity ..].
    eapply (matches_cat _ _ dquote _ [] [text]); [apply Regex.MLit | | reflexivity ..].
    eapply (matches_cat _ _ more _ [] [text]); [now apply Regex.MStar | | reflexivity ..].
    eapply (matches_cat _ _ ">" _ [] [text]); [apply Regex.MLit | | reflexivity ..].
    eapply (matches_cat _ _ text _ [text] []);
      [apply (Regex.MGroup _ _ []); now apply matches_plus | | reflexivity ..].
    eapply (matches_cat _ _ "</" _ [] []); [apply Regex.MLit | | reflexivity ..].
    eapply (matches_cat _ _ (String c3 "") ">" [] []);
      [constructor; now apply Ascii.eqb_eq | apply Regex.MLit | reflexivity ..].
Qed.

Lemma anchor_not_empty f c : Regex.Matches htmlLinkRegex f c -> f <> EmptyString.
Proof.
  intros H. apply anchor_matches in H
    as (t & u & _ & open & attrs & href & more & close & -> & Ho & _).
  destruct open; [discriminate Ho | discriminate].
Qed.

Lemma Scanned_AnchorsOf s ms :
  Scanned htmlLinkRegex s ms ->
  AnchorsOf s (map (fun m => renderLink (group 2 m) (group 1 m)) ms).
Proof.
  induction 1 as [s Hnone | before found rest caps ms Hm Hleft _ IH]; cbn [map].
  - apply anchors_none. intros before found text url after Hs Hanchor.
    apply (Hnone _ _ _ [url; text] Hs). apply anchor_matches. eauto.
  - apply anchor_matches in Hm as (text & url & -> & Hanchor).
    apply anchors_next; [exact Hanchor | | exact IH].
    intros b f t u a Hs Hf. apply (Hleft _ _ _ [u; t] Hs). apply anchor_matches. eauto.
Qed.

(** X19.  [extractResourceLinks] returns, from left to right, one Markdown
    link for each anchor of the HTML document: the leftmost place where an
    anchor stands gives the first link, made of the text of that anchor and
    of the value of an [href] of its opening tag, and what follows that
    anchor gives the others in the same way; a document without anchor has
    no links.  The loop needs no more passes than the document has
    characters. *)
Theorem extractResourceLinks_spec html :
  AnchorsOf html (extractResourceLinks html)
  /\ forall fuel, (String.length html <= fuel)%nat ->
       map (fun m => renderLink (group 2 m) (group 1 m))
           (matchLoop fuel htmlLinkRegex html)
       = extractResourceLinks html.
Proof.
  split.
  - apply Scanned_AnchorsOf, matchLoop_scanned; [apply anchor_not_empty | lia].
  - intros fuel Hfuel. unfold extractResourceLinks. f_equal.
    apply matchLoop_fuel; [apply anchor_not_empty | exact Hfuel | lia].
Qed.

(** ** The title of a Markdown document *)

Lemma atLineEnd_spec s caps res :
  atLineEnd s caps = Some res <-> LineEnd s /\ res = caps.
Proof.
  unfold atLineEnd, LineEnd. destruct s as [| a s].
  - split; [intros [= <-]; auto | intros [_ ->]; reflexivity].
  - destruct (Js.isDot a) eqn:Ha; split.
    + discriminate.
    + intros [[H | (c & x & [= <- <-] & Hc)] _]; congruence.
    + intros [= <-]. split; [right; eauto | reflexivity].
    + intros [_ ->]. reflexivity.
Qed.

Lemma title_matches found caps :
  Regex.Matches titleRegex found caps <->
  exists gap text,
    found = "#" +:+ gap +:+ text /\ caps = [text]
    /\ gap <> EmptyString /\ Js.allChars Js.isSpace gap = true
    /\ text <> EmptyString /\ Js.allChars Js.isDot text = true.
Proof.
  unfold titleRegex. cbn [Regex.seq]. split.
  - intros H.
    repeat match goal with
           | H : Regex.Matches (Regex.Cat _ _) _ _ |- _ => inversion H; subst; clear H
           | H : Regex.Matches (Regex.Group _) _ _ |- _ => inversion H; subst; clear H
           | H : Regex.Matches (Regex.Lit _) _ _ |- _ => inversion H; subst; clear H
           | H : Regex.Matches (Regex.Plus _) _ _ |- _ => inversion H; subst; clear H
           end.
    do 2 eexists. split; [reflexivity |]. split; [reflexivity |].
    repeat split; try discriminate; now apply allChars_cons.
  - intros (gap & text & -> & -> & Hg & Hcg & Ht & Hct).
    eapply (matches_cat _ _ "#" _ [] [text]); [apply Regex.MLit | | reflexivity ..].
    eapply (matches_cat _ _ gap _ [] [text]); [now apply matches_plus | | reflexivity ..].
    apply (Regex.MGroup _ _ []). now apply matches_plus.
Qed.

(** What [execLines] finds is a match at the start of a line that ends at
    the end of a line. *)
Lemma execLines_sound r lineStart s caps :
  execLines r lineStart s = Some caps ->
  exists before found after,
    s = before +:+ found +:+ after /\ Regex.Matches r found caps
    /\ (before = EmptyString -> lineStart = true)
    /\ (before = EmptyString \/ exists b c, before = b +:+ String c EmptyString
                                           /\ Js.isDot c = false)
    /\ LineEnd after.
Proof.
  revert lineStart. induction s as [| a s IH]; intros lineStart; cbn [execLines].
  - destruct lineStart; [| discriminate].
    destruct (Regex.run r "" [] atLineEnd) as [res |] eqn:Hrun; [| discriminate].
    intros [= <-]. apply run_sound in Hrun as (s1 & s2 & cs & Hs & Hm & Hk).
    apply atLineEnd_spec in Hk as [Hend ->].
    exists EmptyString, s1, s2. rewrite append_nil_l. auto 6.
  - destruct (if lineStart then Regex.run r (String a s) [] atLineEnd else None)
      as [res |] eqn:Hrun.
    + destruct lineStart; [| discriminate]. intros [= <-].
      apply run_sound in Hrun as (s1 & s2 & cs & Hs & Hm & Hk).
      apply atLineEnd_spec in Hk as [Hend ->].
      exists EmptyString, s1, s2. rewrite append_nil_l. auto 6.
    + intros H. apply IH in H as (before & found & after & -> & Hm & Hfirst & Hstart & Hend).
      exists (String a before), found, after. rewrite append_cons.
      split; [reflexivity |]. split; [exact Hm |]. split; [discriminate |].
      split; [| exact Hend]. right.
      destruct Hstart as [-> | (b & c & -> & Hc)].
      * exists EmptyString, a. split; [reflexivity |].
        specialize (Hfirst eq_refl). now apply negb_true_iff in Hfirst.
      * exists (String a b), c. now rewrite append_cons.
Qed.

(** A match at the start of a line that ends at the end of a line is found,
    or an earlier one is. *)
Lemma execLines_complete r lineStart before found after caps :
  Regex.Matches r found caps -> LineEnd after ->
  (before = EmptyString -> lineStart = true) ->
  (before = EmptyString \/ exists b c, before = b +:+ String c EmptyString
                                         /\ Js.isDot c = false) ->
  is_Some (execLines r lineStart (before +:+ found +:+ after)).
Proof.
  intros Hm Hend.
  assert (Hhere : is_Some (Regex.run r (found +:+ after) [] atLineEnd)).
  { apply (run_complete r found caps Hm). cbn.
    destruct (atLineEnd after caps) eqn:Hk; [eauto |].
    assert (atLineEnd after caps = Some caps) as E by (now apply atLineEnd_spec).
    congruence. }
  revert lineStart. induction before as [| a before IH]; intros lineStart Hfirst Hstart.
  - rewrite append_nil_l, (Hfirst eq_refl). destruct Hhere as [res Hres].
    destruct (found +:+ after); cbn [execLines]; rewrite Hres; eauto.
  - rewrite append_cons. cbn [execLines].
    destruct (if lineStart then _ else None); [eauto |].
    apply IH.
    + intros ->. destruct Hstart as [H | (b & c & Hb & Hc)]; [discriminate |].
      destruct b as [| ? [| ? ?]]; try discriminate Hb.
      injection Hb as ->. now rewrite Hc.
    + destruct Hstart as [H | (b & c & Hb & Hc)]; [discriminate |].
      destruct b as [| x b]; [left | right].
      * rewrite append_nil_l in Hb. now injection Hb.
      * rewrite append_cons in Hb. injection Hb as -> ->. eauto.
Qed.

(** A greedy run that can take the whole of [s1] and cannot go on takes it,
    when the rest of the pattern then succeeds. *)
Lemma greedy_max c s1 s2 caps k res :
  Js.allChars c s1 = true ->
  (s2 = EmptyString \/ exists a s, s2 = String a s /\ c a = false) ->
  k s2 caps = Some res ->
  Regex.greedy c (s1 +:+ s2) caps k = Some res.
Proof.
  intros Hall Hstop Hk. induction s1 as [| a s1 IH].
  - rewrite append_nil_l. destruct Hstop as [-> | (a & s & -> & Ha)]; cbn;
      [exact Hk | now rewrite Ha].
  - cbn in Hall. apply andb_prop in Hall as [Ha Hall]. rewrite append_cons. cbn.
    now rewrite Ha, (IH Hall).
Qed.

Lemma trimStart_split s :
  exists lead, s = lead +:+ trimStart s /\ Js.allChars Js.isSpace lead = true.
Proof.
  induction s as [| c s (lead & IH & Hlead)]; [now exists EmptyString |]. cbn.
  destruct (Js.isSpace c) eqn:Hc.
  - exists (String c lead). rewrite append_cons. cbn. rewrite Hc, Hlead.
    split; [now f_equal | reflexivity].
  - now exists EmptyString.
Qed.

Lemma trimStart_stop s :
  trimStart s = EmptyString
  \/ exists a t, trimStart s = String a t /\ Js.isSpace a = false.
Proof.
  induction s as [| c s IH]; [now left |]. cbn.
  destruct (Js.isSpace c) eqn:Hc; [exact IH | right; eauto].
Qed.

Lemma allChars_append c a b :
  Js.allChars c (a +:+ b) = Js.allChars c a && Js.allChars c b.
Proof.
  induction a as [| x a IH]; [reflexivity |]. rewrite append_cons. cbn.
  now rewrite IH, andb_assoc.
Qed.

(** X20.  The title of a Markdown step.  When the document opens with a
    heading (a hash, white space, and on that line a text that is not white
    space only), the title is that text without the white space at its
    ends.  In general the title is the trimmed text of a heading of the
    document, or, when the document has no heading, Step N for the id N. *)
Theorem markdown_title content id :
  (forall gap text after,
      HeadingAt content EmptyString gap text after ->
      trimStart text <> EmptyString ->
      markdownTitle content id = trim text)
  /\ ((exists before gap text after,
          HeadingAt content before gap text after
          /\ markdownTitle content id = trim text)
      \/ ((forall before gap text after, ~ HeadingAt content before gap text after)
          /\ markdownTitle content id = "Step " +:+ Js.ofInt id)).
Proof.
  split.
  - intros gap text after (-> & _ & Hg & Hcg & Ht & Hct & Hend) Hword.
    destruct (trimStart_split text) as (lead & Htext & Hlead).
    destruct (trimStart_stop text) as [Hnone | (a & word & Hw & Ha)]; [contradiction |].
    assert (trim text = trim (String a word)) as ->.
    { unfold trim. rewrite Hw. cbn [trimStart]. now rewrite Ha. }
    rewrite Hw in Htext. clear Hw Hword Ht. subst text.
    rewrite allChars_append in Hct. apply andb_prop in Hct as [_ Hcw].
    unfold markdownTitle. rewrite append_nil_l.
    assert (Regex.run titleRegex ("#" +:+ gap +:+ (lead +:+ String a word) +:+ after)
                      [] atLineEnd
            = Some [String a word]) as Hrun.
    { unfold titleRegex. cbn [Regex.seq Regex.run]. rewrite startsWith_append, drop_append.
      destruct gap as [| g gap]; [congruence |]. rewrite append_cons.
      cbn in Hcg. apply andb_prop in Hcg as [Hg1 Hcg]. rewrite Hg1.
      rewrite (append_assoc lead), <- (append_assoc gap lead).
      apply greedy_max.
      - now rewrite allChars_append, Hcg, Hlead.
      - right. rewrite append_cons. eauto.
      - rewrite append_cons. cbn in Hcw. apply andb_prop in Hcw as [Ha1 Hcw].
        rewrite Ha1. apply greedy_max; [exact Hcw | exact Hend |].
        rewrite <- append_cons, take_append. cbn [app].
        now apply atLineEnd_spec. }
    destruct ("#" +:+ gap +:+ (lead +:+ String a word) +:+ after) eqn:E;
      cbn [execLines]; now rewrite Hrun.
  - unfold markdownTitle.
    destruct (execLines titleRegex true content) as [caps |] eqn:Hexec.
    + left. apply execLines_sound in Hexec
        as (before & found & after & -> & Hm & _ & Hstart & Hend).
      apply title_matches in Hm as (gap & text & -> & -> & Hg & Hcg & Ht & Hct).
      exists before, gap, text, after. split; [| reflexivity].
      split; [now rewrite !append_assoc |]. now repeat split.
    + right. split; [| reflexivity].
      intros before gap text after (-> & Hstart & Hg & Hcg & Ht & Hct & Hend).
      assert (Regex.Matches titleRegex ("#" +:+ gap +:+ text) [text]) as Hm.
      { apply title_matches. exists gap, text. now repeat split. }
      destruct (execLines_complete titleRegex true before _ after _ Hm Hend
                  ltac:(reflexivity) Hstart) as [caps Hfound].
      rewrite !append_assoc in Hfound. cbn in Hfound, Hexec. congruence.
Qed.

Lemma markdown_title_witness :
  markdownTitle projectResourcesDoc 1 = "Project Resources and Knowledge Base".
Proof.
  destruct (markdown_title projectResourcesDoc 1) as [Hfirst _].
  apply (Hfirst " " "Project Resources and Knowledge Base"
           (newline +:+ newline
            +:+ "**Step 1 of 3** | **Optional Step** | **Estimated Time: 6-8 hours**"
            +:+ newline)).
  - split; [reflexivity |]. split; [now left |].
    split; [discriminate |]. split; [reflexivity |].
    split; [discriminate |]. split; [reflexivity |].
    right. eexists _, _. split; reflexivity.
  - discriminate.
Defined.

(** ** The description of a Markdown document *)

Lemma lazy_here c s caps k res :
  k s caps = Some res -> Regex.lazy c s caps k = Some res.
Proof. intros Hk. destruct s; cbn; now rewrite Hk. Qed.

(** A lazy run goes on as long as the rest of the pattern fails. *)
Lemma lazy_skip c s1 s2 caps k :
  Js.allChars c s1 = true ->
  (forall x y, s1 = x +:+ y -> y <> EmptyString -> k (y +:+ s2) caps = None) ->
  Regex.lazy c (s1 +:+ s2) caps k = Regex.lazy c s2 caps k.
Proof.
  induction s1 as [| a s1 IH]; intros Hall Hfail; [reflexivity |].
  cbn in Hall. apply andb_prop in Hall as [Ha Hall]. rewrite append_cons. cbn.
  rewrite <- append_cons, (Hfail EmptyString (String a s1) eq_refl ltac:(discriminate)).
  rewrite Ha. apply IH; [exact Hall |].
  intros x y -> Hy. apply (Hfail (String a x) y); [reflexivity | exact Hy].
Qed.

Lemma append_eq_cases (a b c d : string) :
  a +:+ b = c +:+ d ->
  (exists x, a = c +:+ x /\ d = x +:+ b) \/ (exists x, x <> EmptyString /\ c = a +:+ x /\ b = x +:+ d).
Proof.
  revert c. induction a as [| x a IH]; intros c H.
  - rewrite append_nil_l in H. destruct c as [| y c].
    + left. exists EmptyString. now rewrite append_nil_l in *.
    + right. exists (String y c). now rewrite !append_nil_l.
  - destruct c as [| y c].
    + left. exists (String x a). now rewrite append_nil_l in *.
    + rewrite !append_cons in H. injection H as <- H.
      destruct (IH _ H) as [(z & -> & ->) | (z & Hz & -> & ->)].
      * left. exists z. now rewrite append_cons.
      * right. exists z. now rewrite append_cons.
Qed.

Lemma split_hd_clean s :
  Js.allChars notLineFeed (hd EmptyString (Js.split lineFeed s)) = true.
Proof.
  induction s as [| c s IH]; [reflexivity |]. cbn [Js.split].
  destruct (Ascii.eqb c lineFeed) eqn:Hc; [reflexivity |].
  destruct (Js.split lineFeed s) as [| piece rest]; cbn in *; unfold notLineFeed at 1;
    now rewrite Hc.
Qed.

Lemma split_hd_line line after :
  Js.allChars notLineFeed line = true ->
  (after = EmptyString \/ exists a, after = String lineFeed a) ->
  hd EmptyString (Js.split lineFeed (line +:+ after)) = line.
Proof.
  intros Hline Hafter. induction line as [| c line IH].
  - rewrite append_nil_l. destruct Hafter as [-> | (a & ->)]; reflexivity.
  - cbn in Hline. apply andb_prop in Hline as [Hc Hline]. rewrite append_cons.
    cbn [Js.split]. apply negb_true_iff in Hc. rewrite Hc.
    specialize (IH Hline).
    destruct (Js.split lineFeed (line +:+ after)); cbn in *; now subst.
Qed.

Lemma trimEnd_append a b :
  trimEnd (a +:+ b) = match trimEnd b with
                      | EmptyString => trimEnd a
                      | String _ _ => a +:+ trimEnd b
                      end.
Proof.
  induction a as [| x a IH]; [rewrite append_nil_l; now destruct (trimEnd b) |].
  rewrite append_cons. cbn [trimEnd]. rewrite IH.
  destruct (trimEnd b); [reflexivity |]. rewrite append_cons.
  destruct a; reflexivity.
Qed.

Lemma trimEnd_head c s :
  trimEnd (String c s) = EmptyString \/ exists t, trimEnd (String c s) = String c t.
Proof.
  cbn. destruct (trimEnd s); [destruct (Js.isSpace c) |]; eauto.
Qed.

Lemma length_trimEnd s : (String.length (trimEnd s) <= String.length s)%nat.
Proof.
  induction s as [| c s IH]; [reflexivity |]. cbn [trimEnd].
  destruct (trimEnd s); [destruct (Js.isSpace c) |]; cbn in *; lia.
Qed.

Lemma trim_fixed s : trim s = s -> trimStart s = s /\ trimEnd s = s.
Proof.
  intros H. destruct (trimStart_split s) as (lead & Hs & _).
  assert (lead = EmptyString) as Hlead.
  { pose proof (length_trimEnd (trimStart s)) as H1. unfold trim in H. rewrite H in H1.
    apply (f_equal String.length) in Hs. rewrite length_append in Hs.
    destruct lead; [reflexivity | cbn in Hs; lia]. }
  rewrite Hlead, append_nil_l in Hs. unfold trim in H. rewrite <- Hs in H. auto.
Qed.

Lemma beforeSection_spec s caps res :
  beforeSection s caps = Some res ->
  res = caps /\ (s = EmptyString \/ exists a, s = String lineFeed a).
Proof.
  unfold beforeSection. destruct s as [| c s]; [intros [= <-]; auto |].
  change (Js.startsWith (newline +:+ "##") (String c s))
    with (Ascii.eqb lineFeed c && Js.startsWith "##" s).
  change (Js.startsWith (newline +:+ newline +:+ "##") (String c s))
    with (Ascii.eqb lineFeed c && Js.startsWith (newline +:+ "##") s).
  destruct (Ascii.eqb lineFeed c) eqn:Hc.
  - apply Ascii.eqb_eq in Hc as <-.
    destruct (_ || _); [intros [= <-]; eauto | discriminate].
  - cbn. discriminate.
Qed.

(** X21.  The description of a Markdown step is a single line; it is empty
    when the document does not begin with a hash; and for a document that
    begins with a heading of one line, an empty line, and a line of text
    without white space at its ends, it is that line. *)
Theorem markdown_description content :
  Js.allChars notLineFeed (markdownDescription content) = true
  /\ (Js.startsWith "#" content = false -> markdownDescription content = EmptyString)
  /\ (forall gap title line rest,
        content = "#" +:+ gap +:+ title +:+ newline +:+ newline +:+ line +:+ rest ->
        gap <> EmptyString -> Js.allChars Js.isSpace gap = true ->
        title <> EmptyString -> trimStart title = title ->
        Js.allChars notLineFeed title = true ->
        line <> EmptyString -> trim line = line ->
        Js.allChars notLineFeed line = true ->
        (rest = EmptyString \/ exists after, rest = String lineFeed after) ->
        markdownDescription content = line).
Proof.
  split; [| split].
  - unfold markdownDescription.
    destruct (Regex.run descriptionRegex content [] beforeSection) as [[| text ?] |];
      try reflexivity. apply split_hd_clean.
  - intros Hstart. unfold markdownDescription, descriptionRegex.
    cbn [Regex.seq Regex.run]. now rewrite Hstart.
  - intros gap title line rest -> Hg Hcg Ht Htitle Hct Hl Hline Hcl Hrest.
    set (body := line +:+ rest).
    set (G := Regex.Group (Regex.PlusLazy anyChar)).
    (* the captured text *)
    assert (exists d r, body = d +:+ r /\ d <> EmptyString
                        /\ (r = EmptyString \/ exists a, r = String lineFeed a)
                        /\ Regex.run G body [] beforeSection = Some [d])
      as (d & r & Hbody & Hd & Hr & Hgroup).
    { assert (Regex.Matches G body [body]) as Hm.
      { apply (Regex.MGroup _ _ []). apply matches_plus_lazy.
        - unfold body. destruct line; [congruence | discriminate].
        - clear. induction body; [reflexivity | assumption]. }
      destruct (run_complete G body [body] Hm EmptyString [] beforeSection)
        as [res Hres]; [cbn; eauto |].
      rewrite append_nil_r in Hres. pose proof Hres as Hsound.
      apply run_sound in Hsound as (s1 & s2 & cs & Hs & Hm' & Hk).
      apply beforeSection_spec in Hk as [-> Hs2].
      inversion Hm' as [| | | | | | | | r0 s0 c0 Hplus]; subst.
      inversion Hplus; subst. exists (String a s), s2. cbn [app] in Hres.
      split; [exact Hs |]. split; [discriminate |]. split; [exact Hs2 | exact Hres]. }
    (* the match *)
    assert (Regex.run descriptionRegex
              ("#" +:+ gap +:+ title +:+ newline +:+ newline +:+ body) []
              beforeSection = Some [d]) as Hrun.
    { unfold descriptionRegex. cbn [Regex.seq Regex.run].
      rewrite startsWith_append, drop_append.
      destruct gap as [| g gap]; [congruence |]. rewrite append_cons.
      cbn in Hcg. apply andb_prop in Hcg as [Hg1 Hcg]. rewrite Hg1.
      destruct title as [| t title]; [congruence |].
      apply greedy_max; [exact Hcg | |].
      { right. rewrite append_cons. exists t. eexists. split; [reflexivity |].
        destruct (trimStart_stop (String t title)) as [E | (a & w & E & Ha)];
          rewrite Htitle in E; [discriminate | now injection E as -> _]. }
      rewrite append_cons. cbn [anyChar].
      cbn in Hct. apply andb_prop in Hct as [_ Hct].
      rewrite lazy_skip.
      - apply lazy_here. rewrite <- append_assoc, startsWith_append, drop_append.
        exact Hgroup.
      - clear. induction title; [reflexivity | assumption].
      - intros x y -> Hy. destruct y as [| c y]; [congruence |].
        rewrite allChars_append in Hct. apply andb_prop in Hct as [_ Hct].
        cbn in Hct. apply andb_prop in Hct as [Hc _].
        unfold notLineFeed in Hc. apply negb_true_iff in Hc.
        rewrite append_cons. rewrite Ascii.eqb_sym in Hc.
        change (Js.startsWith (newline +:+ newline) (String c ?x))
          with (Ascii.eqb lineFeed c && Js.startsWith newline x).
        now rewrite Hc. }
    unfold markdownDescription. fold body. rewrite Hrun.
    (* the first line of the captured text *)
    assert (exists d', d = line +:+ d'
                       /\ (d' = EmptyString \/ exists a, d' = String lineFeed a))
      as (d' & -> & Hd').
    { unfold body in Hbody. apply append_eq_cases in Hbody
        as [(x & Hx & ->) | (x & Hx & -> & ->)].
      - destruct x as [| c x].
        + exists EmptyString. rewrite append_nil_r in Hx. rewrite append_nil_r. split; [now symmetry | now left].
        + exfalso. rewrite Hx, allChars_append in Hcl.
          apply andb_prop in Hcl as [_ Hcl]. cbn in Hcl.
          apply andb_prop in Hcl as [Hc _].
          destruct Hr as [E | (a & E)]; [discriminate E |].
          rewrite append_cons in E. injection E as -> _. discriminate Hc.
      - exists x. split; [reflexivity |]. right.
        destruct Hrest as [E | (a & E)]; destruct x as [| c x]; try congruence.
        + discriminate E.
        + rewrite append_cons in E. injection E as -> _. eauto. }
    destruct (trim_fixed line Hline) as [Hls Hle].
    assert (trim (line +:+ d') = line +:+ match trimEnd d' with
                                          | EmptyString => EmptyString
                                          | String _ _ => trimEnd d'
                                          end) as ->.
    { unfold trim.
      assert (trimStart (line +:+ d') = line +:+ d') as ->.
      { destruct line as [| c l]; [congruence |].
        destruct (trimStart_stop (String c l)) as [E | (a & w & E & Ha)];
          rewrite Hls in E; [discriminate |]. injection E as -> _.
        rewrite append_cons. cbn. now rewrite Ha. }
      rewrite trimEnd_append. destruct (trimEnd d'); [| reflexivity].
      now rewrite Hle, append_nil_r. }
    apply split_hd_line; [exact Hcl |].
    destruct d' as [| c d']; [now left |].
    destruct Hd' as [E | (a & [= -> ->])]; [discriminate |].
    destruct (trimEnd_head lineFeed a) as [-> | (t & ->)]; eauto.
Qed.

Lemma markdown_description_witness :
  markdownDescription projectResourcesDoc
  = "**Step 1 of 3** | **Optional Step** | **Estimated Time: 6-8 hours**".
Proof.
  destruct (markdown_description projectResourcesDoc) as (_ & _ & Hline).
  apply (Hline " " "Project Resources and Knowledge Base" _ newline);
    first [reflexivity | discriminate | right; eexists; reflexivity].
Defined.

(** ** The completion criteria of a Markdown document *)

Lemma beforeHeading_Some s caps res :
  beforeHeading s caps = Some res <-> res = caps /\ SectionEnd s.
Proof.
  unfold beforeHeading, SectionEnd.
  destruct (Js.startsWith _ s) eqn:Hs; cbn [orb].
  - split; [intros [= <-]; auto | intros [-> _]; reflexivity].
  - destruct s; cbn [String.eqb]; split.
    + intros [= <-]. auto.
    + intros [-> _]. reflexivity.
    + discriminate.
    + intros [_ [H | H]]; discriminate.
Qed.

Lemma beforeHeading_None s caps :
  beforeHeading s caps = None <-> ~ SectionEnd s.
Proof.
  split.
  - intros H Hend.
    assert (beforeHeading s caps = Some caps) as E by (now apply beforeHeading_Some).
    congruence.
  - intros H. destruct (beforeHeading s caps) eqn:E; [| reflexivity].
    apply beforeHeading_Some in E as [_ E]. contradiction.
Qed.

(** What a lazy run takes is the shortest run after which the rest of the
    pattern succeeds. *)
Lemma lazy_minimal c s caps k res :
  Regex.lazy c s caps k = Some res ->
  exists s1 s2,
    s = s1 +:+ s2 /\ Js.allChars c s1 = true /\ k s2 caps = Some res
    /\ forall x y, s1 = x +:+ y -> y <> EmptyString -> k (y +:+ s2) caps = None.
Proof.
  revert res. induction s as [| a s IH]; intros res; cbn.
  - destruct (k "" caps) eqn:Hk; [| discriminate].
    intros [= <-]. exists EmptyString, EmptyString.
    split; [reflexivity |]. split; [reflexivity |]. split; [exact Hk |].
    intros x y Hxy Hy. destruct x; [| discriminate]. rewrite append_nil_l in Hxy. congruence.
  - destruct (k (String a s) caps) eqn:Hk.
    + intros [= <-]. exists EmptyString, (String a s).
      split; [reflexivity |]. split; [reflexivity |]. split; [exact Hk |].
      intros x y Hxy Hy. destruct x; [| discriminate]. rewrite append_nil_l in Hxy. congruence.
    + destruct (c a) eqn:Hc; [| discriminate]. intros H.
      destruct (IH _ H) as (s1 & s2 & -> & Hall & Hk' & Hmin).
      exists (String a s1), s2. cbn. rewrite Hc.
      split; [reflexivity |]. split; [exact Hall |]. split; [exact Hk' |].
      intros x y Hxy Hy. destruct x as [| b x].
      * rewrite append_nil_l in Hxy. subst y. now rewrite append_cons.
      * rewrite append_cons in Hxy. injection Hxy as -> ->. now apply (Hmin x y).
Qed.

Lemma allChars_anyChar s : Js.allChars anyChar s = true.
Proof. induction s; [reflexivity | assumption]. Qed.

Lemma take_0 s : Js.take 0 s = EmptyString.
Proof. now destruct s. Qed.

(** The captured group of the criteria pattern. *)
Lemma criteria_group body res :
  Regex.run (Regex.Group (Regex.Alt (Regex.Lit EmptyString) (Regex.PlusLazy anyChar)))
            body [] beforeHeading = Some res <->
  exists text after,
    body = text +:+ after /\ res = [text] /\ SectionEnd after
    /\ forall x y, text = x +:+ y -> y <> EmptyString -> ~ SectionEnd (y +:+ after).
Proof.
  cbn [Regex.run Js.startsWith Js.drop String.length]. rewrite Nat.sub_diag, take_0.
  cbn [app]. split.
  - destruct (beforeHeading body [""]) as [res0 |] eqn:Hempty.
    + intros [= <-]. apply beforeHeading_Some in Hempty as [-> Hend].
      exists EmptyString, body. rewrite append_nil_l. repeat split; [exact Hend |].
      intros x y Hxy Hy. destruct x; [| discriminate]. rewrite append_nil_l in Hxy.
      congruence.
    + destruct body as [| a body]; [discriminate |]. cbn [anyChar]. intros Hlazy.
      apply lazy_minimal in Hlazy as (s1 & s2 & -> & _ & Hk & Hmin).
      apply beforeHeading_Some in Hk as [-> Hend]. cbn [app] in *.
      exists (String a s1), s2. rewrite <- append_cons, take_append.
      repeat split; [exact Hend |].
      intros x y Hxy Hy. destruct x as [| b x].
      * rewrite append_nil_l in Hxy. subst y. rewrite append_cons.
        now apply (beforeHeading_None _ [""]).
      * rewrite append_cons in Hxy. injection Hxy as -> ->.
        specialize (Hmin _ _ eq_refl Hy). cbv beta in Hmin.
        now apply beforeHeading_None in Hmin.
  - intros (text & after & -> & -> & Hend & Hmin). destruct text as [| a text].
    + rewrite append_nil_l.
      assert (beforeHeading after [""] = Some [""]) as ->;
        [now apply beforeHeading_Some | reflexivity].
    + assert (beforeHeading (String a text +:+ after) [""] = None) as ->.
      { apply beforeHeading_None. apply (Hmin EmptyString); [reflexivity | discriminate]. }
      rewrite append_cons. cbn [anyChar]. rewrite lazy_skip.
      * apply lazy_here. rewrite <- append_cons, take_append. cbn [app].
        now apply beforeHeading_Some.
      * apply allChars_anyChar.
      * intros x y -> Hy. apply beforeHeading_None.
        apply (Hmin (String a x)); [reflexivity | exact Hy].
Qed.

Lemma criteria_group_total body :
  is_Some (Regex.run (Regex.Group (Regex.Alt (Regex.Lit EmptyString)
                                             (Regex.PlusLazy anyChar)))
                     body [] beforeHeading).
Proof.
  rewrite <- (append_nil_r body) at 1. apply (run_complete _ body [body]).
  - apply (Regex.MGroup _ _ []). destruct body as [| a body].
    + apply Regex.MAltL. constructor.
    + apply Regex.MAltR. constructor; [reflexivity | apply allChars_anyChar].
  - cbn. eauto.
Qed.

(** The criteria pattern at the start of [s]. *)
Lemma criteria_here s res :
  Regex.run criteriaRegex s [] beforeHeading = Some res <->
  exists gap text after,
    s = "##" +:+ gap +:+ criteriaMarker +:+ text +:+ after
    /\ gap <> EmptyString /\ Js.allChars Js.isSpace gap = true
    /\ res = [text] /\ SectionEnd after
    /\ forall x y, text = x +:+ y -> y <> EmptyString -> ~ SectionEnd (y +:+ after).
Proof.
  unfold criteriaRegex. cbn [Regex.seq]. split.
  - cbn [Regex.run].
    destruct (Js.startsWith "##" s) eqn:Hs; [| discriminate].
    apply startsWith_split in Hs.
    set (s0 := Js.drop (String.length "##") s) in *. clearbody s0. subst s.
    destruct s0 as [| g s']; [discriminate |].
    destruct (Js.isSpace g) eqn:Hg; [| discriminate]. intros H.
    apply greedy_sound in H as (s1 & s2 & -> & Hall & H).
    destruct (Js.startsWith criteriaMarker s2) eqn:Hm; [| discriminate].
    apply startsWith_split in Hm.
    set (body := Js.drop (String.length criteriaMarker) s2) in *. clearbody body.
    subst s2.
    apply criteria_group in H as (text & after & -> & -> & Hend & Hmin).
    exists (String g s1), text, after.
    split; [reflexivity |].
    split; [discriminate |]. split; [now apply allChars_cons |]. auto.
  - intros (gap & text & after & -> & Hg & Hcg & -> & Hend & Hmin).
    cbn [Regex.run]. rewrite startsWith_append, drop_append.
    destruct gap as [| g gap]; [congruence |]. rewrite append_cons.
    cbn in Hcg. apply andb_prop in Hcg as [Hg1 Hcg]. rewrite Hg1.
    apply greedy_max; [exact Hcg | right; unfold criteriaMarker; eauto |].
    rewrite startsWith_append, drop_append. apply criteria_group. eauto 6.
Qed.

Lemma criteria_marker gap after :
  gap <> EmptyString -> Js.allChars Js.isSpace gap = true ->
  is_Some (Regex.run criteriaRegex ("##" +:+ gap +:+ criteriaMarker +:+ after) []
                     beforeHeading).
Proof.
  intros Hg Hcg. destruct (criteria_group_total after) as [res Hres].
  apply criteria_group in Hres as (text & rest & -> & -> & Hend & Hmin).
  exists [text]. apply criteria_here. exists gap, text, rest. auto 6.
Qed.

(** The leftmost place where the pattern and its look-ahead succeed. *)
Lemma execBefore_Some r k s res :
  execBefore r k s = Some res <->
  exists before rest,
    s = before +:+ rest /\ Regex.run r rest [] k = Some res
    /\ forall x y, before = x +:+ y -> y <> EmptyString ->
                   Regex.run r (y +:+ rest) [] k = None.
Proof.
  split.
  - induction s as [| a s IH]; cbn [execBefore].
    + destruct (Regex.run r "" [] k) eqn:Hrun; [| discriminate]. intros [= <-].
      exists EmptyString, EmptyString. split; [reflexivity |]. split; [exact Hrun |].
      intros x y Hxy Hy. destruct x; [| discriminate]. rewrite append_nil_l in Hxy.
      congruence.
    + destruct (Regex.run r (String a s) [] k) eqn:Hrun.
      * intros [= <-]. exists EmptyString, (String a s).
        split; [reflexivity |]. split; [exact Hrun |].
        intros x y Hxy Hy. destruct x; [| discriminate]. rewrite append_nil_l in Hxy.
        congruence.
      * intros H. destruct (IH H) as (before & rest & -> & Hrest & Hmin).
        exists (String a before), rest. split; [reflexivity |]. split; [exact Hrest |].
        intros x y Hxy Hy. destruct x as [| b x].
        -- rewrite append_nil_l in Hxy. subst y. now rewrite append_cons.
        -- rewrite append_cons in Hxy. injection Hxy as -> ->. now apply (Hmin x y).
  - intros (before & rest & -> & Hrest & Hmin).
    induction before as [| a before IH].
    + rewrite append_nil_l. destruct rest; cbn [execBefore]; now rewrite Hrest.
    + rewrite append_cons. cbn [execBefore]. rewrite <- append_cons.
      rewrite (Hmin EmptyString (String a before) eq_refl ltac:(discriminate)).
      apply IH. intros x y -> Hy. now apply (Hmin (String a x) y).
Qed.

Lemma execBefore_None r k s :
  execBefore r k s = None ->
  forall x y, s = x +:+ y -> Regex.run r y [] k = None.
Proof.
  induction s as [| a s IH]; cbn [execBefore].
  - destruct (Regex.run r "" [] k) eqn:Hrun; [discriminate |]. intros _ x y Hxy.
    destruct x; [| discriminate]. rewrite append_nil_l in Hxy. now subst y.
  - destruct (Regex.run r (String a s) [] k) eqn:Hrun; [discriminate |].
    intros H x y Hxy. destruct x as [| b x].
    + rewrite append_nil_l in Hxy. now subst y.
    + rewrite append_cons in Hxy. injection Hxy as -> ->. now apply (IH H x y).
Qed.

(** X22.  The completion criteria of a Markdown step are the text that
    follows the first heading made of two hashes, white space and the
    marker, up to the first place where a line feed and two hashes come
    next or the document ends, without the white space at its ends; they
    are undefined exactly when the document has no such heading. *)
Theorem markdown_completion_criteria content :
  (forall criteria,
      markdownCompletionCriteria content = Some criteria <->
      exists before gap text after,
        CriteriaAt content before gap text after /\ criteria = trim text)
  /\ (markdownCompletionCriteria content = None <->
      forall before gap after, ~ MarkerAt content before gap after).
Proof.
  assert (Hfound : forall res,
    execBefore criteriaRegex beforeHeading content = Some res <->
    exists before gap text after,
      CriteriaAt content before gap text after /\ res = [text]).
  { intros res. rewrite execBefore_Some. split.
    - intros (before & rest & -> & Hrun & Hleft).
      apply criteria_here in Hrun as (gap & text & after & -> & Hg & Hcg & -> & Hend & Hmin).
      exists before, gap, text, after. split; [| reflexivity].
      split; [now repeat split |]. split; [| now split].
      intros b g a (Hs & Hg' & Hcg').
      destruct (Nat.le_gt_cases (String.length before) (String.length b)) as [| Hlt];
        [assumption | exfalso].
      apply append_eq_cases in Hs as [(x & -> & Hx) | (x & Hx & -> & _)].
      + destruct x as [| c x]; [rewrite append_nil_r in Hlt; lia |].
        specialize (Hleft b (String c x) eq_refl ltac:(discriminate)).
        rewrite <- Hx in Hleft.
        destruct (criteria_marker g a Hg' Hcg') as [r Hr]. congruence.
      + rewrite length_append in Hlt. lia.
    - intros (before & gap & text & after & ((-> & Hg & Hcg) & Hleft & Hend & Hmin) & ->).
      exists before, ("##" +:+ gap +:+ criteriaMarker +:+ text +:+ after).
      split; [reflexivity |].
      split; [apply criteria_here; exists gap, text, after; auto 10 |].
      intros x y -> Hy.
      destruct (Regex.run criteriaRegex _ [] beforeHeading) as [r |] eqn:Hrun;
        [exfalso | reflexivity].
      apply criteria_here in Hrun as (g & t & a & Hs & Hg' & Hcg' & _).
      assert (MarkerAt ((x +:+ y) +:+ "##" +:+ gap +:+ criteriaMarker +:+ text +:+ after)
                       x g (t +:+ a)) as Hmarker.
      { split; [| now split]. rewrite append_assoc. now rewrite Hs. }
      specialize (Hleft _ _ _ Hmarker). rewrite length_append in Hleft.
      destruct y; [congruence | cbn in Hleft; lia]. }
  unfold markdownCompletionCriteria.
  remember (execBefore criteriaRegex beforeHeading content) as found eqn:Hexec.
  split.
  - intros criteria. destruct found as [res |].
    + destruct (proj1 (Hfound res) eq_refl) as (before & gap & text & after & Hat & ->).
      split.
      * intros [= <-]. eauto 6.
      * intros (b & g & t & a & Hat' & ->).
        assert (Some [text] = Some [t]) as [= ->] by (apply Hfound; eauto 6).
        reflexivity.
    + split; [discriminate |]. intros (b & g & t & a & Hat' & _).
      assert (@None Regex.captures = Some [t]) by (apply Hfound; eauto 6).
      discriminate.
  - split.
    + intros Hnone b g a (Hs & Hg & Hcg). destruct found as [res |].
      * destruct (proj1 (Hfound res) eq_refl) as (? & ? & text & ? & _ & ->).
        discriminate.
      * symmetry in Hexec.
        pose proof (execBefore_None _ _ _ Hexec b _ Hs) as Hrun.
        destruct (criteria_marker g a Hg Hcg) as [r Hr]. congruence.
    + intros Hno. destruct found as [res |]; [| reflexivity].
      destruct (proj1 (Hfound res) eq_refl)
        as (before & gap & text & after & (Hm & _) & ->).
      exfalso. exact (Hno _ _ _ Hm).
Qed.

(** ** All profiles, latest first *)

Lemma loadProfiles_eq files profiles (st : Store) :
  loadProfiles files profiles st
  = (Ok (profiles
         ++ flat_map (fun file =>
                        if isProfileFile file
                        then match st !! file with Some p => [p] | None => [] end
                        else []) files), st).
Proof.
  revert profiles. induction files as [| file files IH]; intros profiles; cbn.
  - unfold ret. now rewrite app_nil_r.
  - destruct (isProfileFile file); [| now rewrite IH].
    unfold bind, readProfile. destruct (st !! file) as [p |].
    + rewrite IH, <- app_assoc. reflexivity.
    + now rewrite IH.
Qed.

Lemma loadProfiles_stored (st : Store) :
  flat_map (fun file =>
              if isProfileFile file
              then match st !! file with Some p => [p] | None => [] end
              else []) (map fst (map_to_list st))
  = storedProfiles st.
Proof.
  unfold storedProfiles.
  assert (forall entry, entry ∈ map_to_list st -> st !! fst entry = Some (snd entry))
    as Hall.
  { intros [file p] Hin. now apply elem_of_map_to_list in Hin. }
  induction (map_to_list st) as [| [file p] l IH]; [reflexivity |]. cbn.
  rewrite IH by (intros entry Hin; apply Hall; now right).
  destruct (isProfileFile file); [| reflexivity].
  assert (st !! file = Some p) as -> by (apply (Hall (file, p)); now left).
  reflexivity.
Qed.

Lemma insertLatest_perm {A} (time : A -> Z) x l :
  Permutation (insertLatest time x l) (x :: l).
Proof.
  induction l as [| y l IH]; cbn; [reflexivity |].
  destruct (_ <=? _); [reflexivity |]. rewrite IH. apply perm_swap.
Qed.

Lemma sortLatest_perm {A} (time : A -> Z) l : Permutation (sortLatest time l) l.
Proof.
  induction l as [| x l IH]; cbn; [reflexivity |].
  rewrite insertLatest_perm. now constructor.
Qed.

Lemma insertLatest_sorted {A} (time : A -> Z) x l :
  StronglySorted (fun a b => time b <= time a) l ->
  StronglySorted (fun a b => time b <= time a) (insertLatest time x l).
Proof.
  induction 1 as [| y l Hs IH Hall]; cbn.
  - repeat constructor.
  - destruct (_ <=? _) eqn:Hle.
    + apply Z.leb_le in Hle. constructor; [now constructor |].
      constructor; [exact Hle |].
      eapply Forall_impl; [exact Hall |]. cbn. intros; lia.
    + apply Z.leb_gt in Hle. constructor; [exact IH |].
      eapply Permutation_Forall; [symmetry; apply insertLatest_perm |].
      constructor; [lia | exact Hall].
Qed.

Lemma sortLatest_sorted {A} (time : A -> Z) l :
  StronglySorted (fun a b => time b <= time a) (sortLatest time l).
Proof.
  induction l as [| x l IH]; cbn; [constructor | now apply insertLatest_sorted].
Qed.

Lemma sortLatest_map {A B} (f : A -> B) (time : B -> Z) l :
  sortLatest time (map f l) = map f (sortLatest (fun a => time (f a)) l).
Proof.
  induction l as [| x l IH]; [reflexivity |]. cbn [map sortLatest fold_right].
  fold (sortLatest time (map f l)). fold (sortLatest (fun a => time (f a)) l).
  rewrite IH. generalize (sortLatest (fun a => time (f a)) l). intros s.
  induction s as [| y s IHs]; [reflexivity |]. cbn.
  destruct (_ <=? _); [reflexivity |]. cbn. now rewrite IHs.
Qed.

Lemma sortByLastUpdated_perm l : Permutation (sortByLastUpdated l) l.
Proof. apply sortLatest_perm. Qed.

Lemma sortByLastUpdated_sorted l : StronglySorted latestFirst (sortByLastUpdated l).
Proof. apply (sortLatest_sorted (fun profile => lastUpdated (metadata profile))). Qed.

Lemma getAllProfiles_eq (st : Store) :
  getAllProfiles st = (Ok (sortByLastUpdated (storedProfiles st)), st).
Proof.
  unfold getAllProfiles, bind, readdir. rewrite loadProfiles_eq. cbn [app].
  now rewrite loadProfiles_stored.
Qed.

Lemma elem_of_storedProfiles (st : Store) p :
  p ∈ storedProfiles st <->
  exists file, isProfileFile file = true /\ st !! file = Some p.
Proof.
  unfold storedProfiles. rewrite list_elem_of_fmap. split.
  - intros ([file q] & -> & Hin). apply list_elem_of_In, filter_In in Hin as [Hin Hfile].
    apply list_elem_of_In, elem_of_map_to_list in Hin. eauto.
  - intros (file & Hfile & Hp). exists (file, p). split; [reflexivity |].
    apply list_elem_of_In, filter_In. split; [| exact Hfile].
    now apply list_elem_of_In, elem_of_map_to_list.
Qed.

(** X23.  [getAllProfiles] never fails and writes nothing; it returns the
    profiles the profile files of the data directory hold, latest update
    first; in a directory the server produced no two of them have the same
    address. *)
Theorem getAllProfiles_spec (st : Store) :
  exists profiles,
    getAllProfiles st = (Ok profiles, st)
    /\ StronglySorted latestFirst profiles
    /\ Permutation profiles (storedProfiles st)
    /\ (forall p, p ∈ profiles <->
                  exists file, isProfileFile file = true /\ st !! file = Some p)
    /\ (Reachable st -> NoDup (map email profiles)).
Proof.
  exists (sortByLastUpdated (storedProfiles st)).
  split; [apply getAllProfiles_eq |]. split; [apply sortByLastUpdated_sorted |].
  split; [apply sortByLastUpdated_perm |]. split.
  - intros p. rewrite sortByLastUpdated_perm. apply elem_of_storedProfiles.
  - intros Hreach. rewrite sortByLastUpdated_perm. unfold storedProfiles.
    pose proof (Reachable_filed st Hreach) as Hfiled.
    pose proof (NoDup_fst_map_to_list st) as Hnodup.
    assert (forall entry, entry ∈ map_to_list st ->
                          fst entry = profileFile (email (snd entry))) as Hall.
    { intros [file p] Hin. apply elem_of_map_to_list in Hin. now apply Hfiled. }
    induction (map_to_list st) as [| [file p] l IH]; [constructor |].
    cbn [fmap list_fmap fst] in Hnodup. apply NoDup_cons in Hnodup as [Hfresh Hnodup].
    specialize (IH Hnodup ltac:(intros entry Hin; apply Hall; now right)).
    cbn. destruct (isProfileFile file); [| exact IH]. cbn. apply NoDup_cons.
    split; [| exact IH]. intros Hin. apply Hfresh.
    apply list_elem_of_fmap in Hin as (q & Hq & Hin).
    apply list_elem_of_fmap in Hin as ([file' q'] & -> & Hin).
    apply list_elem_of_In, filter_In in Hin as [Hin _]. apply list_elem_of_In in Hin.
    pose proof (Hall _ ltac:(right; exact Hin)) as E1.
    pose proof (Hall (file, p) ltac:(now left)) as E2.
    cbn in *. assert (file = file') as -> by congruence.
    apply list_elem_of_fmap. exists (file', q'). auto.
Qed.



(** X25.  The progress index written after a save lists the profiles
    [getAllProfiles] returns, in the same order, each by its address, its
    current step and its last update; [totalEmployees] is their number. *)
Theorem progress_index_spec now (st : Store) :
  exists index profiles,
    updateProgressIndex now st = (Ok index, st)
    /\ getAllProfiles st = (Ok profiles, st)
    /\ updatedAt index = now
    /\ indexProfiles index = map indexEntry profiles
    /\ totalEmployees index = length profiles
    /\ totalEmployees index = length (storedProfiles st).
Proof.
  eexists. exists (sortByLastUpdated (storedProfiles st)).
  split; [| split; [apply getAllProfiles_eq |]].
  - unfold updateProgressIndex, bind, readdir. rewrite loadProfiles_eq. cbn [app].
    rewrite loadProfiles_stored. reflexivity.
  - cbn. split; [reflexivity |].
    split; [exact (sortLatest_map indexEntry entryLastUpdated _) |].
    rewrite length_map.
    split; [| reflexivity]. symmetry. apply Permutation_length, sortByLastUpdated_perm.
Qed.

(** ** The attributes of an HTML document *)

(** [exec] finds the leftmost match. *)
Lemma exec_leftmost r s caps :
  Regex.exec r s = Some caps ->
  exists before found after,
    s = before +:+ found +:+ after /\ Regex.Matches r found caps
    /\ forall b f a c, s = b +:+ f +:+ a -> Regex.Matches r f c ->
                       (String.length before <= String.length b)%nat.
Proof.
  induction s as [| x s IH]; cbn [Regex.exec].
  - destruct (Regex.run r "" [] Regex.accept) as [res |] eqn:Hrun; [| discriminate].
    intros [= <-]. apply run_sound in Hrun as (s1 & s2 & cs & Hs & Hm & [= <-]).
    exists EmptyString, s1, s2. rewrite append_nil_l. split; [exact Hs |].
    split; [exact Hm |]. intros; cbn; lia.
  - destruct (Regex.run r (String x s) [] Regex.accept) as [res |] eqn:Hrun.
    + intros [= <-]. apply run_sound in Hrun as (s1 & s2 & cs & Hs & Hm & [= <-]).
      exists EmptyString, s1, s2. rewrite append_nil_l. split; [exact Hs |].
      split; [exact Hm |]. intros; cbn; lia.
    + intros H. destruct (IH H) as (before & found & after & -> & Hm & Hleft).
      exists (String x before), found, after. rewrite append_cons.
      split; [reflexivity |]. split; [exact Hm |].
      intros b f a c Hs Hf. destruct b as [| y b].
      * exfalso. rewrite append_nil_l in Hs.
        destruct (run_complete r f c Hf a [] Regex.accept) as [res Hres]; [cbn; eauto |].
        rewrite <- Hs in Hres. congruence.
      * rewrite append_cons in Hs. injection Hs as <- Hs.
        specialize (Hleft _ _ _ _ Hs Hf). cbn. lia.
Qed.

Lemma required_matches found caps :
  Regex.Matches requiredRegex found caps <->
  exists v, found = requiredAttribute v /\ caps = [v] /\ BooleanText v.
Proof.
  unfold requiredRegex, requiredAttribute, BooleanText. cbn [Regex.seq]. split.
  - intros H.
    repeat match goal with
           | H : Regex.Matches (Regex.Cat _ _) _ _ |- _ => inversion H; subst; clear H
           | H : Regex.Matches (Regex.Group _) _ _ |- _ => inversion H; subst; clear H
           | H : Regex.Matches (Regex.Alt _ _) _ _ |- _ => inversion H; subst; clear H
           | H : Regex.Matches (Regex.Lit _) _ _ |- _ => inversion H; subst; clear H
           end.
    + exists "true". split; [reflexivity | auto].
    + exists "false". split; [reflexivity | auto].
  - intros (v & -> & -> & Hv).
    eapply (matches_cat _ _ ("data-required=" +:+ dquote) _ [] [v]);
      [apply Regex.MLit | | reflexivity ..].
    eapply (matches_cat _ _ v _ [v] []); [| apply Regex.MLit | reflexivity ..].
    apply (Regex.MGroup _ _ []).
    destruct Hv as [-> | ->]; [apply Regex.MAltL | apply Regex.MAltR]; constructor.
Qed.

Lemma stepType_matches found caps :
  Regex.Matches stepTypeRegex found caps <->
  exists v, found = stepTypeAttribute v /\ caps = [v] /\ QuotedText v.
Proof.
  unfold stepTypeRegex, stepTypeAttribute, QuotedText. cbn [Regex.seq]. split.
  - intros H.
    repeat match goal with
           | H : Regex.Matches (Regex.Cat _ _) _ _ |- _ => inversion H; subst; clear H
           | H : Regex.Matches (Regex.Group _) _ _ |- _ => inversion H; subst; clear H
           | H : Regex.Matches (Regex.Plus _) _ _ |- _ => inversion H; subst; clear H
           | H : Regex.Matches (Regex.Lit _) _ _ |- _ => inversion H; subst; clear H
           end.
    match goal with
    | Ha : notQuote ?a = true, Hs : Js.allChars notQuote ?s = true |- _ =>
        exists (String a s)
    end.
    split; [reflexivity |]. split; [reflexivity |].
    split; [discriminate | now apply allChars_cons].
  - intros (v & -> & -> & Hv & Hcv).
    eapply (matches_cat _ _ ("data-step-type=" +:+ dquote) _ [] [v]);
      [apply Regex.MLit | | reflexivity ..].
    eapply (matches_cat _ _ v _ [v] []); [| apply Regex.MLit | reflexivity ..].
    apply (Regex.MGroup _ _ []). now apply matches_plus.
Qed.

(** What [exec] answers for a pattern that matches the texts [attribute v]
    and captures [v]. *)
Lemma exec_attribute r attribute (ok : string -> Prop) content :
  (forall found caps, Regex.Matches r found caps <->
                      exists v, found = attribute v /\ caps = [v] /\ ok v) ->
  match Regex.exec r content with
  | Some caps => exists before v after,
                   caps = [v] /\ FirstAttribute attribute ok content before v after
  | None => forall before v after, content = before +:+ attribute v +:+ after -> ~ ok v
  end.
Proof.
  intros Hr. destruct (Regex.exec r content) as [caps |] eqn:Hexec.
  - apply exec_leftmost in Hexec as (before & found & after & -> & Hm & Hleft).
    apply Hr in Hm as (v & -> & -> & Hv). exists before, v, after.
    split; [reflexivity |]. split; [reflexivity |]. split; [exact Hv |].
    intros b w a Hs Hw. apply (Hleft b (attribute w) a [w] Hs). apply Hr. eauto.
  - intros before v after -> Hv.
    destruct (exec_complete r before (attribute v) after [v]) as [caps Hcaps];
      [apply Hr; eauto |]. congruence.
Qed.

(** X26.  [parseStepHTML] always answers a step, with the id of the file
    name.  The step is optional exactly when the first [data-required]
    attribute with the value true or false has the value false (it is
    required when there is no such attribute); its type is the value of the
    first [data-step-type] attribute with a non-empty value, and general
    when there is none. *)
Theorem html_step_attributes content filename :
  exists step,
    parseStepHTML content filename = Some step
    /\ id step = stepIdOf filename /\ isMarkdown step = false
    /\ (required step = false <->
        exists before after,
          FirstAttribute requiredAttribute BooleanText content before "false" after)
    /\ ((exists before after,
            FirstAttribute stepTypeAttribute QuotedText content before (type step) after)
        \/ ((forall before v after,
                content = before +:+ stepTypeAttribute v +:+ after -> ~ QuotedText v)
            /\ type step = "general")).
Proof.
  eexists. split; [reflexivity |]. split; [reflexivity |]. split; [reflexivity |].
  cbn [required type]. split.
  - pose proof (exec_attribute requiredRegex requiredAttribute BooleanText content
                  required_matches) as Hexec.
    destruct (Regex.exec requiredRegex content) as [caps |].
    + destruct Hexec as (before & v & after & -> & Hfirst). split.
      * intros Hv. exists before, after.
        destruct Hfirst as (Hs & [-> | ->] & Hleft); [discriminate Hv |].
        split; [exact Hs |]. split; [now right | exact Hleft].
      * intros (b & a & Hfirst').
        destruct Hfirst as (Hs & Hv & Hleft). destruct Hfirst' as (Hs' & Hw & Hleft').
        pose proof (Hleft _ _ _ Hs' Hw) as H1. pose proof (Hleft' _ _ _ Hs Hv) as H2.
        rewrite Hs' in Hs. apply append_inv_length in Hs as [_ Hs]; [| lia].
        destruct Hv as [-> | ->]; [| reflexivity].
        apply (f_equal (Js.drop (String.length ("data-required=" +:+ dquote)))) in Hs.
        unfold requiredAttribute in Hs. rewrite !append_assoc in Hs.
        cbn in Hs. discriminate Hs.
    + split; [discriminate |]. intros (before & after & (Hs & Hv & _)).
      exfalso. exact (Hexec _ _ _ Hs Hv).
  - pose proof (exec_attribute stepTypeRegex stepTypeAttribute QuotedText content
                  stepType_matches) as Hexec.
    destruct (Regex.exec stepTypeRegex content) as [caps |].
    + destruct Hexec as (before & v & after & -> & Hfirst). left. eauto.
    + right. split; [exact Hexec | reflexivity].
Qed.

(** ** The id of a file name *)

Lemma exec_execBefore r s : Regex.exec r s = execBefore r Regex.accept s.
Proof. induction s as [| a s IH]; cbn; now rewrite ?IH. Qed.

Lemma span_exists c s :
  exists s1 s2,
    s = s1 +:+ s2 /\ Js.allChars c s1 = true
    /\ (s2 = EmptyString \/ exists a t, s2 = String a t /\ c a = false).
Proof.
  induction s as [| a s (s1 & s2 & -> & Hall & Hstop)].
  - exists EmptyString, EmptyString. auto.
  - destruct (c a) eqn:Ha.
    + exists (String a s1), s2. rewrite append_cons. cbn. rewrite Ha. auto.
    + exists EmptyString, (String a (s1 +:+ s2)). rewrite append_nil_l.
      split; [reflexivity |]. split; [reflexivity |]. right. eauto.
Qed.

(** The file name pattern at the start of [s]: the digits it captures are
    all the digits that follow [step-]. *)
Lemma stepId_here s res :
  Regex.run stepIdRegex s [] Regex.accept = Some res <->
  exists digits after, StepNumberAt s EmptyString digits after /\ res = [digits].
Proof.
  unfold stepIdRegex, StepNumberAt. cbn [Regex.run]. split.
  - destruct (Js.startsWith "step-" s) eqn:Hs; [| discriminate].
    apply startsWith_split in Hs.
    set (s0 := Js.drop (String.length "step-") s) in *. clearbody s0. subst s.
    destruct s0 as [| a s0]; [discriminate |].
    destruct (Js.isDigit a) eqn:Ha; [| discriminate].
    destruct (span_exists Js.isDigit s0) as (s1 & s2 & -> & Hall & Hstop).
    rewrite (greedy_max Js.isDigit s1 s2 [] _ [String a s1] Hall Hstop).
    + intros [= <-]. exists (String a s1), s2. rewrite append_nil_l.
      repeat split; [discriminate | now apply allChars_cons | exact Hstop].
    + unfold Regex.accept. rewrite <- append_cons, take_append. reflexivity.
  - intros (digits & after & (-> & Hd & Hcd & Hstop) & ->).
    rewrite append_nil_l, startsWith_append, drop_append.
    destruct digits as [| a digits]; [congruence |]. rewrite append_cons.
    cbn in Hcd. apply andb_prop in Hcd as [Ha Hcd]. rewrite Ha.
    apply greedy_max; [exact Hcd | exact Hstop |].
    unfold Regex.accept. rewrite <- append_cons, take_append. reflexivity.
Qed.

Lemma parseInt_digits d : Js.allChars Js.isDigit d = true -> 0 <= Js.parseInt d.
Proof.
  unfold Js.parseInt.
  assert (forall acc, 0 <= acc -> Js.allChars Js.isDigit d = true ->
            0 <= fold_left (fun acc c => 10 * acc + (Z.of_nat (nat_of_ascii c) - 48))
                           (list_ascii_of_string d) acc) as H; [| now apply H].
  induction d as [| c d IH]; intros acc Hacc Hall; [exact Hacc |].
  cbn in Hall. apply andb_prop in Hall as [Hc Hall]. cbn [list_ascii_of_string fold_left].
  apply IH; [| exact Hall].
  unfold Js.isDigit in Hc. cbv zeta in Hc. apply andb_prop in Hc as [Hlo _].
  apply Nat.leb_le in Hlo. lia.
Qed.

(** X27.  The id of a file name is never negative.  It is read at the first
    place where [step-] is followed by a digit, from all the digits that
    follow there; a file name without such a place has the id 0. *)
Theorem step_id_of_file_name filename :
  0 <= stepIdOf filename
  /\ ((exists before digits after,
          StepNumberAt filename before digits after
          /\ (forall b d a, StepNumberAt filename b d a ->
                            (String.length before <= String.length b)%nat)
          /\ stepIdOf filename = Js.parseInt digits)
      \/ ((forall b d a, ~ StepNumberAt filename b d a) /\ stepIdOf filename = 0)).
Proof.
  assert (Hshape :
    (exists before digits after,
        StepNumberAt filename before digits after
        /\ (forall b d a, StepNumberAt filename b d a ->
                          (String.length before <= String.length b)%nat)
        /\ stepIdOf filename = Js.parseInt digits)
    \/ ((forall b d a, ~ StepNumberAt filename b d a) /\ stepIdOf filename = 0)).
  { unfold stepIdOf. rewrite exec_execBefore.
    destruct (execBefore stepIdRegex Regex.accept filename) as [res |] eqn:Hexec.
    - left. apply execBefore_Some in Hexec as (before & rest & -> & Hrun & Hleft).
      apply stepId_here in Hrun as (digits & after & (Hrest & Hd & Hcd & Hstop) & ->).
      rewrite append_nil_l in Hrest. subst rest. exists before, digits, after.
      split; [now repeat split |]. split; [| reflexivity].
      intros b d a (Hs & Hd' & Hcd' & Hstop').
      destruct (Nat.le_gt_cases (String.length before) (String.length b)) as [| Hlt];
        [assumption | exfalso].
      apply append_eq_cases in Hs as [(x & -> & Hx) | (x & Hx & -> & _)].
      + destruct x as [| c x]; [rewrite append_nil_r in Hlt; lia |].
        specialize (Hleft b (String c x) eq_refl ltac:(discriminate)).
        rewrite <- Hx in Hleft.
        assert (Regex.run stepIdRegex ("step-" +:+ d +:+ a) [] Regex.accept = Some [d])
          as Hhere; [| congruence].
        apply stepId_here. exists d, a. split; [| reflexivity].
        unfold StepNumberAt. rewrite append_nil_l. now repeat split.
      + rewrite length_append in Hlt. lia.
    - right. split; [| reflexivity]. intros b d a (Hs & Hd & Hcd & Hstop).
      pose proof (execBefore_None _ _ _ Hexec b _ Hs) as Hrun.
      assert (Regex.run stepIdRegex ("step-" +:+ d +:+ a) [] Regex.accept = Some [d])
        as Hhere; [| congruence].
      apply stepId_here. exists d, a. split; [| reflexivity].
      unfold StepNumberAt. rewrite append_nil_l. now repeat split. }
  split; [| exact Hshape].
  destruct Hshape as [(before & digits & after & (_ & _ & Hcd & _) & _ & ->) | [_ ->]];
    [now apply parseInt_digits | lia].
Qed.

(** ** Working through the steps *)

Lemma Progressed_fresh p : Progressed p -> currentStep p ∉ completedSteps p.
Proof.
  unfold Progressed. rewrite Forall_forall. intros Hp Hin. specialize (Hp _ Hin). lia.
Qed.

(** Completing the current step of a stored profile, without naming it. *)
Lemma complete_unnamed_step env dir now who (st : Store) p :
  who <> EmptyString ->
  st !! profileFile who = Some p -> email p = who -> Progressed p ->
  let args := mkCompleteArgs None (Some who) None None in
  let s := currentStep p in
  let next := nextStepId (getAllSteps dir) s in
  let saved := touch now (withProgress p next (completedSteps p ++ [s])
                            (<[s := completionRecord now args]> (stepData p))) in
  handleCompleteStep env dir now args st
  = (Ok (Completed s (getStep dir s) next (getStep dir next) (length (getAllSteps dir))),
     <[profileFile who := saved]> st)
  /\ Progressed saved.
Proof.
  intros Hne Hfile Hmail Hp args s next saved.
  pose proof (getEmployeeProfile_stored env now who st p Hne Hfile) as Hload.
  pose proof (Progressed_fresh p Hp) as Hfresh. split.
  - rewrite (handleCompleteStep_eq env dir now args st st p Hload). cbv zeta.
    change (resolveStep args p) with s. apply includes_false in Hfresh.
    fold s in Hfresh. rewrite Hfresh. unfold s at 1. rewrite Z.eqb_refl. cbn [negb].
    rewrite Hmail. reflexivity.
  - apply (Progressed_complete dir now args p Hp); [exact Hfresh | reflexivity].
Qed.

Lemma filter_above_shrinks (ids : list Z) c new :
  new ∈ ids -> c < new ->
  (length (List.filter (fun i : Z => (new <? i)%Z) ids)
   < length (List.filter (fun i : Z => (c <? i)%Z) ids))%nat.
Proof.
  intros Hin Hlt. induction ids as [| i ids IH]; [inversion Hin |]. cbn.
  assert (Hle : (length (List.filter (fun i : Z => (new <? i)%Z) ids)
                 <= length (List.filter (fun i : Z => (c <? i)%Z) ids))%nat).
  { clear - Hlt. induction ids as [| j ids IH]; [cbn; lia |]. cbn.
    destruct (new <? j) eqn:H1.
    - assert ((c <? j) = true) as -> by (apply Z.ltb_lt; apply Z.ltb_lt in H1; lia).
      cbn. lia.
    - destruct (c <? j); cbn; lia. }
  apply elem_of_cons in Hin as [<- | Hin].
  - rewrite Z.ltb_irrefl. assert ((c <? new) = true) as -> by (apply Z.ltb_lt; lia).
    cbn. lia.
  - specialize (IH Hin). destruct (new <? i) eqn:H1.
    + assert ((c <? i) = true) as -> by (apply Z.ltb_lt; apply Z.ltb_lt in H1; lia).
      cbn. lia.
    + destruct (c <? i); cbn; lia.
Qed.

Lemma finish_from env dir who :
  who <> EmptyString ->
  forall m c,
    length (List.filter (fun i : Z => (c <? i)%Z) (map id (getAllSteps dir))) = m ->
    exists n, (n <= m)%nat /\
      forall (st : Store) p nows,
        st !! profileFile who = Some p -> email p = who -> Progressed p ->
        currentStep p = c -> length nows = S n ->
        exists answers st',
          completeInTurn env dir who nows st = (map Ok answers, st')
          /\ Finishing answers.
Proof.
  intros Hne m. induction m as [m IH] using lt_wf_ind. intros c Hm.
  set (next := nextStepId (getAllSteps dir) c).
  pose proof (nextStepId_spec dir c) as Hnext. fold next in Hnext.
  destruct Hnext as [(Hin & Hgt & Hmin) | (Hall & Heq)].
  - (* a step above the current one *)
    destruct (find_id_Some (getAllSteps dir) next Hin) as (step & Hstep & _).
    pose proof (filter_above_shrinks _ c next Hin Hgt) as Hless. rewrite Hm in Hless.
    destruct (IH _ Hless next eq_refl) as (n1 & Hn1 & Hrest).
    exists (S n1). split; [lia |].
    intros st p nows Hfile Hmail Hp Hcur Hlen.
    destruct nows as [| now nows]; [discriminate |]. injection Hlen as Hlen.
    destruct (complete_unnamed_step env dir now who st p Hne Hfile Hmail Hp)
      as [Hrun Hsaved]. rewrite Hcur in Hrun, Hsaved. fold next in Hrun, Hsaved.
    set (saved := touch now _) in *.
    destruct (Hrest (<[profileFile who := saved]> st) saved nows
                ltac:(apply lookup_insert_eq) Hmail Hsaved eq_refl Hlen)
      as (answers & st' & Hturn & Hfin).
    exists (Completed c (getStep dir c) next (Some step) (length (getAllSteps dir))
              :: answers), st'.
    split; [| now constructor]. cbn [completeInTurn map]. rewrite Hrun, Hturn.
    unfold getStep at 2. unfold getAllSteps in Hstep. now rewrite Hstep.
  - (* the last step *)
    exists 0%nat. split; [lia |].
    intros st p nows Hfile Hmail Hp Hcur Hlen.
    destruct nows as [| now [| ? ?]]; try discriminate.
    destruct (complete_unnamed_step env dir now who st p Hne Hfile Hmail Hp)
      as [Hrun _]. rewrite Hcur in Hrun. fold next in Hrun.
    eexists [_], _. cbn [completeInTurn map]. rewrite Hrun. split; [reflexivity |].
    assert (getStep dir next = None) as ->; [| constructor].
    apply (find_id_None (getAllSteps dir)). intros Hin. specialize (Hall _ Hin). lia.
Qed.

(** X28.  Onboarding comes to an end.  For a stored profile whose completed
    ids all lie below its current step there is a number n, not above the
    number of configured steps, such that n + 1 successive [complete_step]
    calls without step id are all answered [Completed], the last of them,
    and it alone, without upcoming step. *)
Theorem onboarding_finishes env dir who (st : Store) p :
  who <> EmptyString ->
  st !! profileFile who = Some p -> email p = who ->
  Forall (fun done => done < currentStep p) (completedSteps p) ->
  exists n,
    (n <= length (getAllSteps dir))%nat
    /\ forall nows, length nows = S n ->
         exists answers st',
           completeInTurn env dir who nows st = (map Ok answers, st')
           /\ Finishing answers.
Proof.
  intros Hne Hfile Hmail Hp.
  destruct (finish_from env dir who Hne _ (currentStep p) eq_refl) as (n & Hn & Hturn).
  exists n. split.
  - etransitivity; [exact Hn |]. rewrite <- (length_map id).
    generalize (map id (getAllSteps dir)). intros ids.
    induction ids as [| i ids IH]; cbn; [lia |]. destruct (_ <? i); cbn; lia.
  - intros nows Hlen. now apply (Hturn st p nows).
Qed.

Lemma onboarding_finishes_witness :
  exists n,
    (n <= length (getAllSteps repositorySteps))%nat
    /\ forall nows, length nows = S n ->
         exists answers st',
           completeInTurn noEnv repositorySteps jane nows janeRegistered
           = (map Ok answers, st')
           /\ Finishing answers.
Proof.
  apply (onboarding_finishes noEnv repositorySteps jane janeRegistered janeProfile).
  - discriminate.
  - vm_compute. reflexivity.
  - reflexivity.
  - constructor.
Defined.

(** ** The order of the listing *)

Lemma filter_perm {A} (keep : A -> bool) l l' :
  Permutation l l' -> Permutation (List.filter keep l) (List.filter keep l').
Proof.
  induction 1 as [| x l l' _ IH | x y l | l l' l'' _ IH1 _ IH2]; cbn.
  - constructor.
  - destruct (keep x); [now constructor | exact IH].
  - destruct (keep x), (keep y); try reflexivity. apply perm_swap.
  - now rewrite IH1.
Qed.

Lemma flat_map_perm {A B} (f : A -> list B) l l' :
  Permutation l l' -> Permutation (flat_map f l) (flat_map f l').
Proof.
  induction 1 as [| x l l' _ IH | x y l | l l' l'' _ IH1 _ IH2]; cbn.
  - constructor.
  - now apply Permutation_app_head.
  - rewrite !app_assoc. apply Permutation_app_tail, Permutation_app_comm.
  - now rewrite IH1.
Qed.

Lemma htmlSteps_same_ids (ids ids' : gset Z) files :
  ids = ids' -> htmlSteps ids files = htmlSteps ids' files.
Proof. now intros ->. Qed.

(** Listing the files in another order loads the same steps, in another
    order. *)
Lemma loadSteps_perm files files' :
  Permutation files files' ->
  Permutation (loadSteps (Some files)) (loadSteps (Some files')).
Proof.
  intros Hperm. rewrite !loadSteps_eq.
  pose proof (flat_map_perm markdownStep _ _ (filter_perm isMarkdownFile _ _ Hperm))
    as Hmd. fold (markdownSteps (List.filter isMarkdownFile files)) in Hmd.
  fold (markdownSteps (List.filter isMarkdownFile files')) in Hmd.
  apply Permutation_app; [exact Hmd |].
  rewrite (htmlSteps_same_ids _
             (list_to_set (map id (markdownSteps (List.filter isMarkdownFile files'))))).
  - apply flat_map_perm, filter_perm, Hperm.
  - apply set_eq. intros i. rewrite !elem_of_list_to_set.
    now rewrite (Permutation_map id Hmd).
Qed.

Lemma loadSteps_NoDup files :
  NoDup (fileIds (List.filter isMarkdownFile files)) ->
  NoDup (fileIds (List.filter isHtmlFile files)) ->
  NoDup (map id (loadSteps (Some files))).
Proof.
  intros Hmd Hhtml. rewrite loadSteps_eq, map_app. apply NoDup_app. repeat split.
  - now apply markdownSteps_NoDup.
  - intros i Hmdi Hhtmli.
    apply list_elem_of_fmap in Hhtmli as (b & -> & Hb).
    apply htmlSteps_isMarkdown in Hb as [_ Hb]. apply Hb.
    now apply elem_of_list_to_set.
  - now apply htmlSteps_NoDup.
Qed.

(** Two lists sorted by id that hold the same steps, no two of them with the
    same id, are the same list. *)
Lemma sorted_by_id_unique (l1 l2 : list OnboardingStep) :
  StronglySorted byId l1 -> StronglySorted byId l2 ->
  Permutation l1 l2 -> NoDup (map id l1) -> l1 = l2.
Proof.
  revert l2. induction l1 as [| x l1 IH]; intros l2 H1 H2 Hperm Hnodup.
  - apply Permutation_nil in Hperm. now subst.
  - destruct l2 as [| y l2]; [symmetry in Hperm; now apply Permutation_nil in Hperm |].
    apply StronglySorted_inv in H1 as [H1 Hx]. apply StronglySorted_inv in H2 as [H2 Hy].
    assert (x = y) as <-.
    { apply (NoDup_same_id (x :: l1)); [exact Hnodup | now left | |].
      - rewrite Hperm. now left.
      - assert (id x <= id y) as Hle1.
        { assert (y ∈ x :: l1) as Hin by (rewrite Hperm; now left).
          apply elem_of_cons in Hin as [-> | Hin]; [lia |].
          rewrite Forall_forall in Hx. exact (Hx _ Hin). }
        assert (id y <= id x) as Hle2.
        { assert (x ∈ y :: l2) as Hin by (rewrite <- Hperm; now left).
          apply elem_of_cons in Hin as [-> | Hin]; [lia |].
          rewrite Forall_forall in Hy. exact (Hy _ Hin). }
        lia. }
    f_equal. apply Permutation_cons_inv in Hperm.
    apply IH; [exact H1 | exact H2 | exact Hperm |]. cbn in Hnodup.
    now apply NoDup_cons in Hnodup as [_ ?].
Qed.

(** X29.  The steps do not depend on the order in which the steps directory
    is listed: when no two Markdown file names and no two HTML file names
    carry the same id, every listing of the same files gives the same
    [getAllSteps] and the same [getStep]. *)
Theorem steps_independent_of_listing_order files files' :
  Permutation files files' ->
  NoDup (fileIds (List.filter isMarkdownFile files)) ->
  NoDup (fileIds (List.filter isHtmlFile files)) ->
  getAllSteps (Some files) = getAllSteps (Some files')
  /\ forall stepId, getStep (Some files) stepId = getStep (Some files') stepId.
Proof.
  intros Hperm Hmd Hhtml.
  assert (getAllSteps (Some files) = getAllSteps (Some files')) as Hsame.
  { unfold getAllSteps, loadConfiguration.
    apply sorted_by_id_unique; try apply sortById_sorted.
    - rewrite !sortById_perm. now apply loadSteps_perm.
    - rewrite sortById_perm. now apply loadSteps_NoDup. }
  split; [exact Hsame |]. intros stepId. unfold getStep.
  unfold getAllSteps in Hsame. now rewrite Hsame.
Qed.

Lemma steps_independent_of_listing_order_witness :
  getAllSteps repositorySteps
  = getAllSteps (Some [("step-3-saw-device.md", Some sawDeviceDoc);
                       ("step-1-project-resources.md", Some projectResourcesDoc);
                       ("step-2-first-pr.md", Some firstPrDoc)]).
Proof.
  apply (steps_independent_of_listing_order
           [("step-1-project-resources.md", Some projectResourcesDoc);
            ("step-2-first-pr.md", Some firstPrDoc);
            ("step-3-saw-device.md", Some sawDeviceDoc)]).
  - apply Permutation_sym, Permutation_cons_append.
  - vm_compute. repeat constructor; rewrite ?list_elem_of_In; cbn; intuition lia.
  - vm_compute. constructor.
Defined.

(** ** The title and the description of an HTML document *)

Lemma lowerChar_digit c d :
  Js.isDigit d = true -> Js.lowerChar c = d -> c = d.
Proof.
  intros Hd <-. unfold Js.lowerChar in *. destruct (Js.isUpper c) eqn:Hc; [| reflexivity].
  exfalso. revert Hd Hc. destruct c as [[] [] [] [] [] [] [] []]; vm_compute; congruence.
Qed.

Lemma oneOrTwo_spec c : oneOrTwo c = true <-> c = "1"%char \/ c = "2"%char.
Proof.
  unfold oneOrTwo. rewrite orb_true_iff, !Ascii.eqb_eq. reflexivity.
Qed.

Lemma title_element found caps :
  Regex.Matches htmlTitleRegex found caps <->
  exists text, caps = [text] /\ ElementText HeadingOpen HeadingClose found text.
Proof.
  unfold htmlTitleRegex, ElementText, HeadingOpen, HeadingClose. cbn [Regex.seq]. split.
  - intros H.
    repeat match goal with
           | H : Regex.Matches (Regex.Cat _ _) _ _ |- _ => inversion H; subst; clear H
           | H : Regex.Matches (Regex.Group _) _ _ |- _ => inversion H; subst; clear H
           | H : Regex.Matches (Regex.Lit _) _ _ |- _ => inversion H; subst; clear H
           | H : Regex.Matches (Regex.Plus _) _ _ |- _ => inversion H; subst; clear H
           | H : Regex.Matches (Regex.Star _) _ _ |- _ => inversion H; subst; clear H
           | H : Regex.Matches (Regex.Chr _) _ _ |- _ => inversion H; subst; clear H
           | H : letter _ _ = true |- _ => apply Ascii.eqb_eq in H
           | H : oneOrTwo _ = true |- _ => apply oneOrTwo_spec in H
           end.
    match goal with
    | |- context [ "<" +:+ String ?h "" +:+ String ?n "" +:+ ?attrs +:+ ">" +:+
                   String ?t ?text +:+ "</" +:+ String ?h' "" +:+ String ?n' "" +:+ ">" ] =>
        exists (String t text); split; [reflexivity |];
        exists (String "<" (String h (String n ""))), attrs,
               (String "<" (String "/" (String h' (String n' (String ">" "")))))
    end.
    split; [first [reflexivity | now rewrite !append_assoc] |].
    cbn [Js.toLowerCase Js.mapChars].
    repeat match goal with H : Js.lowerChar _ = _ |- _ => rewrite H; clear H end.
    repeat match goal with
           | H : _ = "1"%char \/ _ = "2"%char |- _ => destruct H as [-> | ->]
           end; cbn;
      (split; [auto |]); (split; [auto |]);
      (split; [assumption |]); (split; [discriminate | now apply allChars_cons]).
  - intros (text & -> & open & attrs & close & -> & Ho & Hc & Hca & Ht & Hct).
    assert (exists h n, open = String "<" (String h (String n ""))
                        /\ letter "h" h = true /\ oneOrTwo n = true)
      as (h & n & -> & Hh & Hn).
    { destruct Ho as [Ho | Ho];
        (destruct open as [| o1 [| o2 [| o3 [| ? ?]]]]; try discriminate Ho);
        cbn in Ho; injection Ho as Ho1 Ho2 Ho3;
        apply lowerChar_less in Ho1 as ->; apply lowerChar_digit in Ho3 as ->;
        try reflexivity; exists o2; eexists; (split; [reflexivity |]);
        (split; [now apply Ascii.eqb_eq | reflexivity]). }
    assert (exists h' n', close = String "<" (String "/" (String h' (String n' (String ">" ""))))
                          /\ letter "h" h' = true /\ oneOrTwo n' = true)
      as (h' & n' & -> & Hh' & Hn').
    { destruct Hc as [Hc | Hc];
        (destruct close as [| c1 [| c2 [| c3 [| c4 [| c5 [| ? ?]]]]]]; try discriminate Hc);
        cbn in Hc; injection Hc as Hc1 Hc2 Hc3 Hc4 Hc5;
        apply lowerChar_less in Hc1 as ->; apply lowerChar_slash in Hc2 as ->;
        apply lowerChar_digit in Hc4 as ->; apply lowerChar_greater in Hc5 as ->;
        try reflexivity; exists c3; eexists; (split; [reflexivity |]);
        (split; [now apply Ascii.eqb_eq | reflexivity]). }
    eapply (matches_cat _ _ "<" _ [] [text]); [apply Regex.MLit | | reflexivity ..].
    eapply (matches_cat _ _ (String h "") _ [] [text]);
      [now constructor | | reflexivity ..].
    eapply (matches_cat _ _ (String n "") _ [] [text]);
      [now constructor | | reflexivity ..].
    eapply (matches_cat _ _ attrs _ [] [text]); [now apply Regex.MStar | | reflexivity ..].
    eapply (matches_cat _ _ ">" _ [] [text]); [apply Regex.MLit | | reflexivity ..].
    eapply (matches_cat _ _ text _ [text] []);
      [apply (Regex.MGroup _ _ []); now apply matches_plus | | reflexivity ..].
    eapply (matches_cat _ _ "</" _ [] []); [apply Regex.MLit | | reflexivity ..].
    eapply (matches_cat _ _ (String h' "") _ [] []);
      [now constructor | | reflexivity ..].
    eapply (matches_cat _ _ (String n' "") ">" [] []);
      [now constructor | apply Regex.MLit | reflexivity ..].
Qed.

Lemma paragraph_element found caps :
  Regex.Matches htmlDescriptionRegex found caps <->
  exists text, caps = [text] /\ ElementText ParagraphOpen ParagraphClose found text.
Proof.
  unfold htmlDescriptionRegex, ElementText, ParagraphOpen, ParagraphClose.
  cbn [Regex.seq]. split.
  - intros H.
    repeat match goal with
           | H : Regex.Matches (Regex.Cat _ _) _ _ |- _ => inversion H; subst; clear H
           | H : Regex.Matches (Regex.Group _) _ _ |- _ => inversion H; subst; clear H
           | H : Regex.Matches (Regex.Lit _) _ _ |- _ => inversion H; subst; clear H
           | H : Regex.Matches (Regex.Plus _) _ _ |- _ => inversion H; subst; clear H
           | H : Regex.Matches (Regex.Star _) _ _ |- _ => inversion H; subst; clear H
           | H : Regex.Matches (Regex.Chr _) _ _ |- _ => inversion H; subst; clear H
           | H : letter _ _ = true |- _ => apply Ascii.eqb_eq in H
           end.
    match goal with
    | |- context [ "<" +:+ String ?p "" +:+ ?attrs +:+ ">" +:+
                   String ?t ?text +:+ "</" +:+ String ?p' "" +:+ ">" ] =>
        exists (String t text); split; [reflexivity |];
        exists (String "<" (String p "")), attrs,
               (String "<" (String "/" (String p' (String ">" ""))))
    end.
    split; [first [reflexivity | now rewrite !append_assoc] |].
    cbn [Js.toLowerCase Js.mapChars].
    repeat match goal with H : Js.lowerChar _ = _ |- _ => rewrite H; clear H end.
    split; [reflexivity |]. split; [reflexivity |].
    split; [assumption |]. split; [discriminate | now apply allChars_cons].
  - intros (text & -> & open & attrs & close & -> & Ho & Hc & Hca & Ht & Hct).
    destruct open as [| o1 [| o2 [| ? ?]]]; try discriminate Ho.
    destruct close as [| c1 [| c2 [| c3 [| c4 [| ? ?]]]]]; try discriminate Hc.
    cbn in Ho, Hc. injection Ho as Ho1 Ho2. injection Hc as Hc1 Hc2 Hc3 Hc4.
    apply lowerChar_less in Ho1 as ->. apply lowerChar_less in Hc1 as ->.
    apply lowerChar_slash in Hc2 as ->. apply lowerChar_greater in Hc4 as ->.
    eapply (matches_cat _ _ "<" _ [] [text]); [apply Regex.MLit | | reflexivity ..].
    eapply (matches_cat _ _ (String o2 "") _ [] [text]);
      [constructor; now apply Ascii.eqb_eq | | reflexivity ..].
    eapply (matches_cat _ _ attrs _ [] [text]); [now apply Regex.MStar | | reflexivity ..].
    eapply (matches_cat _ _ ">" _ [] [text]); [apply Regex.MLit | | reflexivity ..].
    eapply (matches_cat _ _ text _ [text] []);
      [apply (Regex.MGroup _ _ []); now apply matches_plus | | reflexivity ..].
    eapply (matches_cat _ _ "</" _ [] []); [apply Regex.MLit | | reflexivity ..].
    eapply (matches_cat _ _ (String c3 "") ">" [] []);
      [constructor; now apply Ascii.eqb_eq | apply Regex.MLit | reflexivity ..].
Qed.

(** What [exec] answers for a pattern that matches the elements of one kind
    and captures their text. *)
Lemma exec_element r isOpen isClose content :
  (forall found caps, Regex.Matches r found caps <->
                      exists text, caps = [text] /\ ElementText isOpen isClose found text) ->
  match Regex.exec r content with
  | Some caps => exists before found text after,
                   caps = [text]
                   /\ FirstElement isOpen isClose content before found text after
  | None => forall before found text after,
              content = before +:+ found +:+ after ->
              ~ ElementText isOpen isClose found text
  end.
Proof.
  intros Hr. destruct (Regex.exec r content) as [caps |] eqn:Hexec.
  - apply exec_leftmost in Hexec as (before & found & after & -> & Hm & Hleft).
    apply Hr in Hm as (text & -> & Helement). exists before, found, text, after.
    split; [reflexivity |]. split; [reflexivity |]. split; [exact Helement |].
    intros b f t a Hs Hf. apply (Hleft b f a [t] Hs). apply Hr. eauto.
  - intros before found text after -> Helement.
    destruct (exec_complete r before found after [text]) as [caps Hcaps];
      [apply Hr; eauto |]. congruence.
Qed.

(** X30.  The title of an HTML step is the trimmed text of the leftmost h1
    or h2 element without markup inside (its closing tag may be that of the
    other of the two), or Step N for the id N when the document has none;
    the description is the trimmed text of the leftmost such element whose
    tags are those of a p, or empty when there is none. *)
Theorem html_title_and_description content id :
  ((exists before found text after,
       FirstElement HeadingOpen HeadingClose content before found text after
       /\ htmlTitle content id = trim text)
   \/ ((forall before found text after,
           content = before +:+ found +:+ after ->
           ~ ElementText HeadingOpen HeadingClose found text)
       /\ htmlTitle content id = "Step " +:+ Js.ofInt id))
  /\ ((exists before found text after,
          FirstElement ParagraphOpen ParagraphClose content before found text after
          /\ htmlDescription content = trim text)
      \/ ((forall before found text after,
              content = before +:+ found +:+ after ->
              ~ ElementText ParagraphOpen ParagraphClose found text)
          /\ htmlDescription content = EmptyString)).
Proof.
  split.
  - pose proof (exec_element htmlTitleRegex HeadingOpen HeadingClose content
                  title_element) as Hexec.
    unfold htmlTitle. destruct (Regex.exec htmlTitleRegex content) as [caps |].
    + destruct Hexec as (before & found & text & after & -> & Hfirst). left. eauto 6.
    + right. split; [exact Hexec | reflexivity].
  - pose proof (exec_element htmlDescriptionRegex ParagraphOpen ParagraphClose content
                  paragraph_element) as Hexec.
    unfold htmlDescription. destruct (Regex.exec htmlDescriptionRegex content) as [caps |].
    + destruct Hexec as (before & found & text & after & -> & Hfirst). left. eauto 6.
    + right. split; [exact Hexec | reflexivity].
Qed.
